(** * Engagement analysis of a live-chat batch: embedding and properties

    Shallow embedding of the analysis core of the chat scraper
    (questionAnalysis, conversationThreading, topicAnalysis, hostDetection
    and the engagementAnalysis orchestrator) and the properties stated
    about it.

    Conventions of the embedding.
    - A [ChatMessage.timestamp] is the value of
      [new Date(msg.timestamp).getTime()]: integer milliseconds ([Z]).
      The input contract guarantees parseable timestamps.  Fields of a
      message that the analysis never reads are left out.
    - JavaScript numbers that can be fractional (seconds, scores before
      rounding, averages) are exact rationals ([Q]); counts and lengths are
      [nat]; rounded scores are [Z].  [Math.round x] is [Qfloor (x + 1/2)].
      The comparisons of a whole count with [n * 0.05], [n / 100] and
      [m * 0.3] give in double precision the same answer as in exact
      arithmetic for all array lengths, the products being whole numbers or
      at least 1/100 away from one.  A rounded score can differ by one from
      the double-precision result when the exact value is within rounding
      error of a half; the ranges, orders and counts proved below do not
      depend on that, and where a property gives a score or a mean by its
      formula, the formula is meant in exact arithmetic.
    - [Array.prototype.sort] is stable and is given by a stable insertion
      sort; a comparator [(a, b) => f(a) - f(b)] is a function to [Z].
    - A JavaScript [Map] that is iterated ([forEach], [values], [entries])
      is an association list in insertion order; a [Map] or [Set<number>]
      that is only queried is a [gmap] or [gset]; a [Set<string>] turned
      into an array is a duplicate-free list in insertion order.
    - Text is 8-bit ([string]); [toLowerCase], [trim] and the character
      classes act on ASCII.  On text of ASCII characters they are the
      operations of the code; a property that rests on the folding of case
      or on the splitting into words is stated for such text.
    - A call that spreads an array ([Math.min(...xs)]) throws when the
      array is longer than the engine accepts.  The functions on lists give
      the value computed when no such call throws; module [Throwing] gives
      the outcome, with the accepted length as a parameter.
    - The functions on lists give the values computed.  Where the question
      is which arrays the code updates in place, the arrays of messages
      live in a store and the code is given in store-passing style. *)

From Stdlib Require Import ZArith QArith Qround Lia Lqa Ascii String.
From stdpp Require Import base list gmap strings pretty sorting.

Local Open Scope string_scope.
Local Open Scope list_scope.
Local Open Scope Z_scope.

(** ** Data model (youtube.ts) *)

Record ChatMessage := mkChatMessage {
  msg_id : string;
  msg_author : string;
  msg_message : string;
  msg_timestamp : Z;
  msg_profileImageUrl : string;
  msg_badges : option (list string);
  msg_isHost : option bool
}.

Record Answer := mkAnswer {
  ans_messageId : string;
  ans_author : string;
  ans_message : string;
  ans_timestamp : Z;
  responseTimeSeconds : Q
}.

Record HostQuestion := mkHostQuestion {
  hq_messageId : string;
  hq_author : string;
  hq_question : string;
  hq_timestamp : Z;
  answers : list Answer;
  wasAnswered : bool
}.

Record QuestionAnswerer := mkQuestionAnswerer {
  qa_author : string;
  qa_profileImageUrl : string;
  questionsAnswered : nat;
  averageResponseTime : Q;
  helpfulnessScore : Z
}.

(** ** JavaScript primitives used by the analysis *)

(** [Math.round]: nearest integer, ties towards +infinity. *)
Definition Math_round (x : Q) : Z := Qfloor (x + (1 # 2)).

Definition Qmin (x y : Q) : Q := if Qle_bool x y then x else y.
Definition Qmax (x y : Q) : Q := if Qle_bool x y then y else x.
Definition Q_of_nat (n : nat) : Q := inject_Z (Z.of_nat n).

(** [Array.prototype.sort(cmp)]: stable; [cmp a b <= 0] keeps [a] first. *)
Section Sort.
Context {A : Type} (cmp : A -> A -> Z).

Fixpoint sort_insert (x : A) (l : list A) : list A :=
  match l with
  | [] => [x]
  | y :: l' => if cmp x y <=? 0 then x :: y :: l' else y :: sort_insert x l'
  end.

Definition js_sort (l : list A) : list A := foldr sort_insert [] l.
End Sort.

(** [Array.prototype.slice(a, b)] and [slice(a)] for in-range bounds. *)
Definition slice {A} (a b : nat) (l : list A) : list A := take (b - a) (drop a l).
Definition slice_from {A} (a : nat) (l : list A) : list A := drop a l.

(** [String.prototype.includes]. *)
Fixpoint includes (s sub : string) : bool :=
  String.prefix sub s ||
  match s with
  | EmptyString => false
  | String _ s' => includes s' sub
  end.

Definition lower_ascii (c : ascii) : ascii :=
  let n := nat_of_ascii c in
  if ((65 <=? n) && (n <=? 90))%nat then ascii_of_nat (n + 32) else c.

Fixpoint toLowerCase (s : string) : string :=
  match s with
  | EmptyString => EmptyString
  | String c s' => String (lower_ascii c) (toLowerCase s')
  end.

Definition is_space (c : ascii) : bool :=
  let n := nat_of_ascii c in
  ((n =? 32) || ((9 <=? n) && (n <=? 13)))%nat.

Fixpoint trimStart (s : string) : string :=
  match s with
  | String c s' => if is_space c then trimStart s' else s
  | EmptyString => EmptyString
  end.

Fixpoint trimEnd (s : string) : string :=
  match s with
  | EmptyString => EmptyString
  | String c s' =>
      match trimEnd s' with
      | EmptyString => if is_space c then EmptyString else String c EmptyString
      | t => String c t
      end
  end.

Definition trim (s : string) : string := trimEnd (trimStart s).

Definition startsWith (s p : string) : bool := String.prefix p s.

Definition Qgt_bool (x y : Q) : bool := negb (Qle_bool x y).

(** ** questionAnalysis.ts *)

Definition questionWords : list string :=
  ["what"; "how"; "why"; "when"; "where"; "who"; "can"; "could"; "would";
   "should"; "is"; "are"; "do"; "does"].

Definition detectQuestions (message : string) : bool :=
  if (String.length message <? 5)%nat then false
  else if includes message "?" then true
  else
    let lowerMessage := trim (toLowerCase message) in
    existsb (fun word => startsWith lowerMessage (word +:+ " ")) questionWords.

(** The filter predicate of [findAnswers]. *)
Definition isCandidate (question : HostQuestion) (timeWindowSeconds : Q)
    (msg : ChatMessage) : bool :=
  let timeDiffSeconds := (msg_timestamp msg - hq_timestamp question) # 1000 in
  Qgt_bool timeDiffSeconds 0 &&
  Qle_bool timeDiffSeconds timeWindowSeconds &&
  bool_decide (msg_author msg ≠ hq_author question) &&
  bool_decide (msg_author msg ≠ hq_author question).

Definition byTimestamp (a b : ChatMessage) : Z := msg_timestamp a - msg_timestamp b.

Definition toAnswer (questionTime : Z) (msg : ChatMessage) : Answer :=
  {| ans_messageId := msg_id msg;
     ans_author := msg_author msg;
     ans_message := msg_message msg;
     ans_timestamp := msg_timestamp msg;
     responseTimeSeconds := (msg_timestamp msg - questionTime) # 1000 |}.

Definition findAnswers (question : HostQuestion) (messages : list ChatMessage)
    (hostName : string) (timeWindowSeconds : Q) : list Answer :=
  let questionTime := hq_timestamp question in
  let candidateMessages := filter (isCandidate question timeWindowSeconds) messages in
  let candidateMessages := js_sort byTimestamp candidateMessages in
  let topAnswers := slice 0 10 candidateMessages in
  toAnswer questionTime <$> topAnswers.

Definition extractHostQuestions (messages : list ChatMessage) (hostName : string)
    (timeWindowSeconds : Q) : list HostQuestion :=
  let hostMessages := filter (fun msg => msg_author msg = hostName) messages in
  foldl (fun hostQuestions msg =>
    if detectQuestions (msg_message msg) then
      let answers :=
        findAnswers
          {| hq_messageId := msg_id msg; hq_author := msg_author msg;
             hq_question := msg_message msg; hq_timestamp := msg_timestamp msg;
             answers := []; wasAnswered := false |}
          messages hostName timeWindowSeconds in
      hostQuestions ++
        [ {| hq_messageId := msg_id msg; hq_author := msg_author msg;
             hq_question := msg_message msg; hq_timestamp := msg_timestamp msg;
             answers := answers;
             wasAnswered := (0 <? length answers)%nat |} ]
    else hostQuestions) [] hostMessages.

Definition defaultWindow : Q := 120 # 1.

(** [Map<string, V>] in insertion order: [set] on a present key replaces the
    value in place, on a fresh key appends. *)
Section JsMap.
Context {V : Type}.

Fixpoint map_get (k : string) (m : list (string * V)) : option V :=
  match m with
  | [] => None
  | (k', v) :: m' => if decide (k = k') then Some v else map_get k m'
  end.

Definition map_has (k : string) (m : list (string * V)) : bool :=
  match map_get k m with Some _ => true | None => false end.

Fixpoint map_set (k : string) (v : V) (m : list (string * V)) : list (string * V) :=
  match m with
  | [] => [(k, v)]
  | (k', v') :: m' =>
      if decide (k = k') then (k, v) :: m' else (k', v') :: map_set k v m'
  end.
End JsMap.

Record AnswererStats := mkStats {
  answersCount : nat;
  totalResponseTime : Q;
  respondentMessages : nat
}.

(** Body of the inner [forEach] of [rankQuestionAnswerers]; the update of
    the [stats] object held by the map is a [set] at the same key. *)
Definition collectAnswer (messages : list ChatMessage)
    (answererMap : list (string * AnswererStats)) (answer : Answer)
    : list (string * AnswererStats) :=
  let author := ans_author answer in
  let answererMap :=
    if map_has author answererMap then answererMap
    else
      let authorMessages := filter (fun m => msg_author m = author) messages in
      map_set author (mkStats 0 0 (length authorMessages)) answererMap in
  match map_get author answererMap with
  | Some stats =>
      map_set author
        (mkStats (answersCount stats + 1)
                 (totalResponseTime stats + responseTimeSeconds answer)
                 (respondentMessages stats))
        answererMap
  | None => answererMap
  end.

Definition collectStats (hostQuestions : list HostQuestion)
    (messages : list ChatMessage) : list (string * AnswererStats) :=
  foldl (fun answererMap question =>
           foldl (collectAnswer messages) answererMap (answers question))
        [] hostQuestions.

Definition buildProfileImageMap (messages : list ChatMessage) : list (string * string) :=
  foldl (fun profileImageMap msg =>
           if map_has (msg_author msg) profileImageMap then profileImageMap
           else map_set (msg_author msg) (msg_profileImageUrl msg) profileImageMap)
        [] messages.

Definition avgResponseTimeOf (stats : AnswererStats) : Q :=
  if (0 <? answersCount stats)%nat
  then totalResponseTime stats / Q_of_nat (answersCount stats)
  else 0.

Definition frequencyScoreOf (stats : AnswererStats) : Q :=
  Qmin 100 (Q_of_nat (answersCount stats)
            / Q_of_nat (Nat.max 1 (respondentMessages stats)) * 100).

Definition speedScoreOf (avgResponseTime : Q) : Q :=
  Qmax 0 (100 - (avgResponseTime / 60) * 10).

Definition engagementScoreOf (stats : AnswererStats) (totalHostQuestions : nat) : Q :=
  Q_of_nat (answersCount stats) / Q_of_nat totalHostQuestions * 100.

Definition helpfulnessOf (stats : AnswererStats) (totalHostQuestions : nat) : Q :=
  frequencyScoreOf stats * (4 # 10)
  + speedScoreOf (avgResponseTimeOf stats) * (4 # 10)
  + engagementScoreOf stats totalHostQuestions * (2 # 10).

Definition toAnswerer (profileImageMap : list (string * string))
    (totalHostQuestions : nat) (entry : string * AnswererStats) : QuestionAnswerer :=
  let '(author, stats) := entry in
  {| qa_author := author;
     qa_profileImageUrl := default "" (map_get author profileImageMap);
     questionsAnswered := answersCount stats;
     averageResponseTime := avgResponseTimeOf stats;
     helpfulnessScore := Math_round (helpfulnessOf stats totalHostQuestions) |}.

Definition byHelpfulnessDesc (a b : QuestionAnswerer) : Z :=
  helpfulnessScore b - helpfulnessScore a.

Definition rankQuestionAnswerers (hostQuestions : list HostQuestion)
    (messages : list ChatMessage) : list QuestionAnswerer :=
  let answererMap := collectStats hostQuestions messages in
  let profileImageMap := buildProfileImageMap messages in
  let answerers := toAnswerer profileImageMap (length hostQuestions) <$> answererMap in
  js_sort byHelpfulnessDesc answerers.

(** The result of [findAnswersToSpecificQuestion]. *)
Record SpecificQuestion := mkSpecific {
  sq_question : HostQuestion;
  sq_answerCount : nat;
  sq_topAnswerers : list QuestionAnswerer
}.

(** The test of [messages.find] in [findAnswersToSpecificQuestion]. *)
Definition matchesQuestion (questionText hostName : string) (m : ChatMessage) : bool :=
  bool_decide (msg_author m = hostName) &&
  includes (toLowerCase (msg_message m)) (toLowerCase questionText).

(** [now] is the instant read by [new Date()] when no message matches. *)
Definition findAnswersToSpecificQuestion (questionText : string)
    (messages : list ChatMessage) (hostName : string) (timeWindowSeconds : Q)
    (now : Z) : SpecificQuestion :=
  match List.find (matchesQuestion questionText hostName) messages with
  | None =>
      {| sq_question :=
           {| hq_messageId := ""; hq_author := hostName; hq_question := questionText;
              hq_timestamp := now; answers := []; wasAnswered := false |};
         sq_answerCount := 0;
         sq_topAnswerers := [] |}
  | Some questionMsg =>
      let answers :=
        findAnswers
          {| hq_messageId := msg_id questionMsg; hq_author := msg_author questionMsg;
             hq_question := msg_message questionMsg;
             hq_timestamp := msg_timestamp questionMsg;
             answers := []; wasAnswered := false |}
          messages hostName timeWindowSeconds in
      let tempQuestion :=
        {| hq_messageId := msg_id questionMsg; hq_author := msg_author questionMsg;
           hq_question := msg_message questionMsg;
           hq_timestamp := msg_timestamp questionMsg;
           answers := answers; wasAnswered := (0 <? length answers)%nat |} in
      let answerers := rankQuestionAnswerers [tempQuestion] messages in
      {| sq_question := tempQuestion;
         sq_answerCount := length answers;
         sq_topAnswerers := slice 0 10 answerers |}
  end.

(** ** conversationThreading.ts *)

Record ConversationThread := mkThread {
  threadId : string;
  participants : list string;
  messageCount : nat;
  startTime : Z;
  endTime : Z;
  thread_messages : list string
}.

(** An element of [sortedMessages]: [{ msg, originalIdx }].  One such object
    is created per input position, so object identity (used by [indexOf])
    is equality of [originalIdx]. *)
Record Indexed := mkIndexed {
  msg : ChatMessage;
  originalIdx : nat
}.

Definition byIndexedTimestamp (a b : Indexed) : Z :=
  msg_timestamp (msg a) - msg_timestamp (msg b).

(** [Set<string>.add] followed by [Array.from]: insertion order, no repeats. *)
Definition set_add (x : string) (s : list string) : list string :=
  if bool_decide (x ∈ s) then s else s ++ [x].

(** [sortedMessages.indexOf(tm)]; a result of -1 would add an element that
    no later [has(i)] can ask for, so it is given as [None]. *)
Definition indexOf (l : list Indexed) (tm : Indexed) : option nat :=
  fst <$> list_find (fun w => originalIdx w = originalIdx tm) l.

Record ScanState := mkScan {
  threadMessages : list Indexed;
  scan_participants : list string;
  scan_processed : gset nat
}.

Definition timeDiffOf (startMsg currentMsg : Indexed) : Q :=
  (msg_timestamp (msg currentMsg) - msg_timestamp (msg startMsg)) # 1000.

(** The inner [for (j = i + 1; j < length && j < i + 20; j++)] loop, run over
    the values [js] that [j] takes; [continue] goes on with the rest,
    [break] returns. *)
Fixpoint lookAhead (sortedMessages : list Indexed) (timeWindowSeconds : Q)
    (startMsg : Indexed) (js : list nat) (st : ScanState) : ScanState :=
  match js with
  | [] => st
  | j :: js' =>
      if bool_decide (j ∈ scan_processed st)
      then lookAhead sortedMessages timeWindowSeconds startMsg js' st
      else
        match sortedMessages !! j with
        | None => st
        | Some currentMsg =>
            let timeDiff := timeDiffOf startMsg currentMsg in
            if Qgt_bool timeDiff timeWindowSeconds then st
            else
              let isWithinWindow := Qle_bool timeDiff timeWindowSeconds in
              if isWithinWindow
              then lookAhead sortedMessages timeWindowSeconds startMsg js'
                     (mkScan (threadMessages st ++ [currentMsg])
                             (set_add (msg_author (msg currentMsg)) (scan_participants st))
                             ({[j]} ∪ scan_processed st))
              else lookAhead sortedMessages timeWindowSeconds startMsg js' st
        end
  end.

(** The values of [j]: [i + 1 <= j < length] and [j < i + 20]. *)
Definition lookRange (i n : nat) : list nat :=
  seq (i + 1) (Nat.min n (i + 20) - (i + 1)).

Record LoopState := mkLoop {
  threads : list ConversationThread;
  processedIndices : gset nat;
  threadCounter : nat
}.

Definition markProcessed (sortedMessages : list Indexed)
    (processed : gset nat) (tm : Indexed) : gset nat :=
  match indexOf sortedMessages tm with
  | Some k => {[k]} ∪ processed
  | None => processed
  end.

Definition timestampOf (o : option Indexed) (startMsg : Indexed) : Z :=
  msg_timestamp (msg (default startMsg o)).

(** Body of the outer [for (i = 0; i < sortedMessages.length; i++)] loop. *)
Definition seedStep (sortedMessages : list Indexed) (timeWindowSeconds : Q)
    (st : LoopState) (i : nat) : LoopState :=
  if bool_decide (i ∈ processedIndices st) then st
  else
    match sortedMessages !! i with
    | None => st
    | Some startMsg =>
        let scan :=
          lookAhead sortedMessages timeWindowSeconds startMsg
            (lookRange i (length sortedMessages))
            (mkScan [startMsg] [msg_author (msg startMsg)] (processedIndices st)) in
        if (3 <=? length (threadMessages scan))%nat
        then
          mkLoop
            (threads st ++
              [ {| threadId := "thread-" +:+ pretty (threadCounter st);
                   participants := scan_participants scan;
                   messageCount := length (threadMessages scan);
                   startTime := timestampOf (head (threadMessages scan)) startMsg;
                   endTime := timestampOf (last (threadMessages scan)) startMsg;
                   thread_messages := (fun tm => msg_id (msg tm)) <$> threadMessages scan |} ])
            (foldl (markProcessed sortedMessages) (scan_processed scan) (threadMessages scan))
            (threadCounter st + 1)
        else mkLoop (threads st) (scan_processed scan) (threadCounter st)
    end.

Definition sortedMessagesOf (messages : list ChatMessage) : list Indexed :=
  js_sort byIndexedTimestamp (imap (fun idx m => mkIndexed m idx) messages).

Definition initLoop : LoopState := mkLoop [] ∅ 0.

(** State at the head of iteration [i] of the outer loop. *)
Definition loopAt (messages : list ChatMessage) (timeWindowSeconds : Q) (i : nat) : LoopState :=
  let sortedMessages := sortedMessagesOf messages in
  foldl (seedStep sortedMessages timeWindowSeconds) initLoop (seq 0 i).

Definition detectThreads (messages : list ChatMessage) (timeWindowSeconds : Q)
    : list ConversationThread :=
  if (length messages <? 3)%nat then []
  else threads (loopAt messages timeWindowSeconds (length (sortedMessagesOf messages))).

Record Metrics := mkMetrics {
  totalMessages : nat;
  messagesPerHour : Q;
  met_questionsAnswered : Q;
  avgResponseTime : Q;
  conversationCount : nat
}.

Record CommunityMember := mkMember {
  cm_author : string;
  cm_profileImageUrl : string;
  engagementScore : Z;
  metrics : Metrics;
  cm_badges : option (list string)
}.

(** [Math.min(...xs)] and [Math.max(...xs)] on a non-empty array. *)
Definition Math_min (xs : list Z) : Z := foldr Z.min (default 0 (head xs)) xs.
Definition Math_max (xs : list Z) : Z := foldr Z.max (default 0 (head xs)) xs.

Definition calculateStreamDuration (messages : list ChatMessage) : Q :=
  if (length messages <? 2)%nat then 0
  else
    let timestamps := msg_timestamp <$> messages in
    let minTime := Math_min timestamps in
    let maxTime := Math_max timestamps in
    inject_Z (maxTime - minTime) / inject_Z (1000 * 60).

(** The gap loop [for (i = 1; i < authorMessages.length; i++)], carrying
    [(totalGap, gapCount)]. *)
Fixpoint gapLoop (authorMessages : list ChatMessage) (acc : Q * nat) : Q * nat :=
  match authorMessages with
  | prev :: ((cur :: _) as rest) =>
      let timeDiff := (msg_timestamp cur - msg_timestamp prev) # 1000 in
      gapLoop rest
        (if Qle_bool timeDiff 300 then ((fst acc + timeDiff)%Q, S (snd acc)) else acc)
  | _ => acc
  end.

Definition avgGapOf (authorMessages : list ChatMessage) : Q :=
  if (1 <? length authorMessages)%nat then
    let '(totalGap, gapCount) := gapLoop authorMessages (0%Q, 0%nat) in
    (if (0 <? gapCount)%nat then totalGap / Q_of_nat gapCount else 120)%Q
  else 120.

Definition threadsOf (author : string) (threads : list ConversationThread)
    : list ConversationThread :=
  filter (fun t => author ∈ participants t) threads.

Definition calculateEngagementScore (author : string) (messages : list ChatMessage)
    (threads : list ConversationThread) (answeredQuestions : Q)
    (streamDurationMinutes : Q) : Z :=
  let authorMessages := filter (fun m => msg_author m = author) messages in
  let messageCount := length authorMessages in
  if (messageCount =? 0)%nat then 0
  else
    let messagesPerHour :=
      (if Qgt_bool streamDurationMinutes 0
       then Q_of_nat messageCount / streamDurationMinutes * 60 else 0)%Q in
    let avgResponseTime := avgGapOf authorMessages in
    let conversationCount := length (threadsOf author threads) in
    let frequencyScore := Qmin 100 (messagesPerHour / 10 * 100) in
    let answeringScore :=
      (if Qgt_bool answeredQuestions 0 then Qmin 100 (answeredQuestions * 10) else 0)%Q in
    let speedScore := Qmax 0 (100 - avgResponseTime / 120 * 100) in
    let conversationScore := Qmin 100 (Q_of_nat conversationCount / 5 * 100) in
    let totalScore :=
      (frequencyScore * (3 # 10) + answeringScore * (25 # 100)
       + speedScore * (25 # 100) + conversationScore * (2 # 10))%Q in
    Math_round (Qmin 100 totalScore).

(** The maps filled by the first [forEach] of
    [identifyActiveCommunityMembers]; [identifyHost] builds its
    [authorCounts] like [authorMessageCount]. *)
Definition countAuthors (messages : list ChatMessage) : list (string * nat) :=
  foldl (fun authorMessageCount m =>
           map_set (msg_author m)
             (default 0%nat (map_get (msg_author m) authorMessageCount) + 1)%nat
             authorMessageCount)
        [] messages.

Definition collectBadges (messages : list ChatMessage) : list (string * list string) :=
  foldl (fun authorBadges m =>
           match msg_badges m with
           | Some bs => if (0 <? length bs)%nat
                        then map_set (msg_author m) bs authorBadges else authorBadges
           | None => authorBadges
           end)
        [] messages.

Definition js_or_zero (o : option Q) : Q :=
  match o with
  | Some q => if Qeq_bool q 0 then 0 else q
  | None => 0
  end.

Definition memberOf (messages : list ChatMessage) (threads : list ConversationThread)
    (questionAnswerers : gmap string Q) (streamDurationMinutes : Q)
    (entry : string * nat) : CommunityMember :=
  let '(author, totalMessages) := entry in
  let messagesPerHour :=
    (if Qgt_bool streamDurationMinutes 0
     then Q_of_nat totalMessages / streamDurationMinutes * 60 else 0)%Q in
  let questionsAnswered := js_or_zero (questionAnswerers !! author) in
  let authorMessages := filter (fun m => msg_author m = author) messages in
  let avgResponseTime := avgGapOf authorMessages in
  let conversationCount := length (threadsOf author threads) in
  let engagementScore :=
    calculateEngagementScore author messages threads questionsAnswered
      streamDurationMinutes in
  {| cm_author := author;
     cm_profileImageUrl := default "" (map_get author (buildProfileImageMap messages));
     engagementScore := engagementScore;
     metrics := mkMetrics totalMessages messagesPerHour questionsAnswered
                          avgResponseTime conversationCount;
     cm_badges := map_get author (collectBadges messages) |}.

Definition byEngagementDesc (a b : CommunityMember) : Z :=
  engagementScore b - engagementScore a.

Definition identifyActiveCommunityMembers (messages : list ChatMessage)
    (threads : list ConversationThread) (questionAnswerers : gmap string Q)
    : list CommunityMember :=
  let streamDurationMinutes := calculateStreamDuration messages in
  let authorMessageCount := countAuthors messages in
  let members :=
    foldl (fun members entry =>
             map_set (fst entry)
               (memberOf messages threads questionAnswerers streamDurationMinutes entry)
               members)
          [] authorMessageCount in
  let sorted := js_sort byEngagementDesc (snd <$> members) in
  slice 0 20 sorted.

(** ** hostDetection.ts *)

(** [msg.badges?.includes(badge)]. *)
Definition hasBadge (badge : string) (m : ChatMessage) : bool :=
  match msg_badges m with
  | Some bs => bool_decide (badge ∈ bs)
  | None => false
  end.

Definition authorCount (author : string) (messages : list ChatMessage) : nat :=
  length (filter (fun m => msg_author m = author) messages).

(** The test of the moderator loop:
    [modCount > Math.max(5, messages.length / 100)]. *)
Definition isActiveModerator (messages : list ChatMessage) (m : ChatMessage) : bool :=
  hasBadge "moderator" m &&
  let modCount := authorCount (msg_author m) messages in
  Qgt_bool (Q_of_nat modCount) (Qmax 5 (Q_of_nat (length messages) / 100)).

(** The [forEach] that looks for the most active author, carrying
    [(topAuthor, maxCount)]; [mostActiveStep] is its callback. *)
Definition mostActiveStep (acc : string * nat) (entry : string * nat) : string * nat :=
  let '(topAuthor, maxCount) := acc in
  let '(author, count) := entry in
  if (maxCount <? count)%nat then (author, count) else (topAuthor, maxCount).

Definition mostActive (authorCounts : list (string * nat)) : string * nat :=
  foldl mostActiveStep ("", 0%nat) authorCounts.

(** Truthiness of an optional string argument: defined and non-empty. *)
Definition truthy (o : option string) : bool :=
  match o with
  | Some name => negb (bool_decide (name = ""))
  | None => false
  end.

Definition identifyHost (messages : list ChatMessage) (manualHostName : option string)
    : option string :=
  if truthy manualHostName then manualHostName
  else
    match List.find (hasBadge "owner") messages with
    | Some m => Some (msg_author m)
    | None =>
        match List.find (isActiveModerator messages) messages with
        | Some m => Some (msg_author m)
        | None =>
            let authorCounts := countAuthors messages in
            if (length authorCounts =? 0)%nat then None
            else
              let '(topAuthor, maxCount) := mostActive authorCounts in
              if Qgt_bool (Q_of_nat maxCount) (Q_of_nat (length messages) * (5 # 100))
              then Some topAuthor else None
        end
    end.

(** [identifyHost(messages, hostIdentifier) || 'Unknown Host']. *)
Definition hostNameOf (messages : list ChatMessage) (hostIdentifier : option string)
    : string :=
  let found := identifyHost messages hostIdentifier in
  if truthy found then default "" found else "Unknown Host".

Definition flagHostMessages (messages : list ChatMessage) (hostName : string)
    : list ChatMessage :=
  (fun m =>
     mkChatMessage (msg_id m) (msg_author m) (msg_message m) (msg_timestamp m)
       (msg_profileImageUrl m) (msg_badges m)
       (Some (bool_decide (msg_author m = hostName))))
  <$> messages.

(** ** topicAnalysis.ts *)

Record Keyword := mkKeyword {
  keyword : string;
  frequency : nat
}.

Inductive Trend := rising | stable | declining.

Record KeywordTrend := mkTrend {
  kt_keyword : string;
  kt_frequency : nat;
  trend : Trend
}.

Definition countInPeriod (kw : string) (period : list ChatMessage) : nat :=
  length (filter (fun m => includes (toLowerCase (msg_message m)) (toLowerCase kw)) period).

Definition trendOf (freq1 freq2 freq3 : nat) : Trend :=
  let rise := Z.of_nat freq3 - Z.of_nat freq1 in
  if Qgt_bool (inject_Z rise) (Q_of_nat (Nat.max freq1 freq2) * (3 # 10)) then rising
  else if Qgt_bool (- Q_of_nat (Nat.max freq1 freq2) * (3 # 10)) (inject_Z rise)
       then declining
       else stable.

Definition byFrequencyDesc (a b : KeywordTrend) : Z :=
  Z.of_nat (kt_frequency b) - Z.of_nat (kt_frequency a).

(** [Math.ceil(n / 3)] on a length. *)
Definition ceilThird (n : nat) : nat := Z.to_nat (Qceiling (Q_of_nat n / 3)).

(** [calculateKeywordTrends] from the point where [sortedMessages] is
    sorted. *)
Definition trendsOfSorted (sortedMessages : list ChatMessage) (keywords : list Keyword)
    : list KeywordTrend :=
  let thirdSize := ceilThird (length sortedMessages) in
  let period1 := slice 0 thirdSize sortedMessages in
  let period2 := slice thirdSize (thirdSize * 2) sortedMessages in
  let period3 := slice_from (thirdSize * 2) sortedMessages in
  let trends :=
    (fun k =>
       let freq1 := countInPeriod (keyword k) period1 in
       let freq2 := countInPeriod (keyword k) period2 in
       let freq3 := countInPeriod (keyword k) period3 in
       mkTrend (keyword k) (freq1 + freq2 + freq3) (trendOf freq1 freq2 freq3))
    <$> slice 0 20 keywords in
  js_sort byFrequencyDesc trends.

Definition calculateKeywordTrends (messages : list ChatMessage) (keywords : list Keyword)
    : list KeywordTrend :=
  if (length messages <? 2)%nat then []
  else
    let sortedMessages := js_sort byTimestamp messages in
    trendsOfSorted sortedMessages keywords.

(** *** Keyword extraction and clustering *)

Definition STOPWORDS : list string :=
  ["the"; "a"; "an"; "and"; "or"; "but"; "in"; "on"; "at"; "to"; "for"; "of"; "with"; "by";
   "from"; "as"; "is"; "was"; "are"; "were"; "be"; "been"; "being"; "have"; "has"; "had";
   "do"; "does"; "did"; "will"; "would"; "could"; "should"; "may"; "might"; "must"; "can";
   "this"; "that"; "these"; "those"; "i"; "you"; "he"; "she"; "it"; "we"; "they"; "me";
   "him"; "her"; "us"; "them"; "my"; "your"; "his"; "her"; "its"; "our"; "their"; "what";
   "which"; "who"; "whom"; "why"; "how"; "when"; "where"; "if"; "so"; "no"; "not"; "just";
   "up"; "down"; "out"; "in"; "it"; "ok"; "lol"; "haha"; "hehe"; "yeah"; "yes"; "no"].

Definition isStopword (word : string) : bool := bool_decide (word ∈ STOPWORDS).

(** [\w]: letters, digits and underscore. *)
Definition is_word_char (c : ascii) : bool :=
  let n := nat_of_ascii c in
  (((97 <=? n) && (n <=? 122)) || ((65 <=? n) && (n <=? 90))
   || ((48 <=? n) && (n <=? 57)) || (n =? 95))%nat.

(** [.replace(/[^\w\s]/g, '')]. *)
Fixpoint stripPunctuation (s : string) : string :=
  match s with
  | EmptyString => EmptyString
  | String c s' =>
      if is_word_char c || is_space c
      then String c (stripPunctuation s') else stripPunctuation s'
  end.

(** [.split(/\s+/)] followed by the removal of empty pieces: the maximal
    runs of non-space characters; [cur] is the run being read. *)
Fixpoint splitWords (s : string) (cur : string) : list string :=
  match s with
  | EmptyString => if bool_decide (cur = "") then [] else [cur]
  | String c s' =>
      if is_space c
      then (if bool_decide (cur = "") then splitWords s' ""
            else cur :: splitWords s' "")
      else splitWords s' (cur +:+ String c EmptyString)
  end.

Definition wordsOf (message : string) : list string :=
  filter (fun word => isStopword word = false)
    (splitWords (stripPunctuation (toLowerCase message)) "").

Fixpoint bigrams (words : list string) : list (string * string) :=
  match words with
  | a :: ((b :: _) as rest) => (a, b) :: bigrams rest
  | _ => []
  end.

Fixpoint trigrams (words : list string) : list (string * string * string) :=
  match words with
  | a :: ((b :: c :: _) as rest) => (a, b, c) :: trigrams rest
  | _ => []
  end.

(** [keywordMap.set(k, (keywordMap.get(k) || 0) + 1)]. *)
Definition bump (k : string) (keywordMap : list (string * nat)) : list (string * nat) :=
  map_set k (default 0%nat (map_get k keywordMap) + 1)%nat keywordMap.

Definition countKeywords (keywordMap : list (string * nat)) (m : ChatMessage)
    : list (string * nat) :=
  let words := wordsOf (msg_message m) in
  let keywordMap :=
    foldl (fun km word => if (2 <? String.length word)%nat then bump word km else km)
          keywordMap words in
  let keywordMap :=
    foldl (fun km '(a, b) =>
             if negb (isStopword a) && negb (isStopword b)
             then bump (a +:+ " " +:+ b) km else km)
          keywordMap (bigrams words) in
  foldl (fun km '(a, b, c) =>
           if negb (isStopword a) && negb (isStopword b) && negb (isStopword c)
           then bump (a +:+ " " +:+ b +:+ " " +:+ c) km else km)
        keywordMap (trigrams words).

Definition byKeywordFrequencyDesc (a b : Keyword) : Z :=
  Z.of_nat (frequency b) - Z.of_nat (frequency a).

Definition extractKeywords (messages : list ChatMessage) : list Keyword :=
  let keywordMap := foldl countKeywords [] messages in
  let minFrequency :=
    Nat.max 2 (Z.to_nat (Qceiling (Q_of_nat (length messages) / 100))) in
  let keywords :=
    js_sort byKeywordFrequencyDesc
      ((fun e => mkKeyword e.1 e.2)
       <$> filter (fun e => (minFrequency <= e.2)%nat) keywordMap) in
  slice 0 50 keywords.

(** [timeRange] holds the two instants whose ISO strings the code stores. *)
Record TopicCluster := mkCluster {
  topic : string;
  tc_keywords : list string;
  tc_messageCount : nat;
  topContributors : list string;
  timeRange : Z * Z
}.

Definition byClusterSizeDesc (a b : TopicCluster) : Z :=
  Z.of_nat (tc_messageCount b) - Z.of_nat (tc_messageCount a).

Definition clusterByTopic (messages : list ChatMessage) (keywords : list Keyword)
    : list TopicCluster :=
  let topKeywords := keyword <$> slice 0 15 keywords in
  let clusters :=
    foldl (fun clusters kw =>
             let relatedMessages :=
               filter (fun m => includes (toLowerCase (msg_message m)) (toLowerCase kw))
                      messages in
             if (2 <=? length relatedMessages)%nat then
               let contributors :=
                 foldl (fun s a => set_add a s) [] (msg_author <$> relatedMessages) in
               let timestamps := msg_timestamp <$> relatedMessages in
               clusters ++
                 [ {| topic := kw;
                      tc_keywords := [kw];
                      tc_messageCount := length relatedMessages;
                      topContributors := slice 0 5 contributors;
                      timeRange := (Math_min timestamps, Math_max timestamps) |} ]
             else clusters)
          [] topKeywords in
  js_sort byClusterSizeDesc clusters.

(** ** engagementAnalysis.ts *)

Record EngagementAnalysis := mkAnalysis {
  ea_hostQuestions : list HostQuestion;
  ea_questionAnswerers : list QuestionAnswerer;
  ea_topicClusters : list TopicCluster;
  ea_trendingKeywords : list KeywordTrend;
  ea_activeCommunityMembers : list CommunityMember;
  ea_conversationThreads : list ConversationThread;
  ea_totalQuestions : nat;
  ea_answeredQuestions : nat;
  ea_averageResponseTime : Z;
  ea_topTopics : list string;
  ea_hostName : string
}.

Definition createEmptyAnalysis : EngagementAnalysis :=
  mkAnalysis [] [] [] [] [] [] 0 0 0 [] "Unknown Host".

Definition calculateAverageResponseTime (hostQuestions : list HostQuestion) : Z :=
  if (length hostQuestions =? 0)%nat then 0
  else
    let '(totalResponseTime, answerCount) :=
      foldl (fun acc question =>
               foldl (fun '(total, count) answer =>
                        ((total + responseTimeSeconds answer)%Q, S count))
                     acc (answers question))
            (0%Q, 0%nat) hostQuestions in
    if (0 <? answerCount)%nat
    then Math_round (totalResponseTime / Q_of_nat answerCount) else 0.

Definition buildAnswerersMap (questionAnswerers : list QuestionAnswerer)
    : gmap string Q :=
  foldl (fun answerersMap qa =>
           <[qa_author qa := Q_of_nat (questionsAnswered qa)]> answerersMap)
        ∅ questionAnswerers.

(** Step 6 and the returned object. *)
Definition assembleAnalysis (hostQuestions : list HostQuestion)
    (questionAnswerers : list QuestionAnswerer) (topicClusters : list TopicCluster)
    (trendingKeywords : list KeywordTrend)
    (activeCommunityMembers : list CommunityMember)
    (conversationThreads : list ConversationThread) (hostName : string)
    : EngagementAnalysis :=
  {| ea_hostQuestions := hostQuestions;
     ea_questionAnswerers := questionAnswerers;
     ea_topicClusters := topicClusters;
     ea_trendingKeywords := trendingKeywords;
     ea_activeCommunityMembers := activeCommunityMembers;
     ea_conversationThreads := conversationThreads;
     ea_totalQuestions := length hostQuestions;
     ea_answeredQuestions := length (filter (fun q => wasAnswered q = true) hostQuestions);
     ea_averageResponseTime := calculateAverageResponseTime hostQuestions;
     ea_topTopics := topic <$> slice 0 5 topicClusters;
     ea_hostName := hostName |}.

(** The value computed by [analyzeEngagement]; the argument [useAI] is not
    used by the code. *)
Definition analyzeEngagement (messages : list ChatMessage)
    (hostIdentifier : option string) (useAI : option bool) : EngagementAnalysis :=
  if (length messages =? 0)%nat then createEmptyAnalysis
  else
    let hostName := hostNameOf messages hostIdentifier in
    let messagesWithHost := flagHostMessages messages hostName in
    let hostQuestions := extractHostQuestions messagesWithHost hostName defaultWindow in
    let questionAnswerers := rankQuestionAnswerers hostQuestions messagesWithHost in
    let answerersMap := buildAnswerersMap questionAnswerers in
    let keywords := extractKeywords messagesWithHost in
    let topicClusters := clusterByTopic messagesWithHost keywords in
    let trendingKeywords := calculateKeywordTrends messagesWithHost keywords in
    let conversationThreads := detectThreads messagesWithHost defaultWindow in
    let activeCommunityMembers :=
      identifyActiveCommunityMembers messagesWithHost conversationThreads answerersMap in
    assembleAnalysis hostQuestions questionAnswerers topicClusters trendingKeywords
      activeCommunityMembers conversationThreads hostName.

(** ** The arrays of messages in memory

    The functions above give the values the code computes.  The code also
    allocates arrays of messages ([filter], [map], spread) and sorts some of
    them in place.  The store holds the arrays of messages, one per
    location; the store-passing versions below put an array in the store
    where the code sorts it in place or hands it to other functions, and
    read the arrays they only traverse.  No statement of the code assigns
    to a field of a message, so messages are values. *)

Definition Store := list (list ChatMessage).
Definition M (A : Type) : Type := Store -> A * Store.

#[export] Instance M_ret : MRet M := fun A (x : A) (s : Store) => (x, s).
#[export] Instance M_bind : MBind M :=
  fun A B (f : A -> M B) (m : M A) (s : Store) => let '(x, s') := m s in f x s'.

(** Reading an array for a traversal. *)
Definition readArr (r : nat) : M (list ChatMessage) :=
  fun s => (default [] (s !! r), s).

(** A new array: the result of [filter], [map] or a spread. *)
Definition allocArr (l : list ChatMessage) : M nat :=
  fun s => (length s, s ++ [l]).

(** [array.sort(cmp)]: the array at [r] is replaced by its sorted self. *)
Definition sortArr (cmp : ChatMessage -> ChatMessage -> Z) (r : nat) : M unit :=
  fun s => (tt, alter (js_sort cmp) r s).

Fixpoint foldM {A B} (f : A -> B -> M A) (a : A) (l : list B) : M A :=
  match l with
  | [] => mret a
  | x :: l' => a' ← f a x; foldM f a' l'
  end.

Definition findAnswersM (question : HostQuestion) (messages : nat)
    (hostName : string) (timeWindowSeconds : Q) : M (list Answer) :=
  msgs ← readArr messages;
  candidateMessages ← allocArr (filter (isCandidate question timeWindowSeconds) msgs);
  _ ← sortArr byTimestamp candidateMessages;
  sorted ← readArr candidateMessages;
  let topAnswers := slice 0 10 sorted in
  mret (toAnswer (hq_timestamp question) <$> topAnswers).

Definition extractHostQuestionsM (messages : nat) (hostName : string)
    (timeWindowSeconds : Q) : M (list HostQuestion) :=
  msgs ← readArr messages;
  let hostMessages := filter (fun msg => msg_author msg = hostName) msgs in
  foldM (fun hostQuestions msg =>
    if detectQuestions (msg_message msg) then
      answers ←
        findAnswersM
          {| hq_messageId := msg_id msg; hq_author := msg_author msg;
             hq_question := msg_message msg; hq_timestamp := msg_timestamp msg;
             answers := []; wasAnswered := false |}
          messages hostName timeWindowSeconds;
      mret (hostQuestions ++
        [ {| hq_messageId := msg_id msg; hq_author := msg_author msg;
             hq_question := msg_message msg; hq_timestamp := msg_timestamp msg;
             answers := answers;
             wasAnswered := (0 <? length answers)%nat |} ])
    else mret hostQuestions) [] hostMessages.

Definition calculateKeywordTrendsM (messages : nat) (keywords : list Keyword)
    : M (list KeywordTrend) :=
  msgs ← readArr messages;
  if (length msgs <? 2)%nat then mret []
  else
    sortedMessages ← allocArr msgs;
    _ ← sortArr byTimestamp sortedMessages;
    sorted ← readArr sortedMessages;
    mret (trendsOfSorted sorted keywords).

(** [analyzeEngagement] on the array at location [messages]. *)
Definition analyzeEngagementM (messages : nat) (hostIdentifier : option string)
    (useAI : option bool) : M EngagementAnalysis :=
  msgs ← readArr messages;
  if (length msgs =? 0)%nat then mret createEmptyAnalysis
  else
    let hostName := hostNameOf msgs hostIdentifier in
    messagesWithHost ← allocArr (flagHostMessages msgs hostName);
    hostQuestions ← extractHostQuestionsM messagesWithHost hostName defaultWindow;
    flagged ← readArr messagesWithHost;
    let questionAnswerers := rankQuestionAnswerers hostQuestions flagged in
    let answerersMap := buildAnswerersMap questionAnswerers in
    let keywords := extractKeywords flagged in
    let topicClusters := clusterByTopic flagged keywords in
    trendingKeywords ← calculateKeywordTrendsM messagesWithHost keywords;
    flagged' ← readArr messagesWithHost;
    let conversationThreads := detectThreads flagged' defaultWindow in
    let activeCommunityMembers :=
      identifyActiveCommunityMembers flagged' conversationThreads answerersMap in
    mret (assembleAnalysis hostQuestions questionAnswerers topicClusters trendingKeywords
            activeCommunityMembers conversationThreads hostName).

(** ** Calls that spread an array

    [Math.min(...xs)] passes the elements of [xs] as the arguments of one
    call, and a call with more arguments than the engine accepts throws a
    RangeError.  The definitions above give the value computed when no
    such call throws.  The versions below tell the two outcomes apart:
    [argLimit] is the largest number of arguments the engine accepts, and
    [None] stands for the exception. *)
Module Throwing.

Definition spread {A} (argLimit : nat) (xs : list A) : option (list A) :=
  if (length xs <=? argLimit)%nat then Some xs else None.

Definition calculateStreamDuration (argLimit : nat) (messages : list ChatMessage)
    : option Q :=
  if (length messages <? 2)%nat then Some 0%Q
  else
    let timestamps : list Z := msg_timestamp <$> messages in
    minTime ← Math_min <$> spread argLimit timestamps;
    maxTime ← Math_max <$> spread argLimit timestamps;
    Some (inject_Z (maxTime - minTime) / inject_Z (1000 * 60))%Q.

Definition identifyActiveCommunityMembers (argLimit : nat)
    (messages : list ChatMessage) (threads : list ConversationThread)
    (questionAnswerers : gmap string Q) : option (list CommunityMember) :=
  streamDurationMinutes ← calculateStreamDuration argLimit messages;
  let authorMessageCount := countAuthors messages in
  let members :=
    foldl (fun members entry =>
             map_set (fst entry)
               (memberOf messages threads questionAnswerers streamDurationMinutes entry)
               members)
          [] authorMessageCount in
  let sorted := js_sort byEngagementDesc (snd <$> members) in
  Some (slice 0 20 sorted).

End Throwing.

(** * Example inputs *)

Definition chatAt (i : string) (a : string) (seconds : Z) : ChatMessage :=
  mkChatMessage i a "hi" (seconds * 1000) "" None None.

Definition scenarioE : list ChatMessage :=
  [ chatAt "c1" "Carl" 0; chatAt "c2" "Carl" 10; chatAt "c3" "Carl" 20 ].

Definition shortGroup : list ChatMessage :=
  [ chatAt "s0" "Ann" 0; chatAt "s1" "Ben" 100; chatAt "s2" "Cy" 150; chatAt "s3" "Di" 200 ].

Definition scenarioC : list ChatMessage :=
  [ mkChatMessage "m1" "Host" "What time does the stream end?" 1000000 "" None None;
    mkChatMessage "m2" "Bob" "9pm!" 1030000 "" None None ].

Definition eagerBob : list ChatMessage :=
  [ mkChatMessage "m1" "Host" "What time does the stream end?" 0 "" None None;
    mkChatMessage "m2" "Bob" "9pm!" 1000 "" None None;
    mkChatMessage "m3" "Bob" "or maybe 10pm" 2000 "" None None ].

Definition scenarioD : list ChatMessage :=
  [ mkChatMessage "e3" "Ann" "Nice beat, great stream!" 3000 "" None None;
    mkChatMessage "e1" "Ann" "Great Stream" 1000 "" None None;
    mkChatMessage "e5" "Cy" "what a beat" 5000 "" None None;
    mkChatMessage "e2" "Ben" "great stream today?" 2000 "" (Some ["owner"]) None;
    mkChatMessage "e4" "Ben" "beat drop" 4000 "" None None ].

Definition tied : list ChatMessage := [ chatAt "t1" "Ann" 0; chatAt "t2" "Ben" 5 ].


(** Two bursts of three messages, far apart. *)
Definition twoBursts : list ChatMessage :=
  [ chatAt "b0" "Ann" 0; chatAt "b1" "Ben" 10; chatAt "b2" "Ann" 20;
    chatAt "b3" "Cy" 500; chatAt "b4" "Di" 510; chatAt "b5" "Cy" 520 ].

(** Scenario B of the specification: one owner-badged message among 20. *)
Definition ownerAmong : list ChatMessage :=
  ((fun n => chatAt ("o" +:+ pretty n) "Bob" (Z.of_nat n)) <$> seq 0 7)
  ++ mkChatMessage "o7" "Alice" "welcome" 7000 "" (Some ["owner"]) None
  :: ((fun n => chatAt ("o" +:+ pretty n) "Bob" (Z.of_nat n)) <$> seq 8 12).

(** Six messages of a moderator and one of somebody else. *)
Definition moderated : list ChatMessage :=
  chatAt "d0" "Zed" 0
  :: mkChatMessage "d1" "Mo" "hello" 1000 "" (Some ["member"; "moderator"]) None
  :: ((fun n => chatAt ("d" +:+ pretty n) "Mo" (Z.of_nat n)) <$> seq 2 5).

(** * Vocabulary of the properties *)

(** [takeWhile p l]: the longest prefix of [l] on which [p] holds. *)
Fixpoint takeWhile {A} (p : A -> bool) (l : list A) : list A :=
  match l with
  | [] => []
  | x :: l' => if p x then x :: takeWhile p l' else []
  end.

(** [timeDiff <= timeWindowSeconds]. *)
Definition inWindow (timeWindowSeconds : Q) (startMsg currentMsg : Indexed) : bool :=
  Qle_bool (timeDiffOf startMsg currentMsg) timeWindowSeconds.

(** The unprocessed messages, with their positions, among the positions [js]. *)
Definition candidates (sortedMessages : list Indexed) (processed : gset nat)
    (js : list nat) : list (nat * Indexed) :=
  omap (fun j => if bool_decide (j ∈ processed) then None
                 else pair j <$> sortedMessages !! j) js.


(** The moderator test in whole numbers. *)
Definition activeModerator (messages : list ChatMessage) (m : ChatMessage) : Prop :=
  hasBadge "moderator" m = true /\
  (5 < authorCount (msg_author m) messages)%nat /\
  (length messages < 100 * authorCount (msg_author m) messages)%nat.

(** [a] is the author of the first message whose author has the highest
    message count. *)
Definition firstMostActive (messages : list ChatMessage) (a : string) : Prop :=
  exists pre x post,
    messages = pre ++ x :: post /\
    msg_author x = a /\
    Forall (fun y => (authorCount (msg_author y) messages
                      < authorCount a messages)%nat) pre /\
    Forall (fun y => (authorCount (msg_author y) messages
                      <= authorCount a messages)%nat) messages.

(** Message [mid] sits at position [k] of the chronological order. *)
Definition memberAt (sortedMessages : list Indexed) (mid : string) (k : nat) : Prop :=
  exists m, sortedMessages !! k = Some m /\ msg_id (msg m) = mid.

Definition threadOk (t : ConversationThread) : Prop :=
  (3 <= messageCount t)%nat /\
  messageCount t = length (thread_messages t) /\
  (1 <= length (participants t))%nat.

(** No message id occurs in two threads at different places of the list. *)
Definition disjointThreads (l : list ConversationThread) : Prop :=
  forall a b ta tb mid,
    a ≠ b -> l !! a = Some ta -> l !! b = Some tb ->
    mid ∈ thread_messages ta -> mid ∉ thread_messages tb.

(** Invariant of the outer loop at the head of iteration [i]: the processed
    positions lie below a frontier [F] and fill it from [i] on; the members
    of the threads emitted so far lie below [max i F]; the threads are well
    formed and, when the message ids are distinct, disjoint. *)
Definition loopInv (sortedMessages : list Indexed) (i : nat) (st : LoopState) : Prop :=
  exists F,
    (forall p, p ∈ processedIndices st -> (p < F)%nat) /\
    (forall k, (i <= k < F)%nat -> k ∈ processedIndices st) /\
    (forall t mid, t ∈ threads st -> mid ∈ thread_messages t ->
       exists k, memberAt sortedMessages mid k /\ (k < Nat.max i F)%nat) /\
    Forall threadOk (threads st) /\
    (NoDup ((fun tm => msg_id (msg tm)) <$> sortedMessages) ->
     disjointThreads (threads st)).

Definition answerOk (question : HostQuestion) (timeWindowSeconds : Q) (a : Answer) : Prop :=
  (0 < responseTimeSeconds a)%Q /\
  (responseTimeSeconds a <= timeWindowSeconds)%Q /\
  ans_author a ≠ hq_author question.

Definition questionOk (hostName : string) (w : Q) (q : HostQuestion) : Prop :=
  hq_author q = hostName /\
  Forall (answerOk q w) (answers q) /\
  StronglySorted (fun a b => ans_timestamp a <= ans_timestamp b) (answers q) /\
  (length (answers q) <= 10)%nat /\
  (wasAnswered q = true <-> (1 <= length (answers q))%nat).

Definition answersBy (author : string) (l : list Answer) : nat :=
  length (filter (fun a => ans_author a = author) l).

Definition allAnswers (hostQuestions : list HostQuestion) : list Answer :=
  concat (answers <$> hostQuestions).

(** What the statistics map holds once the answers [seen] are collected. *)
Definition statsInv (m : list (string * AnswererStats)) (seen : list Answer) : Prop :=
  NoDup m.*1 /\
  forall k, match map_get k m with
            | Some st => answersCount st = answersBy k seen
            | None => answersBy k seen = 0%nat
            end.

(** The classification as the specification words it. *)
Definition risingCond (count1 count2 count3 : nat) : Prop :=
  ((3 # 10) * Q_of_nat (Nat.max count1 count2)
   < inject_Z (Z.of_nat count3 - Z.of_nat count1))%Q.

Definition decliningCond (count1 count2 count3 : nat) : Prop :=
  (inject_Z (Z.of_nat count3 - Z.of_nat count1)
   < - ((3 # 10) * Q_of_nat (Nat.max count1 count2)))%Q.

Definition trendSpec (count1 count2 count3 : nat) (t : Trend) : Prop :=
  (t = rising <-> risingCond count1 count2 count3) /\
  (t = declining <-> decliningCond count1 count2 count3) /\
  (t = stable <-> ~ risingCond count1 count2 count3 /\
                  ~ decliningCond count1 count2 count3).

(** The trend of keyword [k] over the three periods; the count of a period
    is the number of its messages whose text contains the keyword, letter
    case aside. *)
Definition trendFor (period1 period2 period3 : list ChatMessage) (k : Keyword)
    (kt : KeywordTrend) : Prop :=
  let mentions (period : list ChatMessage) :=
    length (filter (fun m => includes (toLowerCase (msg_message m))
                               (toLowerCase (keyword k))) period) in
  let count1 := mentions period1 in
  let count2 := mentions period2 in
  let count3 := mentions period3 in
  kt_keyword kt = keyword k /\
  kt_frequency kt = (count1 + count2 + count3)%nat /\
  trendSpec count1 count2 count3 (trend kt).

(** The corpus in chronological order is [period1 ++ period2 ++ period3],
    the first two of size [third] = ceil(n/3); the result holds one trend
    for each of the first 20 keywords and is sorted by non-increasing
    frequency. *)
Definition trendsByPeriods (messages : list ChatMessage) (keywords : list Keyword)
    : Prop :=
  exists third period1 period2 period3,
    let n := length messages in
    (n <= 3 * third < n + 3)%nat /\
    length period1 = third /\
    length period2 = third /\
    length period3 = (n - 2 * third)%nat /\
    period1 ++ period2 ++ period3 ≡ₚ messages /\
    StronglySorted (fun a b => msg_timestamp a <= msg_timestamp b)
      (period1 ++ period2 ++ period3) /\
    (exists trends,
       Forall2 (trendFor period1 period2 period3) (take 20 keywords) trends /\
       calculateKeywordTrends messages keywords ≡ₚ trends) /\
    StronglySorted (fun a b => (kt_frequency b <= kt_frequency a)%nat)
      (calculateKeywordTrends messages keywords).

(** The group gathered for the seed at position [i]. *)
Definition groupOf (sortedMessages : list Indexed) (w : Q) (i : nat)
    (startMsg : Indexed) : list Indexed :=
  takeWhile (inWindow w startMsg) (take 19 (drop (S i) sortedMessages)).

(** The keys of the count map are in order of first appearance. *)
Definition keysOrdered (K : list string) (seen : list ChatMessage) : Prop :=
  forall K1 a K2, K = K1 ++ a :: K2 ->
    exists pre x post,
      seen = pre ++ x :: post /\ msg_author x = a /\
      Forall (fun y => msg_author y ∈ K1) pre.

Definition countsInv (m : list (string * nat)) (seen : list ChatMessage) : Prop :=
  NoDup m.*1 /\
  (forall a, match map_get a m with
             | Some c => c = authorCount a seen /\ (0 < c)%nat
             | None => authorCount a seen = 0%nat
             end) /\
  keysOrdered m.*1 seen.

(** Running [m] from a store where location [r] holds [msgs] returns [v]
    and leaves every array of that store as it was. *)
Definition returns {A} (m : M A) (r : nat) (msgs : list ChatMessage) (v : A) : Prop :=
  forall s : Store, s !! r = Some msgs ->
    exists s', m s = (v, s') /\ s `prefix_of` s'.


(** The response times of the answers of [author], added up in the order
    of the answers. *)
Definition sumTimes (author : string) (l : list Answer) : Q :=
  foldl Qplus 0%Q (responseTimeSeconds <$> filter (fun a => ans_author a = author) l).

(** What the statistics map holds beyond the counts. *)
Definition statsDetail (messages : list ChatMessage)
    (m : list (string * AnswererStats)) (seen : list Answer) : Prop :=
  (forall k, k ∈ m.*1 -> k ∈ ans_author <$> seen) /\
  (forall k st, map_get k m = Some st ->
     totalResponseTime st = sumTimes k seen /\
     respondentMessages st = authorCount k messages) /\
  sum_list ((fun e => answersCount e.2) <$> m) = length seen.

(** The keywords a message contributes: its words of three characters or
    more, then its pairs and its triples of consecutive words, joined by
    single spaces. *)
Definition phrases (words : list string) : list string :=
  filter (fun word => (2 < String.length word)%nat) words
  ++ ((fun '(a, b) => a +:+ " " +:+ b) <$> bigrams words)
  ++ ((fun '(a, b, c) => a +:+ " " +:+ b +:+ " " +:+ c) <$> trigrams words).

Definition allPhrases (messages : list ChatMessage) : list string :=
  concat ((fun m => phrases (wordsOf (msg_message m))) <$> messages).

Definition occurrences (k : string) (ks : list string) : nat :=
  length (filter (fun x => x = k) ks).

(** Thread [t] is the one emitted for some seed: its members are the seed
    and the group gathered after it. *)
Definition seedThread (sortedMessages : list Indexed) (w : Q)
    (t : ConversationThread) : Prop :=
  exists i startMsg,
    sortedMessages !! i = Some startMsg /\
    let G := groupOf sortedMessages w i startMsg in
    (3 <= length (startMsg :: G))%nat /\
    participants t =
      foldl (fun s m => set_add (msg_author (msg m)) s) [msg_author (msg startMsg)] G /\
    messageCount t = length (startMsg :: G) /\
    startTime t = timestampOf (head (startMsg :: G)) startMsg /\
    endTime t = timestampOf (last (startMsg :: G)) startMsg /\
    thread_messages t = (fun tm => msg_id (msg tm)) <$> startMsg :: G.

(** The threads emitted so far come from seeds and are numbered in the
    order of their emission. *)
Definition threadsInv (sortedMessages : list Indexed) (w : Q) (st : LoopState) : Prop :=
  Forall (seedThread sortedMessages w) (threads st) /\
  threadCounter st = length (threads st) /\
  threadId <$> threads st =
    (fun k => "thread-" +:+ pretty k) <$> seq 0 (length (threads st)).

(** A map over the messages, carried to the indexed messages of
    [detectThreads] and to the state of its inner loop. *)
Definition onIndexed (g : ChatMessage -> ChatMessage) (tm : Indexed) : Indexed :=
  mkIndexed (g (msg tm)) (originalIdx tm).

Definition onScan (g : ChatMessage -> ChatMessage) (st : ScanState) : ScanState :=
  mkScan (onIndexed g <$> threadMessages st) (scan_participants st) (scan_processed st).

(** Every character of [s] passes the test [p]. *)
Fixpoint allChars (p : ascii -> bool) (s : string) : bool :=
  match s with
  | EmptyString => true
  | String c s' => p c && allChars p s'
  end.

(** A character of a word of [wordsOf]: a digit, an underscore or a
    lower-case letter. *)
Definition is_keyword_char (c : ascii) : bool :=
  is_word_char c && negb (is_space c) && bool_decide (lower_ascii c = c).

(** A character of the ASCII range.  On text of such characters the
    8-bit strings and their operations are those of the code. *)
Definition is_ascii_char (c : ascii) : bool := (nat_of_ascii c <? 128)%nat.

(** * Properties *)

(** ** The stable sort *)

Section SortFacts.
Context {A : Type} (cmp : A -> A -> Z).

Lemma sort_insert_perm x l : sort_insert cmp x l ≡ₚ x :: l.
Proof.
  induction l as [|y l IH]; simpl; [done|].
  destruct (cmp x y <=? 0); [done|].
  rewrite IH. apply Permutation_swap.
Qed.

Lemma js_sort_perm l : js_sort cmp l ≡ₚ l.
Proof.
  induction l as [|x l IH]; simpl; [done|].
  rewrite sort_insert_perm. by rewrite IH.
Qed.

Lemma js_sort_length l : length (js_sort cmp l) = length l.
Proof. by rewrite js_sort_perm. Qed.

Lemma js_sort_Forall (P : A -> Prop) l : Forall P l -> Forall P (js_sort cmp l).
Proof. by rewrite js_sort_perm. Qed.

Lemma js_sort_elem_of x l : x ∈ js_sort cmp l <-> x ∈ l.
Proof. by rewrite js_sort_perm. Qed.

(** Comparators of the form [key a - key b] (or its reverse) order
    totally and transitively. *)
Hypothesis cmp_total : forall a b, cmp a b <= 0 \/ cmp b a <= 0.
Hypothesis cmp_trans : forall a b c, cmp a b <= 0 -> cmp b c <= 0 -> cmp a c <= 0.

Lemma sort_insert_sorted x l :
  StronglySorted (fun a b => cmp a b <= 0) l ->
  StronglySorted (fun a b => cmp a b <= 0) (sort_insert cmp x l).
Proof.
  induction 1 as [|y l Hl IH Hy]; simpl.
  - repeat constructor.
  - destruct (Z.leb_spec (cmp x y) 0) as [Hxy|Hxy].
    + constructor; [by constructor|].
      constructor; [done|].
      eapply Forall_impl; [exact Hy|]. intros z Hz. by eapply cmp_trans.
    + constructor; [done|].
      rewrite sort_insert_perm. constructor; [|done].
      destruct (cmp_total x y); [lia|done].
Qed.

Lemma js_sort_sorted l : StronglySorted (fun a b => cmp a b <= 0) (js_sort cmp l).
Proof.
  induction l as [|x l IH]; simpl; [constructor|].
  by apply sort_insert_sorted.
Qed.
End SortFacts.

(** Loops written as [foldl]: an invariant of the body is an invariant of
    the loop. *)
Lemma foldl_invariant {A S} (Inv : S -> Prop) (f : S -> A -> S) l s :
  Inv s -> (forall s x, x ∈ l -> Inv s -> Inv (f s x)) -> Inv (foldl f s l).
Proof.
  revert s. induction l as [|x l IH]; intros s Hs Hf; simpl; [done|].
  apply IH.
  - apply Hf; [left|done].
  - intros s' y Hy. apply Hf. by right.
Qed.

Lemma StronglySorted_take {A} (R : relation A) n l :
  StronglySorted R l -> StronglySorted R (take n l).
Proof.
  intros H. rewrite <- (take_drop n l) in H.
  by apply StronglySorted_app_1_l in H.
Qed.

Lemma StronglySorted_weaken {A} (R1 R2 : relation A) l :
  (forall a b, R1 a b -> R2 a b) -> StronglySorted R1 l -> StronglySorted R2 l.
Proof.
  intros HR. induction 1 as [|x l Hl IH Hx]; constructor; [done|].
  eapply Forall_impl; [exact Hx|]. auto.
Qed.

Lemma byTimestamp_sorted l :
  StronglySorted (fun a b => msg_timestamp a <= msg_timestamp b) (js_sort byTimestamp l).
Proof.
  eapply StronglySorted_weaken; [|apply js_sort_sorted].
  - unfold byTimestamp. intros a b. simpl. lia.
  - unfold byTimestamp. intros a b. lia.
  - unfold byTimestamp. intros a b c. lia.
Qed.

Lemma Qgt_bool_iff (x y : Q) : Qgt_bool x y = true <-> (y < x)%Q.
Proof.
  unfold Qgt_bool. rewrite negb_true_iff. split.
  - intros H. apply Qnot_le_lt. intros Hle. apply Qle_bool_iff in Hle. congruence.
  - intros H. destruct (Qle_bool x y) eqn:E; [|done].
    apply Qle_bool_iff in E. exfalso. by eapply Qlt_not_le.
Qed.

(** ** Question/answer extraction *)

Lemma isCandidate_answerOk question w m :
  isCandidate question w m = true ->
  answerOk question w (toAnswer (hq_timestamp question) m).
Proof.
  unfold isCandidate, answerOk. rewrite !andb_true_iff.
  intros [[[Hpos Hle] Hne] _]. simpl.
  apply Qgt_bool_iff in Hpos. apply Qle_bool_iff in Hle.
  apply bool_decide_eq_true in Hne. done.
Qed.

Lemma findAnswers_wellformed question messages hostName w :
  Forall (answerOk question w) (findAnswers question messages hostName w) /\
  StronglySorted (fun a b => ans_timestamp a <= ans_timestamp b)
    (findAnswers question messages hostName w) /\
  (length (findAnswers question messages hostName w) <= 10)%nat.
Proof.
  unfold findAnswers, slice. simpl. rewrite drop_0. split; [|split].
  - apply Forall_fmap, Forall_take, js_sort_Forall, Forall_forall.
    intros m Hm. apply list_elem_of_filter in Hm as [Hm _].
    apply isCandidate_answerOk. by apply Is_true_true.
  - apply (StronglySorted_fmap _ (fun a b => msg_timestamp a <= msg_timestamp b)).
    + intros a b Hab. exact Hab.
    + apply StronglySorted_take, byTimestamp_sorted.
  - rewrite length_fmap, length_take. lia.
Qed.

(** C6.  Every question produced by [extractHostQuestions] is the host's;
    each of its answers has a response time that is strictly positive and at
    most the time window, and an author other than the questioner; the
    answers are in chronological order, at most 10, and [wasAnswered] holds
    exactly when there is at least one answer. *)
Theorem extractHostQuestions_wellformed messages hostName timeWindowSeconds :
  Forall (questionOk hostName timeWindowSeconds)
    (extractHostQuestions messages hostName timeWindowSeconds).
Proof.
  unfold extractHostQuestions.
  apply (foldl_invariant (Forall (questionOk hostName timeWindowSeconds)));
    [constructor|].
  intros acc m Hm Hacc. apply list_elem_of_filter in Hm as [Hm _].
  destruct (detectQuestions (msg_message m)); [|done].
  apply Forall_app; split; [done|].
  constructor; [|constructor].
  set (q0 := mkHostQuestion _ _ _ _ [] false).
  destruct (findAnswers_wellformed q0 messages hostName timeWindowSeconds)
    as (Hok & Hsorted & Hlen).
  unfold questionOk; simpl. repeat split; try done.
  - intros H. by apply Nat.ltb_lt in H.
  - intros H. by apply Nat.ltb_lt.
Qed.

(** Scenario C of the specification: one question, answered after 30 s. *)
Example scenarioC_extract :
  extractHostQuestions scenarioC "Host" defaultWindow =
  [ mkHostQuestion "m1" "Host" "What time does the stream end?" 1000000
      [ mkAnswer "m2" "Bob" "9pm!" 1030000 (30000 # 1000) ] true ].
Proof. reflexivity. Qed.

(** ** Insertion-ordered maps *)

Section JsMapFacts.
Context {V : Type}.
Implicit Types (m : list (string * V)) (k : string) (v : V).

Lemma map_get_set_eq k v m : map_get k (map_set k v m) = Some v.
Proof.
  induction m as [|[k' v'] m IH]; simpl.
  - by rewrite decide_True.
  - destruct (decide (k = k')) as [->|Hne]; simpl.
    + by rewrite decide_True.
    + by rewrite decide_False.
Qed.

Lemma map_get_set_ne k k' v m : k ≠ k' -> map_get k' (map_set k v m) = map_get k' m.
Proof.
  intros Hne. induction m as [|[k0 v0] m IH]; simpl.
  - by rewrite decide_False.
  - destruct (decide (k = k0)) as [->|Hk]; simpl.
    + by rewrite !decide_False.
    + destruct (decide (k' = k0)); [done|apply IH].
Qed.

Lemma map_get_None k m : map_get k m = None <-> k ∉ m.*1.
Proof.
  induction m as [|[k' v'] m IH]; simpl.
  - split; [intros _; apply not_elem_of_nil|done].
  - rewrite not_elem_of_cons. destruct (decide (k = k')) as [->|Hne].
    + split; [done|]. intros [? _]. done.
    + rewrite IH. tauto.
Qed.

Lemma map_get_elem_of k v m : map_get k m = Some v -> (k, v) ∈ m.
Proof.
  induction m as [|[k' v'] m IH]; simpl; [done|].
  destruct (decide (k = k')) as [->|Hne].
  - intros [= ->]. left.
  - intros H. right. by apply IH.
Qed.

Lemma elem_of_map_get k v m : NoDup m.*1 -> (k, v) ∈ m -> map_get k m = Some v.
Proof.
  induction m as [|[k' v'] m IH]; simpl; intros Hnd Hin.
  - by apply elem_of_nil in Hin.
  - apply NoDup_cons in Hnd as [Hk' Hnd].
    apply elem_of_cons in Hin as [[= -> ->]|Hin].
    + by rewrite decide_True.
    + destruct (decide (k = k')) as [->|Hne]; [|by apply IH].
      exfalso. apply Hk'. apply list_elem_of_fmap. by exists (k', v).
Qed.

Lemma map_set_keys k v m :
  (map_set k v m).*1 = if map_has k m then m.*1 else m.*1 ++ [k].
Proof.
  unfold map_has. induction m as [|[k' v'] m IH]; csimpl; [done|].
  destruct (decide (k = k')) as [->|Hne]; csimpl; [done|].
  rewrite IH. by destruct (map_get k m).
Qed.

Lemma map_has_true k m : map_has k m = true <-> k ∈ m.*1.
Proof.
  unfold map_has. destruct (map_get k m) eqn:E.
  - split; [|done]. intros _. apply map_get_elem_of in E.
    apply list_elem_of_fmap. by exists (k, v).
  - apply map_get_None in E. split; [done|]. intros H. by destruct E.
Qed.

Lemma map_set_NoDup k v m : NoDup m.*1 -> NoDup (map_set k v m).*1.
Proof.
  intros Hnd. rewrite map_set_keys. destruct (map_has k m) eqn:E; [done|].
  apply NoDup_app. split; [done|]. split; [|apply NoDup_singleton].
  intros x Hx Hx'. apply list_elem_of_singleton in Hx' as ->.
  apply map_has_true in Hx. congruence.
Qed.

Lemma map_set_elem_of k v k' v' m :
  (k', v') ∈ map_set k v m -> (k' = k /\ v' = v) \/ (k', v') ∈ m.
Proof.
  induction m as [|[k0 v0] m IH]; simpl.
  - intros H. apply list_elem_of_singleton in H as [= -> ->]. by left.
  - destruct (decide (k = k0)) as [->|Hne]; intros H.
    + apply elem_of_cons in H as [[= -> ->]|H]; [by left|].
      right. by right.
    + apply elem_of_cons in H as [[= -> ->]|H]; [right; left|].
      destruct (IH H) as [?|?]; [by left|]. right. by right.
Qed.
End JsMapFacts.

(** ** Ranking of answerers *)

Lemma answersBy_snoc author l a :
  answersBy author (l ++ [a]) =
  (answersBy author l + if decide (ans_author a = author) then 1 else 0)%nat.
Proof.
  unfold answersBy. rewrite filter_app, length_app. f_equal.
  rewrite filter_cons, filter_nil. by destruct (decide _).
Qed.

Lemma collectAnswer_statsInv messages m seen a :
  statsInv m seen -> statsInv (collectAnswer messages m a) (seen ++ [a]).
Proof.
  intros [Hnd Hcount]. unfold collectAnswer.
  set (author := ans_author a).
  set (m1 := if map_has author m then m else map_set author _ m).
  assert (Hnd1 : NoDup m1.*1).
  { subst m1. destruct (map_has author m); [done|by apply map_set_NoDup]. }
  assert (Hother : forall k, k ≠ author -> map_get k m1 = map_get k m).
  { intros k Hk. subst m1. destruct (map_has author m); [done|].
    by apply map_get_set_ne. }
  assert (Hself : exists st, map_get author m1 = Some st /\
                             answersCount st = answersBy author seen).
  { subst m1. unfold map_has. specialize (Hcount author).
    destruct (map_get author m) as [st|] eqn:E.
    - exists st. by rewrite E.
    - eexists. rewrite map_get_set_eq. split; [done|]. by rewrite Hcount. }
  destruct Hself as (st & Hget & Hst). rewrite Hget.
  split; [by apply map_set_NoDup|].
  intros k. rewrite answersBy_snoc. fold author.
  destruct (decide (author = k)) as [<-|Hne].
  - rewrite map_get_set_eq. simpl. lia.
  - rewrite map_get_set_ne by done. rewrite Hother by done.
    specialize (Hcount k). destruct (map_get k m); lia.
Qed.

Lemma collectStats_flat hostQuestions messages :
  collectStats hostQuestions messages =
  foldl (collectAnswer messages) [] (allAnswers hostQuestions).
Proof.
  unfold collectStats, allAnswers. generalize (@nil (string * AnswererStats)).
  induction hostQuestions as [|q qs IH]; intros m; csimpl; [done|].
  by rewrite foldl_app, IH.
Qed.

Lemma collectStats_statsInv hostQuestions messages :
  statsInv (collectStats hostQuestions messages) (allAnswers hostQuestions).
Proof.
  rewrite collectStats_flat.
  induction (allAnswers hostQuestions) as [|a l IH] using rev_ind.
  - split; [constructor|]. intros k. done.
  - rewrite foldl_app. simpl. by apply collectAnswer_statsInv.
Qed.

Lemma rankQuestionAnswerers_elem_of qa hostQuestions messages :
  qa ∈ rankQuestionAnswerers hostQuestions messages ->
  exists st,
    (qa_author qa, st) ∈ collectStats hostQuestions messages /\
    qa = toAnswerer (buildProfileImageMap messages) (length hostQuestions)
           (qa_author qa, st).
Proof.
  unfold rankQuestionAnswerers. rewrite js_sort_elem_of.
  intros H. apply list_elem_of_fmap in H as ([k st] & -> & Hin).
  exists st. by simpl.
Qed.

(** An answerer's [questionsAnswered] is the number of [Answer] records by
    that author over all questions. *)
Lemma questionsAnswered_counts_answers hostQuestions messages :
  Forall (fun qa =>
            questionsAnswered qa = answersBy (qa_author qa) (allAnswers hostQuestions))
         (rankQuestionAnswerers hostQuestions messages).
Proof.
  apply Forall_forall. intros qa Hqa.
  apply rankQuestionAnswerers_elem_of in Hqa as (st & Hin & ->). simpl.
  destruct (collectStats_statsInv hostQuestions messages) as [Hnd Hcount].
  specialize (Hcount (qa_author qa)).
  by rewrite (elem_of_map_get _ _ _ Hnd Hin) in Hcount.
Qed.

(** C10.  Candidate selection does not deduplicate by author: an answerer's
    [questionsAnswered] counts [Answer] records, and there is an input where
    one non-host author gets two answers attached to the single host
    question, so that the count exceeds the number of host questions. *)
Theorem answers_not_deduplicated_by_author :
  (forall hostQuestions messages,
     Forall (fun qa =>
               questionsAnswered qa =
               length (filter (fun a => ans_author a = qa_author qa)
                              (concat (answers <$> hostQuestions))))
            (rankQuestionAnswerers hostQuestions messages)) /\
  (exists messages hostName q a1 a2 qa,
     let hostQuestions := extractHostQuestions messages hostName defaultWindow in
     hostQuestions = [q] /\
     answers q = [a1; a2] /\
     ans_messageId a1 ≠ ans_messageId a2 /\
     ans_author a1 = ans_author a2 /\
     ans_author a1 ≠ hostName /\
     rankQuestionAnswerers hostQuestions messages = [qa] /\
     qa_author qa = ans_author a1 /\
     questionsAnswered qa = 2%nat /\
     (length hostQuestions < questionsAnswered qa)%nat).
Proof.
  split.
  - intros hostQuestions messages.
    apply questionsAnswered_counts_answers.
  - exists eagerBob, "Host".
    eexists _, _, _, _. cbv zeta.
    split; [vm_compute; reflexivity|].
    split; [reflexivity|].
    split; [done|].
    split; [reflexivity|].
    split; [done|].
    split; [vm_compute; reflexivity|].
    split; [reflexivity|].
    split; [reflexivity|].
    vm_compute. lia.
Qed.

(** ** Rounding and clamping *)

Lemma Qmin_le_l (x y : Q) : (Qmin x y <= x)%Q.
Proof.
  unfold Qmin. destruct (Qle_bool x y) eqn:E; [apply Qle_refl|].
  apply Qlt_le_weak, Qgt_bool_iff. unfold Qgt_bool. by rewrite E.
Qed.

Lemma Qmin_nonneg (x y : Q) : (0 <= x)%Q -> (0 <= y)%Q -> (0 <= Qmin x y)%Q.
Proof. unfold Qmin. by destruct (Qle_bool x y). Qed.

Lemma Qmax_nonneg_l (y : Q) : (0 <= Qmax 0 y)%Q.
Proof.
  unfold Qmax. destruct (Qle_bool 0 y) eqn:E; [by apply Qle_bool_iff|apply Qle_refl].
Qed.

Lemma Math_round_nonneg (x : Q) : (0 <= x)%Q -> 0 <= Math_round x.
Proof.
  intros H. unfold Math_round.
  change 0 with (Qfloor (1 # 2)). apply Qfloor_resp_le.
  rewrite <- (Qplus_0_l (1 # 2)) at 1. apply Qplus_le_compat; [done|apply Qle_refl].
Qed.

Lemma Math_round_le_100 (x : Q) : (x <= 100)%Q -> Math_round x <= 100.
Proof.
  intros H. unfold Math_round.
  change 100 with (Qfloor (100 + (1 # 2))). apply Qfloor_resp_le.
  apply Qplus_le_compat; [done|apply Qle_refl].
Qed.

Lemma Q_of_nat_nonneg (n : nat) : (0 <= Q_of_nat n)%Q.
Proof. unfold Q_of_nat. change 0%Q with (inject_Z 0). rewrite <- Zle_Qle. lia. Qed.

Lemma Qplus_nonneg (x y : Q) : (0 <= x)%Q -> (0 <= y)%Q -> (0 <= x + y)%Q.
Proof.
  intros Hx Hy. rewrite <- (Qplus_0_l 0). by apply Qplus_le_compat.
Qed.

Lemma Qdiv_nonneg (x y : Q) : (0 <= x)%Q -> (0 <= y)%Q -> (0 <= x / y)%Q.
Proof.
  intros Hx Hy. unfold Qdiv. apply Qmult_le_0_compat; [done|].
  by apply Qinv_le_0_compat.
Qed.

Create HintDb qnonneg.
#[local] Hint Resolve Qplus_nonneg Qdiv_nonneg Qmult_le_0_compat Qmin_nonneg
  Qmax_nonneg_l Q_of_nat_nonneg Qle_refl Qlt_le_weak : qnonneg.
#[local] Hint Extern 1 (0 <= inject_Z _)%Q => (vm_compute; discriminate) : qnonneg.
#[local] Hint Extern 1 (0 <= _ # _)%Q => (vm_compute; discriminate) : qnonneg.

(** ** Helpfulness scores *)

Lemma helpfulnessOf_nonneg stats totalHostQuestions :
  (0 <= helpfulnessOf stats totalHostQuestions)%Q.
Proof.
  unfold helpfulnessOf, frequencyScoreOf, speedScoreOf, engagementScoreOf.
  auto 12 with qnonneg.
Qed.

Lemma helpfulnessScore_nonneg hostQuestions messages :
  Forall (fun qa => 0 <= helpfulnessScore qa)
    (rankQuestionAnswerers hostQuestions messages).
Proof.
  apply Forall_forall. intros qa Hqa.
  apply rankQuestionAnswerers_elem_of in Hqa as (st & _ & ->). simpl.
  apply Math_round_nonneg, helpfulnessOf_nonneg.
Qed.

(** C1 (the code departs from the claim).  The helpfulness score is a
    non-negative integer, but it is not clamped from above: on [eagerBob]
    the single answerer gets frequency 100, speed 99.75 and engagement 200
    (two answers to one question), and the rounded weighted sum is 120. *)
Theorem helpfulnessScore_can_exceed_100 :
  (forall hostQuestions messages,
     Forall (fun qa => 0 <= helpfulnessScore qa)
       (rankQuestionAnswerers hostQuestions messages)) /\
  let hostQuestions := extractHostQuestions eagerBob "Host" defaultWindow in
  length hostQuestions = 1%nat /\
  exists qa,
    rankQuestionAnswerers hostQuestions eagerBob = [qa] /\
    questionsAnswered qa = 2%nat /\
    helpfulnessScore qa = 120 /\
    ~ (0 <= helpfulnessScore qa <= 100).
Proof.
  split; [apply helpfulnessScore_nonneg|].
  cbv zeta. split; [reflexivity|].
  eexists. split; [vm_compute; reflexivity|].
  simpl. repeat split; lia.
Qed.

(** ** Community scores *)

Lemma calculateEngagementScore_range author messages threads answered duration :
  0 <= calculateEngagementScore author messages threads answered duration <= 100.
Proof.
  unfold calculateEngagementScore.
  destruct (length (filter _ messages) =? 0)%nat; [lia|].
  split.
  - apply Math_round_nonneg.
    apply Qmin_nonneg; [auto with qnonneg|].
    repeat apply Qplus_nonneg; apply Qmult_le_0_compat. all: auto with qnonneg.
    + apply Qmin_nonneg; [auto with qnonneg|].
      destruct (Qgt_bool duration 0) eqn:E; [|auto with qnonneg].
      apply Qgt_bool_iff in E. auto 10 with qnonneg.
    + destruct (Qgt_bool answered 0) eqn:E; [|auto with qnonneg].
      apply Qgt_bool_iff in E. auto 10 with qnonneg.
  - apply Math_round_le_100, Qmin_le_l.
Qed.

Lemma byEngagementDesc_sorted l :
  StronglySorted (fun a b => engagementScore b <= engagementScore a)
    (js_sort byEngagementDesc l).
Proof.
  eapply StronglySorted_weaken; [|apply js_sort_sorted].
  - unfold byEngagementDesc. intros a b. simpl. lia.
  - unfold byEngagementDesc. intros a b. lia.
  - unfold byEngagementDesc. intros a b c. lia.
Qed.

Lemma memberOf_score messages threads questionAnswerers duration entry :
  0 <= engagementScore (memberOf messages threads questionAnswerers duration entry) <= 100.
Proof. destruct entry as [author n]. simpl. apply calculateEngagementScore_range. Qed.

(** C7.  Every member returned by [identifyActiveCommunityMembers] has an
    engagement score in [0,100]; the list is sorted by non-increasing score
    and has at most 20 members. *)
Theorem identifyActiveCommunityMembers_scores messages threads questionAnswerers :
  let members := identifyActiveCommunityMembers messages threads questionAnswerers in
  Forall (fun m => 0 <= engagementScore m <= 100) members /\
  StronglySorted (fun a b => engagementScore b <= engagementScore a) members /\
  (length members <= 20)%nat.
Proof.
  cbv zeta. unfold identifyActiveCommunityMembers, slice. rewrite drop_0.
  split; [|split].
  - apply Forall_take, js_sort_Forall, Forall_fmap.
    apply (foldl_invariant
             (Forall (fun p : string * CommunityMember =>
                        0 <= engagementScore p.2 <= 100))); [constructor|].
    intros members entry _ Hmembers. apply Forall_forall. intros [k v] Hin.
    apply map_set_elem_of in Hin as [[_ ->]|Hin].
    + apply memberOf_score.
    + by apply (proj1 (Forall_forall _ _) Hmembers (k, v)).
  - apply StronglySorted_take, byEngagementDesc_sorted.
  - rewrite length_take. lia.
Qed.

(** Scenario E of the specification, scored: Carl's three messages in 20
    seconds give frequency 100, speed 91.67 and one thread. *)
Example scenarioE_members :
  (fun m => (cm_author m, engagementScore m))
  <$> identifyActiveCommunityMembers scenarioE
        (detectThreads scenarioE defaultWindow) ∅ =
  [ ("Carl", 57) ].
Proof. vm_compute. reflexivity. Qed.

(** ** Keyword trends *)

Lemma ceilThird_spec n : (n <= 3 * ceilThird n < n + 3)%nat.
Proof.
  unfold ceilThird, Q_of_nat, Qceiling. cbn.
  assert (H := Z.div_mod (- (Z.of_nat n * 1)) 3).
  assert (H' := Z.mod_pos_bound (- (Z.of_nat n * 1)) 3).
  change (Z.pos (1 * 3)) with 3. lia.
Qed.

Lemma trendOf_spec c1 c2 c3 : trendSpec c1 c2 c3 (trendOf c1 c2 c3).
Proof.
  unfold trendSpec, risingCond, decliningCond, trendOf.
  assert (Hmax := Q_of_nat_nonneg (Nat.max c1 c2)).
  set (rise := inject_Z _) in *. set (mx := Q_of_nat _) in *.
  destruct (Qgt_bool rise (mx * (3 # 10))) eqn:E1.
  { apply Qgt_bool_iff in E1.
    repeat split; try done; try lra; try (intros [? ?]; lra). }
  destruct (Qgt_bool (- mx * (3 # 10)) rise) eqn:E2.
  { apply Qgt_bool_iff in E2.
    repeat split; try done; try lra; try (intros [? ?]; lra). }
  assert (N1 : ~ (mx * (3 # 10) < rise)%Q).
  { intros H. apply Qgt_bool_iff in H. congruence. }
  assert (N2 : ~ (rise < - mx * (3 # 10))%Q).
  { intros H. apply Qgt_bool_iff in H. congruence. }
  repeat split; try done; try lra.
Qed.

Lemma byFrequencyDesc_sorted l :
  StronglySorted (fun a b => (kt_frequency b <= kt_frequency a)%nat)
    (js_sort byFrequencyDesc l).
Proof.
  eapply StronglySorted_weaken; [|apply js_sort_sorted].
  - unfold byFrequencyDesc. intros a b. simpl. lia.
  - unfold byFrequencyDesc. intros a b. lia.
  - unfold byFrequencyDesc. intros a b c. lia.
Qed.

(** C8.  With fewer than 2 messages there are no trends.  Otherwise the
    corpus in chronological order splits into three contiguous periods, the
    first two of size ceil(n/3) and the rest in the third; the result has
    one trend per keyword among the first 20, classified rising, declining
    or stable by comparing (count3 - count1) with 0.3 * max(count1, count2),
    and is sorted by non-increasing total frequency. *)
Theorem calculateKeywordTrends_spec messages keywords :
  ((length messages < 2)%nat -> calculateKeywordTrends messages keywords = []) /\
  ((2 <= length messages)%nat -> trendsByPeriods messages keywords).
Proof.
  unfold trendsByPeriods, calculateKeywordTrends, trendsOfSorted. split.
  - intros H. apply Nat.ltb_lt in H. by rewrite H.
  - intros H. apply Nat.ltb_ge in H. rewrite H.
    set (sorted := js_sort byTimestamp messages).
    assert (Hlen : length sorted = length messages) by apply js_sort_length.
    rewrite Hlen.
    set (third := ceilThird (length messages)).
    assert (Hthird := ceilThird_spec (length messages)). fold third in Hthird.
    apply Nat.ltb_ge in H.
    assert (Htwo : (2 * third <= length messages)%nat) by lia.
    exists third, (slice 0 third sorted), (slice third (third * 2) sorted),
      (slice_from (third * 2) sorted).
    cbv zeta.
    assert (Hsplit : slice 0 third sorted ++ slice third (third * 2) sorted ++
                     slice_from (third * 2) sorted = sorted).
    { unfold slice, slice_from. rewrite drop_0, Nat.sub_0_r.
      replace (third * 2 - third)%nat with third by lia.
      rewrite <- (take_drop third sorted) at 4. f_equal.
      rewrite <- (take_drop third (drop third sorted)) at 2. f_equal.
      rewrite drop_drop. f_equal. lia. }
    split; [done|].
    split; [unfold slice; rewrite length_take, length_drop; lia|].
    split; [unfold slice; rewrite length_take, length_drop; lia|].
    split; [unfold slice_from; rewrite length_drop; lia|].
    split; [rewrite Hsplit; apply js_sort_perm|].
    split; [rewrite Hsplit; apply byTimestamp_sorted|].
    split.
    + eexists. split; [|apply js_sort_perm].
      change (slice 0 20 keywords) with (take 20 keywords).
      apply Forall2_fmap_r, Forall_Forall2_diag, Forall_forall.
      intros k _. unfold trendFor. simpl.
      split; [done|]. split; [done|]. apply trendOf_spec.
    + apply byFrequencyDesc_sorted.
Qed.

(** C8, runs of the theorem: a single message, and a corpus of five. *)
Lemma calculateKeywordTrends_spec_witness :
  calculateKeywordTrends [chatAt "k0" "Ann" 0] [mkKeyword "hi" 2] = [] /\
  trendsByPeriods (take 5 twoBursts) [mkKeyword "hi" 5; mkKeyword "yo" 2].
Proof.
  split.
  - apply (proj1 (calculateKeywordTrends_spec [chatAt "k0" "Ann" 0] [mkKeyword "hi" 2])).
    simpl. lia.
  - apply (proj2 (calculateKeywordTrends_spec (take 5 twoBursts)
                    [mkKeyword "hi" 5; mkKeyword "yo" 2])).
    simpl. lia.
Defined.

Example keywordTrends_five :
  calculateKeywordTrends
    [ mkChatMessage "e3" "Ann" "nice beat" 3000 "" None None;
      mkChatMessage "e1" "Ann" "Great Stream" 1000 "" None None;
      mkChatMessage "e5" "Cy" "what a beat" 5000 "" None None;
      mkChatMessage "e2" "Ben" "great stream today" 2000 "" None None;
      mkChatMessage "e4" "Ben" "beat drop" 4000 "" None None ]
    [ mkKeyword "great stream" 2; mkKeyword "beat" 3; mkKeyword "drop" 1 ] =
  [ mkTrend "beat" 3 rising; mkTrend "great stream" 2 declining;
    mkTrend "drop" 1 stable ].
Proof. vm_compute. reflexivity. Qed.

(** ** Conversation threads: the look-ahead loop *)

Lemma candidates_insert sortedMessages processed j js :
  j ∉ js ->
  candidates sortedMessages ({[j]} ∪ processed) js =
  candidates sortedMessages processed js.
Proof.
  intros Hj. unfold candidates.
  apply list_omap_ext, Forall_Forall2_diag, Forall_forall.
  intros k Hk. assert (k ≠ j) by (intros ->; done).
  destruct (decide (k ∈ processed)) as [Hin|Hout].
  - rewrite !bool_decide_eq_true_2; [done|done|set_solver].
  - rewrite !bool_decide_eq_false_2; [done|done|set_solver].
Qed.

(** The look-ahead loop gathers the longest prefix of the unprocessed
    candidates that lies in the window, and marks what it gathers. *)
Lemma lookAhead_spec sortedMessages w startMsg js st :
  NoDup js ->
  Forall (fun j => (j < length sortedMessages)%nat) js ->
  let g := takeWhile (fun p => inWindow w startMsg p.2)
             (candidates sortedMessages (scan_processed st) js) in
  lookAhead sortedMessages w startMsg js st =
  mkScan (threadMessages st ++ g.*2)
         (foldl (fun s p => set_add (msg_author (msg p.2)) s) (scan_participants st) g)
         (list_to_set g.*1 ∪ scan_processed st).
Proof.
  revert st. induction js as [|j js IH]; intros st Hnd Hrange; cbv zeta.
  - destruct st as [tm ps P]. simpl. f_equal; [by rewrite app_nil_r|set_solver].
  - apply NoDup_cons in Hnd as [Hj Hnd]. apply Forall_cons in Hrange as [Hjn Hrange].
    simpl. unfold candidates at 1 2 3. simpl. fold (candidates sortedMessages).
    destruct (decide (j ∈ scan_processed st)) as [Hin|Hout].
    + rewrite !bool_decide_eq_true_2 by done. simpl. by apply IH.
    + rewrite !bool_decide_eq_false_2 by done.
      destruct (lookup_lt_is_Some_2 _ _ Hjn) as [cur Hcur]. rewrite Hcur. simpl.
      unfold Qgt_bool.
      change (Qle_bool (timeDiffOf startMsg cur) w) with (inWindow w startMsg cur).
      destruct (inWindow w startMsg cur) eqn:E; simpl.
      * rewrite IH by done. simpl. rewrite (candidates_insert _ _ _ _ Hj).
        f_equal; [by rewrite <- app_assoc|set_solver].
      * destruct st as [tm ps P]. simpl. f_equal; [by rewrite app_nil_r|set_solver].
Qed.

Lemma takeWhile_prefix {A} (p : A -> bool) l :
  takeWhile p l = take (length (takeWhile p l)) l.
Proof.
  induction l as [|x l IH]; simpl; [done|].
  destruct (p x); simpl; [by f_equal|done].
Qed.

Lemma takeWhile_length_le {A} (p : A -> bool) l :
  (length (takeWhile p l) <= length l)%nat.
Proof.
  induction l as [|x l IH]; simpl; [done|].
  destruct (p x); simpl; lia.
Qed.

Lemma takeWhile_zip {A B} (p : B -> bool) (js : list A) (ms : list B) :
  length js = length ms ->
  let g := takeWhile (fun q => p q.2) (zip js ms) in
  g.*2 = takeWhile p ms /\ g.*1 = take (length (takeWhile p ms)) js.
Proof.
  revert ms. induction js as [|j js IH]; intros [|m ms] Hlen; try done.
  cbv zeta. simpl in *. destruct (p m); simpl; [|done].
  destruct (IH ms) as [H2 H1]; [lia|]. cbv zeta in H1, H2.
  split; f_equal; [exact H2|exact H1].
Qed.

(** When none of the positions is processed, the candidates are the
    messages at these positions. *)
Lemma candidates_fresh sortedMessages processed a len :
  (forall j, (a <= j < a + len)%nat -> j ∉ processed) ->
  (a + len <= length sortedMessages)%nat ->
  candidates sortedMessages processed (seq a len) =
  zip (seq a len) (take len (drop a sortedMessages)).
Proof.
  revert a. induction len as [|len IH]; intros a Hfresh Hlen; [done|].
  destruct (lookup_lt_is_Some_2 sortedMessages a) as [m Hm]; [lia|].
  rewrite (drop_S _ _ _ Hm). simpl. unfold candidates. csimpl.
  rewrite bool_decide_eq_false_2 by (apply Hfresh; lia).
  rewrite Hm. csimpl. f_equal.
  apply IH; [|lia]. intros j Hj. apply Hfresh. lia.
Qed.

Lemma lookRange_take i (l : list Indexed) :
  (i < length l)%nat ->
  let len := (Nat.min (length l) (i + 20) - (i + 1))%nat in
  (i + 1 + len <= length l)%nat /\
  take len (drop (i + 1) l) = take 19 (drop (i + 1) l).
Proof.
  intros Hi. cbv zeta. split; [lia|].
  destruct (decide (i + 20 <= length l)%nat).
  - f_equal. lia.
  - rewrite !take_ge; [done| |]; rewrite length_drop; lia.
Qed.

Lemma seed_scan sortedMessages w i startMsg author processed :
  sortedMessages !! i = Some startMsg ->
  (forall p, p ∈ processed -> (p <= i)%nat) ->
  let G := groupOf sortedMessages w i startMsg in
  lookAhead sortedMessages w startMsg (lookRange i (length sortedMessages))
    (mkScan [startMsg] [author] processed) =
  mkScan (startMsg :: G)
         (foldl (fun s m => set_add (msg_author (msg m)) s) [author] G)
         (list_to_set (seq (S i) (length G)) ∪ processed).
Proof.
  intros Hi Hproc. cbv zeta.
  assert (Hlt : (i < length sortedMessages)%nat) by (by eapply lookup_lt_Some).
  destruct (lookRange_take i sortedMessages Hlt) as [Hlen Htake].
  unfold lookRange. rewrite !Nat.add_1_r in *.
  set (len := (Nat.min _ _ - _)%nat) in *.
  rewrite lookAhead_spec.
  2: apply NoDup_seq.
  2: { apply Forall_forall. intros j Hj. apply elem_of_seq in Hj. lia. }
  simpl. rewrite candidates_fresh.
  2: { intros j Hj Hin. apply Hproc in Hin. lia. }
  2: done.
  rewrite Htake.
  assert (Hlen19 : length (seq (S i) len) =
                   length (take 19 (drop (S i) sortedMessages))).
  { rewrite length_seq, <- Htake, length_take, length_drop. lia. }
  destruct (takeWhile_zip (inWindow w startMsg) _ _ Hlen19) as [H2 H1].
  cbv zeta in H1, H2. unfold groupOf. f_equal.
  - by rewrite H2.
  - rewrite <- H2. by rewrite foldl_fmap.
  - rewrite H1. f_equal. f_equal. rewrite take_seq. f_equal.
    assert (Hle := takeWhile_length_le (inWindow w startMsg)
                     (take 19 (drop (S i) sortedMessages))).
    rewrite <- Hlen19, length_seq in Hle. lia.
Qed.

(** ** Conversation threads: the seed loop *)

Lemma takeWhile_lookup {A} (p : A -> bool) l x :
  x ∈ takeWhile p l ->
  exists k, l !! k = Some x /\ (k < length (takeWhile p l))%nat.
Proof.
  rewrite (takeWhile_prefix p l) at 1. intros H.
  apply elem_of_take in H as (k & Hk & Hlt). eauto.
Qed.

Lemma group_members sortedMessages w i startMsg tm :
  sortedMessages !! i = Some startMsg ->
  tm ∈ startMsg :: groupOf sortedMessages w i startMsg ->
  exists j, (i <= j < S i + length (groupOf sortedMessages w i startMsg))%nat /\
            sortedMessages !! j = Some tm.
Proof.
  intros Hi Htm. apply elem_of_cons in Htm as [->|Htm].
  - exists i. split; [lia|done].
  - unfold groupOf in *. apply takeWhile_lookup in Htm as (k & Hk & Hlt).
    apply lookup_take_Some in Hk as [Hk _]. rewrite lookup_drop in Hk.
    exists (S i + k)%nat. split; [lia|done].
Qed.

Lemma indexOf_le sortedMessages tm j p :
  sortedMessages !! j = Some tm -> indexOf sortedMessages tm = Some p -> (p <= j)%nat.
Proof.
  unfold indexOf. intros Hj Hp.
  destruct (list_find _ sortedMessages) as [[k y]|] eqn:E; [|done].
  simpl in Hp. injection Hp as ->.
  apply list_find_Some in E as (_ & _ & Hmin).
  destruct (decide (p <= j)%nat); [done|].
  exfalso. apply (Hmin j tm); [done|lia|done].
Qed.

Lemma markProcessed_elem sortedMessages tms processed p :
  p ∈ foldl (markProcessed sortedMessages) processed tms <->
  p ∈ processed \/ exists tm, tm ∈ tms /\ indexOf sortedMessages tm = Some p.
Proof.
  revert processed. induction tms as [|tm tms IH]; intros processed; simpl.
  - split; [by left|]. intros [?|(tm & Htm & _)]; [done|].
    by apply elem_of_nil in Htm.
  - rewrite IH. unfold markProcessed.
    destruct (indexOf sortedMessages tm) as [k|] eqn:E.
    + split.
      * intros [Hp|(tm' & Htm' & Hidx)].
        -- apply elem_of_union in Hp as [Hp|Hp]; [|by left].
           apply elem_of_singleton in Hp as ->. right. exists tm. split; [left|done].
        -- right. exists tm'. split; [by right|done].
      * intros [Hp|(tm' & Htm' & Hidx)].
        -- left. set_solver.
        -- apply elem_of_cons in Htm' as [->|Htm'].
           ++ left. rewrite E in Hidx. injection Hidx as ->. set_solver.
           ++ right. eauto.
    + split.
      * intros [Hp|(tm' & Htm' & Hidx)]; [by left|].
        right. exists tm'. split; [by right|done].
      * intros [Hp|(tm' & Htm' & Hidx)]; [by left|].
        apply elem_of_cons in Htm' as [->|Htm']; [congruence|].
        right. eauto.
Qed.

Lemma set_add_length x s : (length s <= length (set_add x s))%nat.
Proof.
  unfold set_add. destruct (bool_decide (x ∈ s)); [done|].
  rewrite length_app. lia.
Qed.

Lemma participants_nonempty (G : list Indexed) s :
  (1 <= length s)%nat ->
  (1 <= length (foldl (fun s m => set_add (msg_author (msg m)) s) s G))%nat.
Proof.
  revert s. induction G as [|m G IH]; intros s Hs; simpl; [done|].
  apply IH. pose proof (set_add_length (msg_author (msg m)) s). lia.
Qed.

Lemma memberAt_inj sortedMessages mid k k' :
  NoDup ((fun tm => msg_id (msg tm)) <$> sortedMessages) ->
  memberAt sortedMessages mid k -> memberAt sortedMessages mid k' -> k = k'.
Proof.
  intros Hnd (m & Hm & Hid) (m' & Hm' & Hid').
  eapply NoDup_lookup; [exact Hnd| |].
  - rewrite list_lookup_fmap, Hm. simpl. by rewrite Hid.
  - rewrite list_lookup_fmap, Hm'. simpl. by rewrite Hid'.
Qed.

Lemma disjointThreads_snoc l t :
  disjointThreads l ->
  (forall t' mid, t' ∈ l -> mid ∈ thread_messages t' -> mid ∉ thread_messages t) ->
  disjointThreads (l ++ [t]).
Proof.
  intros Hl Hnew a b ta tb mid Hab Ha Hb Hmid.
  apply lookup_snoc_Some in Ha as [[Hla Ha]|[-> <-]];
    apply lookup_snoc_Some in Hb as [[Hlb Hb]|[-> <-]].
  - by eapply Hl.
  - eapply Hnew; [|done]. by eapply list_elem_of_lookup_2.
  - intros Hmid'. eapply Hnew; [|exact Hmid'|exact Hmid].
    by eapply list_elem_of_lookup_2.
  - done.
Qed.

Lemma seedStep_unprocessed sortedMessages w st i startMsg :
  sortedMessages !! i = Some startMsg ->
  i ∉ processedIndices st ->
  (forall p, p ∈ processedIndices st -> (p <= i)%nat) ->
  let G := groupOf sortedMessages w i startMsg in
  let marked := list_to_set (seq (S i) (length G)) ∪ processedIndices st in
  seedStep sortedMessages w st i =
  if (3 <=? length (startMsg :: G))%nat
  then
    mkLoop
      (threads st ++
        [ {| threadId := "thread-" +:+ pretty (threadCounter st);
             participants :=
               foldl (fun s m => set_add (msg_author (msg m)) s)
                     [msg_author (msg startMsg)] G;
             messageCount := length (startMsg :: G);
             startTime := timestampOf (head (startMsg :: G)) startMsg;
             endTime := timestampOf (last (startMsg :: G)) startMsg;
             thread_messages := (fun tm => msg_id (msg tm)) <$> startMsg :: G |} ])
      (foldl (markProcessed sortedMessages) marked (startMsg :: G))
      (threadCounter st + 1)
  else mkLoop (threads st) marked (threadCounter st).
Proof.
  intros Hi Hout Hproc. cbv zeta. unfold seedStep.
  rewrite bool_decide_eq_false_2 by done. rewrite Hi.
  by rewrite seed_scan.
Qed.

Lemma seedStep_inv sortedMessages w i st :
  (i < length sortedMessages)%nat ->
  loopInv sortedMessages i st ->
  loopInv sortedMessages (S i) (seedStep sortedMessages w st i).
Proof.
  intros Hi (F & Hbound & Hfill & Hmem & Hok & Hdisj).
  destruct (decide (i ∈ processedIndices st)) as [Hin|Hout].
  { unfold seedStep. rewrite bool_decide_eq_true_2 by done.
    exists F. pose proof (Hbound i Hin).
    repeat split; try done.
    - intros k Hk. apply Hfill. lia.
    - intros t mid Ht Hmid. destruct (Hmem t mid Ht Hmid) as (k & Hk & Hlt).
      exists k. split; [done|lia]. }
  assert (HF : (F <= i)%nat).
  { destruct (decide (F <= i)%nat); [done|]. exfalso. apply Hout, Hfill. lia. }
  destruct (lookup_lt_is_Some_2 _ _ Hi) as [startMsg Hstart].
  rewrite (seedStep_unprocessed _ _ _ _ startMsg); [|done|done|].
  2: { intros p Hp. apply Hbound in Hp. lia. }
  set (G := groupOf sortedMessages w i startMsg).
  assert (Hold : forall t mid, t ∈ threads st -> mid ∈ thread_messages t ->
                   exists k, memberAt sortedMessages mid k /\ (k < i)%nat).
  { intros t mid Ht Hmid. destruct (Hmem t mid Ht Hmid) as (k & Hk & Hlt).
    exists k. split; [done|lia]. }
  destruct (3 <=? length (startMsg :: G))%nat eqn:Hsize.
  - apply Nat.leb_le in Hsize.
    exists (S i + length G)%nat. cbn [threads processedIndices].
    split; [|split; [|split; [|split]]].
    + intros p Hp. apply markProcessed_elem in Hp as [Hp|(tm & Htm & Hidx)].
      * apply elem_of_union in Hp as [Hp|Hp].
        -- apply elem_of_list_to_set, elem_of_seq in Hp. lia.
        -- apply Hbound in Hp. lia.
      * destruct (group_members _ w _ _ _ Hstart Htm) as (j & Hj & Hlook).
        pose proof (indexOf_le _ _ _ _ Hlook Hidx). fold G in Hj. lia.
    + intros k Hk. apply markProcessed_elem. left.
      apply elem_of_union. left. apply elem_of_list_to_set, elem_of_seq. lia.
    + intros t mid Ht Hmid. apply elem_of_app in Ht as [Ht|Ht].
      * destruct (Hold t mid Ht Hmid) as (k & Hk & Hlt). exists k. split; [done|lia].
      * apply list_elem_of_singleton in Ht as ->. cbn [thread_messages] in Hmid.
        apply list_elem_of_fmap in Hmid as (tm & -> & Htm).
        destruct (group_members _ w _ _ _ Hstart Htm) as (j & Hj & Hlook).
        exists j. split; [by exists tm|]. fold G in Hj. lia.
    + apply Forall_app. split; [done|]. constructor; [|constructor].
      unfold threadOk. cbn [messageCount thread_messages participants].
      split; [done|]. split; [by rewrite length_fmap|].
      by apply participants_nonempty.
    + intros Hnd. apply disjointThreads_snoc; [by apply Hdisj|].
      intros t mid Ht Hmid Hnew. cbn [thread_messages] in Hnew.
      destruct (Hold t mid Ht Hmid) as (k & Hk & Hlt).
      apply list_elem_of_fmap in Hnew as (tm & -> & Htm).
      destruct (group_members _ w _ _ _ Hstart Htm) as (j & Hj & Hlook).
      assert (k = j); [|lia].
      eapply memberAt_inj; [exact Hnd|exact Hk|by exists tm].
  - exists (S i + length G)%nat. cbn [threads processedIndices].
    split; [|split; [|split; [|split]]]; try done.
    + intros p Hp. apply elem_of_union in Hp as [Hp|Hp].
      * apply elem_of_list_to_set, elem_of_seq in Hp. lia.
      * apply Hbound in Hp. lia.
    + intros k Hk. apply elem_of_union. left.
      apply elem_of_list_to_set, elem_of_seq. lia.
    + intros t mid Ht Hmid.
      destruct (Hold t mid Ht Hmid) as (k & Hk & Hlt). exists k. split; [done|lia].
Qed.

Lemma loopAt_S messages w i :
  loopAt messages w (S i) =
  seedStep (sortedMessagesOf messages) w (loopAt messages w i) i.
Proof. unfold loopAt. cbv zeta. by rewrite seq_S, foldl_app. Qed.

Lemma sortedMessagesOf_length messages :
  length (sortedMessagesOf messages) = length messages.
Proof. unfold sortedMessagesOf. by rewrite js_sort_length, length_imap. Qed.

Lemma sortedMessagesOf_ids messages :
  (fun tm => msg_id (msg tm)) <$> sortedMessagesOf messages ≡ₚ msg_id <$> messages.
Proof.
  unfold sortedMessagesOf. rewrite js_sort_perm, fmap_imap.
  rewrite <- (imap_const msg_id messages).
  by rewrite (imap_ext _ (const msg_id) messages).
Qed.

Lemma loopAt_inv messages w i :
  (i <= length messages)%nat ->
  loopInv (sortedMessagesOf messages) i (loopAt messages w i).
Proof.
  induction i as [|i IH]; intros Hi.
  - exists 0%nat. unfold loopAt. simpl. repeat split.
    + intros p Hp. by apply not_elem_of_empty in Hp.
    + intros k Hk. lia.
    + intros t mid Ht. by apply elem_of_nil in Ht.
    + constructor.
    + intros _ a b ta tb mid _ Ha. done.
  - rewrite loopAt_S. apply seedStep_inv.
    + rewrite sortedMessagesOf_length. lia.
    + apply IH. lia.
Qed.

(** C5.  For pairwise-distinct message ids, every thread returned by
    [detectThreads] has [messageCount] (the number of its member ids) at
    least 3 and at least one participant, no message id is a member of two
    different returned threads, and fewer than 3 messages give no thread. *)
Theorem detectThreads_wellformed messages timeWindowSeconds :
  NoDup (msg_id <$> messages) ->
  let found := detectThreads messages timeWindowSeconds in
  Forall (fun t => (3 <= messageCount t)%nat /\
                   messageCount t = length (thread_messages t) /\
                   (1 <= length (participants t))%nat) found /\
  (forall a b ta tb mid,
     a ≠ b -> found !! a = Some ta -> found !! b = Some tb ->
     mid ∈ thread_messages ta -> mid ∉ thread_messages tb) /\
  ((length messages < 3)%nat -> found = []).
Proof.
  intros Hnd. cbv zeta. unfold detectThreads.
  destruct (length messages <? 3)%nat eqn:Hlen.
  - split; [constructor|]. split; [|done]. intros a b ta tb mid _ Ha. done.
  - apply Nat.ltb_ge in Hlen.
    destruct (loopAt_inv messages timeWindowSeconds (length (sortedMessagesOf messages)))
      as (F & _ & _ & _ & Hok & Hdisj).
    { by rewrite sortedMessagesOf_length. }
    split; [exact Hok|]. split; [|lia].
    apply Hdisj. by rewrite sortedMessagesOf_ids.
Qed.

Lemma sortedMessagesOf_sorted messages :
  StronglySorted (fun a b => msg_timestamp (msg a) <= msg_timestamp (msg b))
    (sortedMessagesOf messages).
Proof.
  eapply StronglySorted_weaken; [|apply js_sort_sorted].
  - unfold byIndexedTimestamp. intros a b. simpl. lia.
  - unfold byIndexedTimestamp. intros a b. lia.
  - unfold byIndexedTimestamp. intros a b c. lia.
Qed.

Lemma sortedMessagesOf_perm messages :
  msg <$> sortedMessagesOf messages ≡ₚ messages.
Proof.
  unfold sortedMessagesOf. rewrite js_sort_perm, fmap_imap.
  rewrite <- (list_fmap_id messages) at 2. rewrite <- (imap_const id messages).
  by rewrite (imap_ext _ (const id) messages).
Qed.




(** C5, a run of the theorem on [twoBursts], which yields two threads. *)
Lemma detectThreads_wellformed_witness :
  let found := detectThreads twoBursts defaultWindow in
  Forall (fun t => (3 <= messageCount t)%nat /\
                   messageCount t = length (thread_messages t) /\
                   (1 <= length (participants t))%nat) found /\
  (forall a b ta tb mid,
     a ≠ b -> found !! a = Some ta -> found !! b = Some tb ->
     mid ∈ thread_messages ta -> mid ∉ thread_messages tb) /\
  ((length twoBursts < 3)%nat -> found = []).
Proof.
  apply (detectThreads_wellformed twoBursts defaultWindow).
  apply (bool_decide_unpack (NoDup (msg_id <$> twoBursts))). vm_compute. exact I.
Defined.

Example twoBursts_threads :
  thread_messages <$> detectThreads twoBursts defaultWindow =
  [ ["b0"; "b1"; "b2"]; ["b3"; "b4"; "b5"] ].
Proof. vm_compute. reflexivity. Qed.

(** Scenario E of the specification. *)
Example scenarioE_thread :
  detectThreads scenarioE defaultWindow =
  [ mkThread "thread-0" ["Carl"] 3 0 20000 ["c1"; "c2"; "c3"] ].
Proof. vm_compute. reflexivity. Qed.

(** C2 (the code departs from the claim).  On [shortGroup] the seed at
    position 0 gathers only the message at position 1: no thread is emitted,
    yet position 1 is marked processed.  That message then never seeds a
    thread, and no thread is found, although it and the two messages after it
    lie within one window and form a thread when given alone. *)
Theorem short_group_is_marked_processed :
  let afterSeed0 := loopAt shortGroup defaultWindow 1 in
  threads afterSeed0 = [] /\
  elements (processedIndices afterSeed0) = [1%nat] /\
  detectThreads shortGroup defaultWindow = [] /\
  thread_messages <$> detectThreads (drop 1 shortGroup) defaultWindow
    = [ ["s1"; "s2"; "s3"] ].
Proof. cbv zeta. repeat split; vm_compute; reflexivity. Qed.

(** ** Host identification *)

Lemma Q_of_nat_gt_max c n :
  Qgt_bool (Q_of_nat c) (Qmax 5 (Q_of_nat n / 100)) = true <->
  (5 < c)%nat /\ (n < 100 * c)%nat.
Proof.
  rewrite Qgt_bool_iff. unfold Qmax.
  assert (H100 : (Q_of_nat n / 100 < Q_of_nat c)%Q <-> (n < 100 * c)%nat).
  { unfold Qlt, Qdiv, Qmult, Qinv, Q_of_nat, inject_Z. cbn.
    change (Z.pos (1 * 100)) with 100. lia. }
  assert (H5 : (5 < Q_of_nat c)%Q <-> (5 < c)%nat).
  { unfold Qlt, Q_of_nat, inject_Z. cbn. lia. }
  destruct (Qle_bool 5 (Q_of_nat n / 100)) eqn:E.
  - apply Qle_bool_iff in E. rewrite H100. split; [|tauto].
    intros H. split; [|done]. apply H5. eapply Qle_lt_trans; [exact E|]. by apply H100.
  - assert (E' : (Q_of_nat n / 100 < 5)%Q).
    { apply Qgt_bool_iff. unfold Qgt_bool. by rewrite E. }
    rewrite H5. split; [|tauto].
    intros H. split; [done|]. apply H100.
    eapply Qlt_trans; [exact E'|]. by apply H5.
Qed.

Lemma Q_of_nat_gt_5pct c n :
  Qgt_bool (Q_of_nat c) (Q_of_nat n * (5 # 100)) = true <-> (n < 20 * c)%nat.
Proof.
  rewrite Qgt_bool_iff.
  unfold Qlt, Qmult, Q_of_nat, inject_Z. cbn.
  change (Z.pos (1 * 100)) with 100. lia.
Qed.

Lemma find_first {A} (p : A -> bool) pre x post :
  Forall (fun y => p y = false) pre -> p x = true ->
  List.find p (pre ++ x :: post) = Some x.
Proof.
  intros Hpre Hx. induction Hpre as [|y pre Hy _ IH]; simpl.
  - by rewrite Hx.
  - by rewrite Hy.
Qed.

Lemma find_none_Forall {A} (p : A -> bool) l :
  Forall (fun y => p y = false) l -> List.find p l = None.
Proof.
  induction 1 as [|y l Hy _ IH]; simpl; [done|]. by rewrite Hy.
Qed.

Lemma isActiveModerator_iff messages m :
  isActiveModerator messages m = true <-> activeModerator messages m.
Proof.
  unfold isActiveModerator, activeModerator.
  rewrite andb_true_iff. cbv zeta. by rewrite Q_of_nat_gt_max.
Qed.

Lemma authorCount_snoc a seen z :
  authorCount a (seen ++ [z]) =
  (authorCount a seen + if decide (msg_author z = a) then 1 else 0)%nat.
Proof.
  unfold authorCount. rewrite filter_app, length_app. f_equal.
  rewrite filter_cons, filter_nil. by destruct (decide _).
Qed.

Lemma authorCount_pos y seen :
  y ∈ seen -> (0 < authorCount (msg_author y) seen)%nat.
Proof.
  intros Hy. unfold authorCount.
  assert (Hin : y ∈ filter (fun m => msg_author m = msg_author y) seen).
  { by apply list_elem_of_filter. }
  destruct (filter _ seen); [by apply elem_of_nil in Hin|simpl; lia].
Qed.

Lemma countsInv_step m seen z :
  countsInv m seen ->
  countsInv (map_set (msg_author z)
               (default 0%nat (map_get (msg_author z) m) + 1)%nat m)
            (seen ++ [z]).
Proof.
  intros (Hnd & Hcount & Hord). set (b := msg_author z).
  split; [by apply map_set_NoDup|]. split.
  - intros a. rewrite authorCount_snoc. fold b.
    destruct (decide (b = a)) as [<-|Hne].
    + rewrite map_get_set_eq. specialize (Hcount b).
      destruct (map_get b m) as [c|]; simpl; lia.
    + rewrite map_get_set_ne by done. specialize (Hcount a).
      destruct (map_get a m) as [c|]; lia.
  - rewrite map_set_keys. intros K1 a K2 HK.
    destruct (map_has b m) eqn:Hhas.
    + destruct (Hord K1 a K2 HK) as (pre & x & post & -> & Hx & Hpre).
      exists pre, x, (post ++ [z]). by rewrite <- app_assoc.
    + destruct K2 as [|k K2 _] using rev_ind.
      * apply app_inj_tail in HK as [HK1 HKa]. subst K1 a.
        exists seen, z, []. split; [done|]. split; [done|].
        apply Forall_forall. intros y Hy.
        apply authorCount_pos in Hy. specialize (Hcount (msg_author y)).
        destruct (map_get (msg_author y) m) eqn:E; [|lia].
        apply map_get_elem_of in E. apply list_elem_of_fmap. by eexists (_, _).
      * rewrite app_comm_cons, app_assoc in HK. apply app_inj_tail in HK as [HK _].
        destruct (Hord K1 a K2 HK) as (pre & x & post & -> & Hx & Hpre).
        exists pre, x, (post ++ [z]). by rewrite <- app_assoc.
Qed.

Lemma countAuthors_inv messages : countsInv (countAuthors messages) messages.
Proof.
  unfold countAuthors.
  induction messages as [|z seen IH] using rev_ind.
  - split; [constructor|]. split; [done|].
    intros K1 a K2 HK. by destruct K1.
  - rewrite foldl_app. simpl. by apply countsInv_step.
Qed.

Lemma mostActive_from acc m :
  let r := foldl mostActiveStep acc m in
  (r = acc /\ Forall (fun e => (e.2 <= acc.2)%nat) m) \/
  (exists m1 m2, m = m1 ++ r :: m2 /\ (acc.2 < r.2)%nat /\
                 Forall (fun e => (e.2 < r.2)%nat) m1 /\
                 Forall (fun e => (e.2 <= r.2)%nat) m2).
Proof.
  revert acc. induction m as [|x m IH]; intros acc; cbv zeta; simpl.
  - left. by split.
  - destruct acc as [a0 c0], x as [a c]. simpl.
    destruct (Nat.ltb_spec c0 c) as [Hlt|Hge].
    + destruct (IH (a, c)) as [[Hr Hall]|(m1 & m2 & Hm & Hacc & H1 & H2)].
      * right. exists [], m. rewrite Hr. simpl. repeat split; [lia|constructor|done].
      * right. exists ((a, c) :: m1), m2. simpl in *. rewrite Hm at 1.
        repeat split; [lia| |done]. constructor; [simpl; lia|done].
    + destruct (IH (a0, c0)) as [[Hr Hall]|(m1 & m2 & Hm & Hacc & H1 & H2)].
      * left. split; [done|]. constructor; [simpl; lia|done].
      * right. exists ((a, c) :: m1), m2. simpl in *. rewrite Hm at 1.
        repeat split; [lia| |done]. constructor; [simpl; lia|done].
Qed.

Lemma countAuthors_entry messages a c :
  (a, c) ∈ countAuthors messages -> c = authorCount a messages /\ (0 < c)%nat.
Proof.
  intros Hin. destruct (countAuthors_inv messages) as (Hnd & Hcount & _).
  specialize (Hcount a). by rewrite (elem_of_map_get _ _ _ Hnd Hin) in Hcount.
Qed.

Lemma countAuthors_author messages y :
  y ∈ messages ->
  (msg_author y, authorCount (msg_author y) messages) ∈ countAuthors messages.
Proof.
  intros Hy. destruct (countAuthors_inv messages) as (_ & Hcount & _).
  specialize (Hcount (msg_author y)). apply authorCount_pos in Hy.
  destruct (map_get (msg_author y) (countAuthors messages)) as [c|] eqn:E; [|lia].
  destruct Hcount as [-> _]. by apply map_get_elem_of.
Qed.

(** Two ways of splitting one list around an element: the earlier element
    lies in the prefix of the later one. *)
Lemma split_compare {A} (pre pre' post post' : list A) x x' :
  pre ++ x :: post = pre' ++ x' :: post' ->
  x ∈ pre' \/ (pre = pre' /\ x = x') \/ x' ∈ pre.
Proof.
  intros H.
  assert (Hx : (pre ++ x :: post) !! length pre = Some x)
    by (by apply list_lookup_middle).
  assert (Hx' : (pre' ++ x' :: post') !! length pre' = Some x')
    by (by apply list_lookup_middle).
  destruct (Nat.lt_total (length pre) (length pre')) as [Hlt|[Heq|Hgt]].
  - left. rewrite H, lookup_app_l in Hx by done. by eapply list_elem_of_lookup_2.
  - right. left. apply app_inj_1 in H as [-> [= -> _]]; done.
  - right. right. rewrite <- H, lookup_app_l in Hx' by done.
    by eapply list_elem_of_lookup_2.
Qed.

(** The fallback of [identifyHost]: the first author, in order of first
    appearance, among those with the highest message count, provided that
    count exceeds 5% of the messages. *)
Lemma identifyHost_fallback messages manualHostName a :
  truthy manualHostName = false ->
  List.find (hasBadge "owner") messages = None ->
  List.find (isActiveModerator messages) messages = None ->
  identifyHost messages manualHostName = Some a <->
  firstMostActive messages a /\
  (length messages < 20 * authorCount a messages)%nat.
Proof.
  intros Hmanual Howner Hmod. unfold identifyHost.
  rewrite Hmanual, Howner, Hmod.
  destruct (countAuthors_inv messages) as (Hnd & Hcount & Hord).
  remember (countAuthors messages) as m eqn:Em.
  destruct (length m =? 0)%nat eqn:Hlen.
  { apply Nat.eqb_eq, nil_length_inv in Hlen. split; [done|].
    intros [(pre & x & post & Hmsg & _) _]. exfalso.
    assert (Hx : x ∈ messages) by (rewrite Hmsg; set_solver).
    apply countAuthors_author in Hx. rewrite <- Em, Hlen in Hx.
    by apply elem_of_nil in Hx. }
  apply Nat.eqb_neq in Hlen. unfold mostActive.
  destruct (mostActive_from ("", 0%nat) m) as [[_ Hall]|(m1 & m2 & Hm & _ & H1 & H2)].
  { exfalso. destruct m as [|[k c] m']; [done|].
    apply Forall_cons in Hall as [Hc _]. simpl in Hc.
    assert (Hin : (k, c) ∈ countAuthors messages) by (rewrite <- Em; left).
    apply countAuthors_entry in Hin. lia. }
  destruct (foldl mostActiveStep ("", 0%nat) m) as [top mx]. simpl in *.
  assert (Htop : mx = authorCount top messages).
  { apply (countAuthors_entry messages top mx). rewrite <- Em, Hm. set_solver. }
  assert (Hkeys : m.*1 = m1.*1 ++ top :: m2.*1) by (by rewrite Hm, fmap_app).
  destruct (Hord _ _ _ Hkeys) as (pre_t & x_t & post_t & Hmsg_t & Hx_t & Hpre_t).
  assert (Hle : forall y, y ∈ messages ->
                  (authorCount (msg_author y) messages <= mx)%nat).
  { intros y Hy. apply countAuthors_author in Hy. rewrite <- Em, Hm in Hy.
    apply elem_of_app in Hy as [Hy|Hy].
    - apply (proj1 (Forall_forall _ _) H1) in Hy. simpl in Hy. lia.
    - apply elem_of_cons in Hy as [[= _ ->]|Hy]; [done|].
      by apply (proj1 (Forall_forall _ _) H2) in Hy. }
  assert (Hlt : forall y, msg_author y ∈ m1.*1 ->
                  (authorCount (msg_author y) messages < mx)%nat).
  { intros y Hy. apply list_elem_of_fmap in Hy as ([k c] & Hk & Hin). simpl in Hk.
    subst k. assert (Hc := proj1 (Forall_forall _ _) H1 _ Hin). simpl in Hc.
    assert (Hin' : (msg_author y, c) ∈ countAuthors messages).
    { rewrite <- Em, Hm. set_solver. }
    apply countAuthors_entry in Hin' as [<- _]. done. }
  rewrite Hkeys in Hnd. apply NoDup_app in Hnd as (_ & Hnd1 & Hnd2).
  apply NoDup_cons in Hnd2 as [Htop2 _].
  split.
  - destruct (Qgt_bool _ _) eqn:Hq; [|done]. intros [= <-].
    apply Q_of_nat_gt_5pct in Hq. split; [|lia].
    exists pre_t, x_t, post_t. split; [done|]. split; [done|]. split.
    + apply Forall_forall. intros y Hy. rewrite <- Htop. apply Hlt.
      by apply (proj1 (Forall_forall _ _) Hpre_t).
    + apply Forall_forall. intros y Hy. rewrite <- Htop. by apply Hle.
  - intros [(pre & x & post & Hmsg & Hx & Hpre & Hall) Hbig].
    assert (Hxin : x ∈ messages) by (rewrite Hmsg; set_solver).
    assert (Htin : x_t ∈ messages) by (rewrite Hmsg_t; set_solver).
    assert (Hta : (mx <= authorCount a messages)%nat).
    { rewrite Htop, <- Hx_t. by apply (proj1 (Forall_forall _ _) Hall). }
    assert (Hat : (authorCount a messages <= mx)%nat).
    { rewrite <- Hx. by apply Hle. }
    assert (a = top) as ->.
    { destruct (decide (a = top)) as [|Hne]; [done|]. exfalso.
      rewrite Hmsg in Hmsg_t.
      destruct (split_compare _ _ _ _ _ _ Hmsg_t) as [Hin|[[_ Heq]|Hin]].
      - apply (proj1 (Forall_forall _ _) Hpre_t) in Hin.
        apply Hlt in Hin. rewrite Hx in Hin. lia.
      - subst x_t. congruence.
      - apply (proj1 (Forall_forall _ _) Hpre) in Hin. rewrite Hx_t in Hin. lia. }
    assert (Hq : Qgt_bool (Q_of_nat mx) (Q_of_nat (length messages) * (5 # 100)) = true).
    { apply Q_of_nat_gt_5pct. lia. }
    by rewrite Hq.
Qed.

Lemma Forall_false_not {A} (p : A -> bool) (P : A -> Prop) l :
  (forall x, p x = true <-> P x) ->
  Forall (fun x => ~ P x) l -> Forall (fun x => p x = false) l.
Proof.
  intros Hp Hl. eapply Forall_impl; [exact Hl|]. intros x Hx.
  destruct (p x) eqn:E; [|done]. by apply Hp in E.
Qed.

(** C4 (amended).  [identifyHost] follows the priority order: a non-empty
    manual name is returned verbatim; otherwise the author of the first
    message with an owner badge; otherwise the author of the first message
    with a moderator badge whose author has more than max(5, n/100)
    messages; otherwise the author of the first message whose author has the
    highest message count (so, on a tie, the tied author seen first),
    accepted only if that count exceeds 5% of the messages.  When no host is
    identified the orchestrator reports "Unknown Host". *)
Theorem identifyHost_priority messages manualHostName :
  (forall name, manualHostName = Some name -> name ≠ "" ->
     identifyHost messages manualHostName = Some name) /\
  (truthy manualHostName = false ->
   forall pre m post,
     messages = pre ++ m :: post ->
     Forall (fun x => hasBadge "owner" x = false) pre ->
     hasBadge "owner" m = true ->
     identifyHost messages manualHostName = Some (msg_author m)) /\
  (truthy manualHostName = false ->
   Forall (fun x => hasBadge "owner" x = false) messages ->
   forall pre m post,
     messages = pre ++ m :: post ->
     Forall (fun x => ~ activeModerator messages x) pre ->
     activeModerator messages m ->
     identifyHost messages manualHostName = Some (msg_author m)) /\
  (truthy manualHostName = false ->
   Forall (fun x => hasBadge "owner" x = false) messages ->
   Forall (fun x => ~ activeModerator messages x) messages ->
   forall a,
     identifyHost messages manualHostName = Some a <->
     firstMostActive messages a /\
     (length messages < 20 * authorCount a messages)%nat) /\
  (identifyHost messages manualHostName = None ->
   hostNameOf messages manualHostName = "Unknown Host").
Proof.
  split; [|split; [|split; [|split]]].
  - intros name -> Hname. unfold identifyHost. simpl.
    by rewrite bool_decide_eq_false_2.
  - intros Hmanual pre m post -> Hpre Hm. unfold identifyHost.
    by rewrite Hmanual, (find_first _ pre m post Hpre Hm).
  - intros Hmanual Hnone pre m post Hmsg Hpre Hm. unfold identifyHost.
    rewrite Hmanual, (find_none_Forall _ _ Hnone).
    apply isActiveModerator_iff in Hm.
    apply (Forall_false_not (isActiveModerator messages)) in Hpre;
      [|apply isActiveModerator_iff].
    rewrite Hmsg at 2. by rewrite (find_first _ pre m post Hpre Hm).
  - intros Hmanual Hnone Hmod a.
    apply identifyHost_fallback; [done|by apply find_none_Forall|].
    apply find_none_Forall.
    by apply (Forall_false_not _ (activeModerator messages));
      [apply isActiveModerator_iff|].
  - intros Hnone. unfold hostNameOf. by rewrite Hnone.
Qed.

(** C4, runs of the theorem: a manual name, Scenario B (owner badge), an
    active moderator, and the fallback on a tie. *)
Lemma identifyHost_priority_witness :
  identifyHost tied (Some "Dana") = Some "Dana" /\
  identifyHost ownerAmong None = Some "Alice" /\
  identifyHost moderated (Some "") = Some "Mo" /\
  (identifyHost tied None = Some "Ann" <->
   firstMostActive tied "Ann" /\ (length tied < 20 * authorCount "Ann" tied)%nat).
Proof.
  split; [|split; [|split]].
  - apply (proj1 (identifyHost_priority tied (Some "Dana"))); [reflexivity|done].
  - apply (proj1 (proj2 (identifyHost_priority ownerAmong None)) eq_refl
             (take 7 ownerAmong)
             (mkChatMessage "o7" "Alice" "welcome" 7000 "" (Some ["owner"]) None)
             (drop 8 ownerAmong)).
    + reflexivity.
    + apply (bool_decide_unpack (Forall _ _)). vm_compute. exact I.
    + reflexivity.
  - apply (proj1 (proj2 (proj2 (identifyHost_priority moderated (Some "")))) eq_refl)
      with (pre := take 1 moderated) (post := drop 2 moderated)
           (m := mkChatMessage "d1" "Mo" "hello" 1000 "" (Some ["member"; "moderator"]) None).
    + apply (bool_decide_unpack (Forall _ _)). vm_compute. exact I.
    + reflexivity.
    + repeat constructor. intros (Hbadge & _). vm_compute in Hbadge. discriminate.
    + split; [reflexivity|]. vm_compute. lia.
  - apply (proj1 (proj2 (proj2 (proj2 (identifyHost_priority tied None)))) eq_refl).
    + apply (bool_decide_unpack (Forall _ _)). vm_compute. exact I.
    + repeat constructor; intros (Hbadge & _); vm_compute in Hbadge; discriminate.
Defined.

(** C4, the claim as worded fails on a tie: in [tied] two authors without
    badges have one message each, and the first of them is identified. *)
Lemma identifyHost_tie_identifies_host :
  Forall (fun m => msg_badges m = None) tied /\
  authorCount "Ann" tied = authorCount "Ben" tied /\
  (forall a, (authorCount a tied <= authorCount "Ann" tied)%nat) /\
  identifyHost tied None = Some "Ann" /\
  hostNameOf tied None = "Ann".
Proof.
  split; [repeat constructor|]. split; [reflexivity|].
  split; [|split; reflexivity].
  intros a. unfold authorCount, tied. rewrite !filter_cons, filter_nil. simpl.
  repeat destruct (decide _); simpl; try lia; congruence.
Qed.

(** ** The orchestrator and the arrays it touches *)

Lemma readArr_spec (s : Store) r l : s !! r = Some l -> readArr r s = (l, s).
Proof. intros H. unfold readArr. by rewrite H. Qed.

Lemma sort_fresh (s : Store) cmp l :
  alter (js_sort cmp) (length s) (s ++ [l]) = s ++ [js_sort cmp l].
Proof.
  rewrite <- (Nat.add_0_r (length s)) at 1. by rewrite alter_app_r.
Qed.

Lemma read_fresh (s : Store) l : (s ++ [l]) !! length s = Some l.
Proof. by apply list_lookup_middle. Qed.

Lemma returns_ret {A} (v : A) r msgs : returns (mret v) r msgs v.
Proof. intros s _. by exists s. Qed.

Lemma returns_bind {A B} (m : M A) (k : A -> M B) r msgs v w :
  returns m r msgs v -> returns (k v) r msgs w -> returns (m ≫= k) r msgs w.
Proof.
  intros Hm Hk s Hs. destruct (Hm s Hs) as (s1 & Em & Hpre1).
  destruct (Hk s1) as (s2 & Ek & Hpre2).
  { by eapply prefix_lookup_Some. }
  exists s2. split; [|by etrans].
  unfold mbind, M_bind. by rewrite Em.
Qed.

Lemma returns_read r msgs : returns (readArr r) r msgs msgs.
Proof. intros s Hs. exists s. split; [by apply readArr_spec|done]. Qed.

Lemma findAnswersM_returns question r hostName w msgs :
  returns (findAnswersM question r hostName w) r msgs
    (findAnswers question msgs hostName w).
Proof.
  intros s Hs. unfold findAnswersM, mbind, M_bind.
  rewrite (readArr_spec _ _ _ Hs). unfold allocArr, sortArr.
  rewrite sort_fresh. rewrite (readArr_spec _ _ _ (read_fresh _ _)).
  eexists. split; [reflexivity|]. by apply prefix_app_r.
Qed.

Lemma foldM_returns {A B} (f : A -> B -> M A) (g : A -> B -> A) r msgs l a :
  (forall a x, returns (f a x) r msgs (g a x)) ->
  returns (foldM f a l) r msgs (foldl g a l).
Proof.
  intros Hf. revert a. induction l as [|x l IH]; intros a; simpl.
  - apply returns_ret.
  - eapply returns_bind; [apply Hf|apply IH].
Qed.

Lemma extractHostQuestionsM_returns r hostName w msgs :
  returns (extractHostQuestionsM r hostName w) r msgs
    (extractHostQuestions msgs hostName w).
Proof.
  unfold extractHostQuestionsM, extractHostQuestions.
  eapply returns_bind; [apply returns_read|]. cbv zeta.
  apply foldM_returns. intros hostQuestions m.
  destruct (detectQuestions (msg_message m)); [|apply returns_ret].
  eapply returns_bind; [apply findAnswersM_returns|]. apply returns_ret.
Qed.

Lemma calculateKeywordTrendsM_returns r keywords msgs :
  returns (calculateKeywordTrendsM r keywords) r msgs
    (calculateKeywordTrends msgs keywords).
Proof.
  intros s Hs. unfold calculateKeywordTrendsM, calculateKeywordTrends, mbind, M_bind.
  rewrite (readArr_spec _ _ _ Hs).
  destruct (length msgs <? 2)%nat; [by exists s|].
  unfold allocArr, sortArr.
  rewrite sort_fresh. rewrite (readArr_spec _ _ _ (read_fresh _ _)).
  eexists. split; [reflexivity|]. by apply prefix_app_r.
Qed.

(** The store-passing orchestrator returns the value [analyzeEngagement]
    and leaves every array that existed before the call as it was. *)
Lemma analyzeEngagementM_returns r hostIdentifier useAI msgs :
  returns (analyzeEngagementM r hostIdentifier useAI) r msgs
    (analyzeEngagement msgs hostIdentifier useAI).
Proof.
  intros s Hs. unfold analyzeEngagementM, analyzeEngagement.
  unfold mbind at 1, M_bind at 1. rewrite (readArr_spec _ _ _ Hs).
  destruct (length msgs =? 0)%nat; [by exists s|]. cbv zeta.
  set (hostName := hostNameOf msgs hostIdentifier).
  set (flagged := flagHostMessages msgs hostName).
  unfold mbind at 1, M_bind at 1, allocArr at 1.
  set (s1 := s ++ [flagged]).
  assert (H1 : s1 !! length s = Some flagged) by apply read_fresh.
  destruct (extractHostQuestionsM_returns (length s) hostName defaultWindow flagged s1 H1)
    as (s2 & E2 & P2).
  unfold mbind at 1, M_bind at 1. rewrite E2.
  assert (H2 : s2 !! length s = Some flagged) by (by eapply prefix_lookup_Some).
  unfold mbind at 1, M_bind at 1. rewrite (readArr_spec _ _ _ H2).
  destruct (calculateKeywordTrendsM_returns (length s) (extractKeywords flagged) flagged s2 H2)
    as (s3 & E3 & P3).
  unfold mbind at 1, M_bind at 1. rewrite E3.
  assert (H3 : s3 !! length s = Some flagged) by (by eapply prefix_lookup_Some).
  unfold mbind at 1, M_bind at 1. rewrite (readArr_spec _ _ _ H3).
  eexists. split; [reflexivity|].
  etrans; [|exact P3]. etrans; [|exact P2]. by apply prefix_app_r.
Qed.

(** C9.  With augmentation disabled the orchestrator is deterministic and
    does not mutate its input: two successive runs on the array at location
    [messages] return the same analysis, which is a function of the array's
    content alone, and after each run that array, as every array that
    existed before, is unchanged. *)
Theorem analyzeEngagement_deterministic (s : Store) messages msgs hostIdentifier useAI :
  s !! messages = Some msgs ->
  let '(first, s1) := analyzeEngagementM messages hostIdentifier useAI s in
  let '(second, s2) := analyzeEngagementM messages hostIdentifier useAI s1 in
  first = second /\
  first = analyzeEngagement msgs hostIdentifier useAI /\
  s1 !! messages = Some msgs /\
  s2 !! messages = Some msgs /\
  s `prefix_of` s1 /\ s1 `prefix_of` s2.
Proof.
  intros Hs.
  destruct (analyzeEngagementM_returns messages hostIdentifier useAI msgs s Hs)
    as (s1 & E1 & P1).
  rewrite E1.
  assert (Hs1 : s1 !! messages = Some msgs) by (by eapply prefix_lookup_Some).
  destruct (analyzeEngagementM_returns messages hostIdentifier useAI msgs s1 Hs1)
    as (s2 & E2 & P2).
  rewrite E2.
  assert (Hs2 : s2 !! messages = Some msgs) by (by eapply prefix_lookup_Some).
  done.
Qed.

(** C9, a run of the theorem on a store that holds [scenarioD]. *)
Lemma analyzeEngagement_deterministic_witness :
  let '(first, s1) := analyzeEngagementM 0 None None [scenarioD] in
  let '(second, s2) := analyzeEngagementM 0 None None s1 in
  first = second /\
  first = analyzeEngagement scenarioD None None /\
  s1 !! 0%nat = Some scenarioD /\
  s2 !! 0%nat = Some scenarioD /\
  [scenarioD] `prefix_of` s1 /\ s1 `prefix_of` s2.
Proof.
  apply (analyzeEngagement_deterministic [scenarioD] 0 scenarioD None None).
  reflexivity.
Defined.

(** * Further properties of the code *)

(** ** Answerer statistics *)

Lemma sum_map_set {V} (g : V -> nat) k v (m : list (string * V)) :
  (sum_list ((fun e => g e.2) <$> map_set k v m)
   + default 0 (g <$> map_get k m) =
   sum_list ((fun e => g e.2) <$> m) + g v)%nat.
Proof.
  induction m as [|[k' v'] m IH]; csimpl; [lia|].
  destruct (decide (k = k')) as [->|Hne]; csimpl; lia.
Qed.

Lemma sumTimes_snoc author l a :
  sumTimes author (l ++ [a]) =
  if decide (ans_author a = author)
  then (sumTimes author l + responseTimeSeconds a)%Q else sumTimes author l.
Proof.
  unfold sumTimes. rewrite filter_app, filter_cons, filter_nil.
  destruct (decide _); [|by rewrite app_nil_r].
  by rewrite fmap_app, foldl_app.
Qed.

Lemma answersBy_zero_sumTimes author l :
  answersBy author l = 0%nat -> sumTimes author l = 0%Q.
Proof.
  unfold answersBy, sumTimes. intros H. by apply nil_length_inv in H as ->.
Qed.

Lemma collectAnswer_statsDetail messages m seen a :
  statsInv m seen -> statsDetail messages m seen ->
  statsDetail messages (collectAnswer messages m a) (seen ++ [a]).
Proof.
  intros [Hnd Hcount] (Hkeys & Hdetail & Hsum). unfold collectAnswer.
  set (author := ans_author a).
  set (fresh := mkStats 0 0 (length (filter _ messages))).
  set (m1 := if map_has author m then m else map_set author fresh m).
  assert (Hother : forall k, k ≠ author -> map_get k m1 = map_get k m).
  { intros k Hk. subst m1. destruct (map_has author m); [done|].
    by apply map_get_set_ne. }
  assert (Hself : exists st, map_get author m1 = Some st /\
            totalResponseTime st = sumTimes author seen /\
            respondentMessages st = authorCount author messages /\
            sum_list ((fun e => answersCount e.2) <$> m1) = length seen /\
            m1.*1 ⊆ author :: m.*1).
  { subst m1. unfold map_has. destruct (map_get author m) as [st|] eqn:E.
    - exists st. destruct (Hdetail _ _ E). repeat split; try done. set_solver.
    - exists fresh. rewrite map_get_set_eq. split; [done|].
      specialize (Hcount author). rewrite E in Hcount.
      split; [by rewrite answersBy_zero_sumTimes|]. split; [done|]. split.
      + pose proof (sum_map_set answersCount author fresh m) as Hs.
        rewrite E in Hs. simpl in Hs. lia.
      + rewrite map_set_keys. unfold map_has. rewrite E. set_solver. }
  destruct Hself as (st & Hget & Htot & Hresp & Hsum1 & Hsub). rewrite Hget.
  split; [|split].
  - intros k Hk. rewrite map_set_keys in Hk.
    assert (Hhas : map_has author m1 = true).
    { unfold map_has. by rewrite Hget. }
    rewrite Hhas in Hk. rewrite fmap_app. apply elem_of_app.
    apply Hsub in Hk. apply elem_of_cons in Hk as [->|Hk].
    + right. set_solver.
    + left. by apply Hkeys.
  - intros k st' Hk. rewrite sumTimes_snoc. fold author.
    destruct (decide (author = k)) as [<-|Hne].
    + rewrite map_get_set_eq in Hk. injection Hk as <-. simpl.
      by rewrite Htot.
    + rewrite map_get_set_ne in Hk by done. rewrite Hother in Hk by done.
      by apply Hdetail.
  - pose proof (sum_map_set answersCount author
                  (mkStats (answersCount st + 1)
                     (totalResponseTime st + responseTimeSeconds a)
                     (respondentMessages st)) m1) as Hs.
    rewrite Hget in Hs. simpl in Hs. rewrite length_app. simpl. lia.
Qed.

Lemma collectStats_statsDetail hostQuestions messages :
  statsDetail messages (collectStats hostQuestions messages) (allAnswers hostQuestions).
Proof.
  rewrite collectStats_flat.
  assert (H : statsInv (foldl (collectAnswer messages) [] (allAnswers hostQuestions))
                (allAnswers hostQuestions) /\
              statsDetail messages
                (foldl (collectAnswer messages) [] (allAnswers hostQuestions))
                (allAnswers hostQuestions)); [|by destruct H].
  induction (allAnswers hostQuestions) as [|a l IH] using rev_ind.
  - split; [split; [constructor|done]|].
    split; [intros k Hk; by apply elem_of_nil in Hk|]. split; [done|done].
  - rewrite foldl_app. simpl. destruct IH as [IH1 IH2]. split.
    + by apply collectAnswer_statsInv.
    + by apply collectAnswer_statsDetail.
Qed.

Lemma answersBy_pos author l :
  author ∈ ans_author <$> l -> (1 <= answersBy author l)%nat.
Proof.
  intros H. apply list_elem_of_fmap in H as (a & -> & Ha). unfold answersBy.
  assert (Hin : a ∈ filter (fun x => ans_author x = ans_author a) l).
  { by apply list_elem_of_filter. }
  destruct (filter _ l); [by apply elem_of_nil in Hin|simpl; lia].
Qed.

Lemma rankQuestionAnswerers_authors hostQuestions messages :
  qa_author <$> rankQuestionAnswerers hostQuestions messages ≡ₚ
  (collectStats hostQuestions messages).*1.
Proof.
  unfold rankQuestionAnswerers. rewrite js_sort_perm, <- list_fmap_compose.
  erewrite list_fmap_ext; [reflexivity|]. by intros _ [k st] _.
Qed.

Lemma byHelpfulnessDesc_sorted l :
  StronglySorted (fun a b => helpfulnessScore b <= helpfulnessScore a)
    (js_sort byHelpfulnessDesc l).
Proof.
  eapply StronglySorted_weaken; [|apply js_sort_sorted].
  - unfold byHelpfulnessDesc. intros a b. simpl. lia.
  - unfold byHelpfulnessDesc. intros a b. lia.
  - unfold byHelpfulnessDesc. intros a b c. lia.
Qed.

Lemma collectStats_keys hostQuestions messages author :
  author ∈ (collectStats hostQuestions messages).*1 <->
  author ∈ ans_author <$> allAnswers hostQuestions.
Proof.
  destruct (collectStats_statsInv hostQuestions messages) as [_ Hcount].
  destruct (collectStats_statsDetail hostQuestions messages) as (Hkeys & _).
  split; [apply Hkeys|]. intros Hin. apply answersBy_pos in Hin.
  specialize (Hcount author).
  destruct (map_get author (collectStats hostQuestions messages)) eqn:E; [|lia].
  apply map_get_elem_of in E. apply list_elem_of_fmap. by eexists (_, _).
Qed.

(** X1.  [rankQuestionAnswerers] returns one entry per distinct author of an
    answer, in order of non-increasing helpfulness score; every entry has
    at least one answer and the answer counts add up to the number of
    answers of all questions. *)
Theorem rankQuestionAnswerers_ranking hostQuestions messages :
  let ranked := rankQuestionAnswerers hostQuestions messages in
  StronglySorted (fun a b => helpfulnessScore b <= helpfulnessScore a) ranked /\
  NoDup (qa_author <$> ranked) /\
  (forall author,
     author ∈ qa_author <$> ranked <->
     author ∈ ans_author <$> concat (answers <$> hostQuestions)) /\
  Forall (fun qa => (1 <= questionsAnswered qa)%nat) ranked /\
  sum_list (questionsAnswered <$> ranked) = length (concat (answers <$> hostQuestions)).
Proof.
  cbv zeta. split; [apply byHelpfulnessDesc_sorted|].
  split; [|split; [|split]].
  - rewrite rankQuestionAnswerers_authors.
    by destruct (collectStats_statsInv hostQuestions messages).
  - intros author. rewrite rankQuestionAnswerers_authors. apply collectStats_keys.
  - pose proof (questionsAnswered_counts_answers hostQuestions messages) as Hc.
    apply Forall_forall. intros qa Hqa.
    rewrite (proj1 (Forall_forall _ _) Hc qa Hqa).
    apply answersBy_pos. apply (proj1 (collectStats_keys _ messages _)).
    rewrite <- rankQuestionAnswerers_authors. apply list_elem_of_fmap. eauto.
  - destruct (collectStats_statsDetail hostQuestions messages) as (_ & _ & Hsum).
    unfold allAnswers in Hsum. rewrite <- Hsum.
    unfold rankQuestionAnswerers. rewrite js_sort_perm, <- list_fmap_compose.
    f_equal. apply list_fmap_ext. by intros _ [k st] _.
Qed.

(** The fields of an answerer in exact arithmetic: the mean of the
    author's response times and the rounded weighted sum of the three
    terms. *)
Lemma answerer_exact hostQuestions messages :
  Forall (fun qa =>
            let mine := filter (fun a => ans_author a = qa_author qa)
                               (concat (answers <$> hostQuestions)) in
            questionsAnswered qa = length mine /\
            averageResponseTime qa =
              (foldl Qplus 0 (responseTimeSeconds <$> mine)
               / Q_of_nat (length mine))%Q /\
            helpfulnessScore qa =
              Math_round
                (Qmin 100 (Q_of_nat (length mine)
                           / Q_of_nat (Nat.max 1 (authorCount (qa_author qa) messages))
                           * 100) * (4 # 10)
                 + Qmax 0 (100 - averageResponseTime qa / 60 * 10) * (4 # 10)
                 + Q_of_nat (length mine) / Q_of_nat (length hostQuestions) * 100
                   * (2 # 10)))
         (rankQuestionAnswerers hostQuestions messages).
Proof.
  apply Forall_forall. intros qa Hqa. cbv zeta.
  assert (Hpos : (1 <= answersBy (qa_author qa) (allAnswers hostQuestions))%nat).
  { apply answersBy_pos. apply (proj1 (collectStats_keys _ messages _)).
    rewrite <- rankQuestionAnswerers_authors. apply list_elem_of_fmap. eauto. }
  apply rankQuestionAnswerers_elem_of in Hqa as (st & Hin & Hqa).
  destruct (collectStats_statsInv hostQuestions messages) as [Hnd Hcount].
  destruct (collectStats_statsDetail hostQuestions messages) as (_ & Hdetail & _).
  specialize (Hcount (qa_author qa)).
  pose proof (elem_of_map_get _ _ _ Hnd Hin) as Hget. rewrite Hget in Hcount.
  destruct (Hdetail _ _ Hget) as [Htot Hresp].
  unfold answersBy, allAnswers, sumTimes in *.
  set (mine := filter _ (concat _)) in *.
  assert (Havg : avgResponseTimeOf st =
                 (foldl Qplus 0 (responseTimeSeconds <$> mine)
                  / Q_of_nat (length mine))%Q).
  { unfold avgResponseTimeOf. rewrite Hcount, Htot.
    destruct (Nat.ltb_spec 0 (length mine)); [done|lia]. }
  rewrite Hqa. simpl. split; [done|]. split; [done|].
  unfold helpfulnessOf, frequencyScoreOf, speedScoreOf, engagementScoreOf.
  by rewrite Hcount, Hresp.
Qed.

(** ** Questions of the host and their answers *)

Lemma foldl_push_filter {A B} (p : A -> bool) (g : A -> B) l acc :
  foldl (fun acc x => if p x then acc ++ [g x] else acc) acc l =
  acc ++ (g <$> filter (fun x => p x = true) l).
Proof.
  revert acc. induction l as [|x l IH]; intros acc; simpl.
  - by rewrite app_nil_r.
  - rewrite IH, filter_cons. destruct (p x) eqn:E.
    + rewrite decide_True by done. by rewrite <- app_assoc.
    + rewrite decide_False by done. done.
Qed.

Lemma NoDup_fmap_eq {A B} (f : A -> B) l x y :
  NoDup (f <$> l) -> x ∈ l -> y ∈ l -> f x = f y -> x = y.
Proof.
  induction l as [|a l IH]; [by intros _ ?%elem_of_nil|].
  rewrite fmap_cons, NoDup_cons. intros [Hnot Hnd] Hx Hy Hxy.
  apply elem_of_cons in Hx as [->|Hx]; apply elem_of_cons in Hy as [->|Hy];
    [done| | |by apply IH].
  - exfalso. apply Hnot. rewrite Hxy. by apply list_elem_of_fmap_2.
  - exfalso. apply Hnot. rewrite <- Hxy. by apply list_elem_of_fmap_2.
Qed.

Lemma submseteq_NoDup {A} (l k : list A) : l ⊆+ k -> NoDup k -> NoDup l.
Proof.
  intros Hsub Hnd. apply submseteq_Permutation in Hsub as [k' Hk].
  rewrite Hk in Hnd. by apply NoDup_app in Hnd as [Hnd _].
Qed.

Lemma findAnswers_ids question messages hostName w :
  ans_messageId <$> findAnswers question messages hostName w =
  msg_id <$> take 10 (js_sort byTimestamp (filter (isCandidate question w) messages)).
Proof.
  unfold findAnswers, slice. simpl. rewrite drop_0, <- list_fmap_compose.
  by apply list_fmap_ext.
Qed.

Lemma candidates_sublist question messages w :
  msg_id <$> take 10 (js_sort byTimestamp (filter (isCandidate question w) messages))
  ⊆+ msg_id <$> messages.
Proof.
  apply fmap_submseteq. etrans; [apply sublist_submseteq, sublist_take|].
  rewrite js_sort_perm. apply sublist_submseteq, sublist_filter.
Qed.

(** X3.  [extractHostQuestions] returns, in the order of the input, one
    question for each message of the host that [detectQuestions] accepts;
    the question carries the id, text and timestamp of that message, and
    its answers are those [findAnswers] gives for it. *)
Theorem extractHostQuestions_questions messages hostName timeWindowSeconds :
  Forall2 (fun m q =>
             hq_messageId q = msg_id m /\
             hq_author q = hostName /\
             hq_question q = msg_message m /\
             hq_timestamp q = msg_timestamp m /\
             answers q = findAnswers q messages hostName timeWindowSeconds)
    (filter (fun m => detectQuestions (msg_message m) = true /\ msg_author m = hostName)
            messages)
    (extractHostQuestions messages hostName timeWindowSeconds).
Proof.
  unfold extractHostQuestions.
  rewrite (foldl_push_filter (fun m => detectQuestions (msg_message m)) _ _ []).
  rewrite app_nil_l, list_filter_filter.
  apply Forall2_fmap_r, Forall_Forall2_diag, Forall_forall.
  intros m Hm. apply list_elem_of_filter in Hm as [[_ Hm] _]. simpl.
  repeat split; done.
Qed.

(** X4.  When the input ids are distinct, the questions returned by
    [extractHostQuestions] have distinct ids; the answers of each question
    have distinct ids, all of them ids of input messages, and none of them
    is the id of the question itself. *)
Theorem extractHostQuestions_ids messages hostName timeWindowSeconds :
  NoDup (msg_id <$> messages) ->
  let hostQuestions := extractHostQuestions messages hostName timeWindowSeconds in
  NoDup (hq_messageId <$> hostQuestions) /\
  Forall (fun q =>
            hq_messageId q ∈ msg_id <$> messages /\
            NoDup (ans_messageId <$> answers q) /\
            ans_messageId <$> answers q ⊆+ msg_id <$> messages /\
            hq_messageId q ∉ ans_messageId <$> answers q) hostQuestions.
Proof.
  intros Hnd. cbv zeta. unfold extractHostQuestions.
  rewrite (foldl_push_filter (fun m => detectQuestions (msg_message m)) _ _ []).
  rewrite app_nil_l, list_filter_filter. split.
  - rewrite <- list_fmap_compose.
    eapply sublist_NoDup; [exact Hnd|].
    apply (fmap_sublist msg_id), sublist_filter.
  - apply Forall_fmap, Forall_forall. intros m Hm.
    apply list_elem_of_filter in Hm as [[_ Hauthor] Hm]. simpl.
    rewrite findAnswers_ids.
    pose proof (candidates_sublist
      (mkHostQuestion (msg_id m) (msg_author m) (msg_message m) (msg_timestamp m)
         [] false) messages timeWindowSeconds) as Hsub.
    split; [by apply list_elem_of_fmap_2|].
    split; [by eapply submseteq_NoDup|]. split; [done|].
    intros Hin. apply list_elem_of_fmap in Hin as (m' & Hid & Hm').
    apply elem_of_take in Hm' as Hm''. destruct Hm'' as (i & Hi & _).
    apply list_elem_of_lookup_2 in Hi. apply js_sort_elem_of in Hi.
    apply list_elem_of_filter in Hi as [Hcand Hin'].
    assert (m = m') as <- by by eapply NoDup_fmap_eq.
    apply Is_true_true in Hcand. unfold isCandidate in Hcand.
    rewrite !andb_true_iff in Hcand. destruct Hcand as [_ Hne].
    apply bool_decide_eq_true in Hne. by apply Hne.
Qed.

Lemma extractHostQuestions_ids_witness :
  let hostQuestions := extractHostQuestions eagerBob "Host" defaultWindow in
  NoDup (hq_messageId <$> hostQuestions) /\
  Forall (fun q =>
            hq_messageId q ∈ msg_id <$> eagerBob /\
            NoDup (ans_messageId <$> answers q) /\
            ans_messageId <$> answers q ⊆+ msg_id <$> eagerBob /\
            hq_messageId q ∉ ans_messageId <$> answers q) hostQuestions.
Proof.
  apply (extractHostQuestions_ids eagerBob "Host" defaultWindow).
  apply (bool_decide_unpack (NoDup (msg_id <$> eagerBob))). vm_compute. exact I.
Defined.

(** X5.  The answers of [findAnswers] are made from messages that pass its
    filter; a message that passes the filter is among the answers, or there
    are 10 answers and none of them is later than it; the number of answers
    is the number of such messages, capped at 10. *)
Theorem findAnswers_earliest question messages hostName timeWindowSeconds :
  let found := findAnswers question messages hostName timeWindowSeconds in
  let passing := filter (isCandidate question timeWindowSeconds) messages in
  Forall (fun a => exists m, m ∈ passing /\ a = toAnswer (hq_timestamp question) m) found /\
  Forall (fun m => toAnswer (hq_timestamp question) m ∈ found \/
                   length found = 10%nat /\
                   Forall (fun a => ans_timestamp a <= msg_timestamp m) found) passing /\
  length found = Nat.min 10 (length passing).
Proof.
  cbv zeta. unfold findAnswers, slice. rewrite Nat.sub_0_r, drop_0.
  set (passing := filter _ messages).
  pose proof (byTimestamp_sorted passing) as Hsorted.
  pose proof (js_sort_length byTimestamp passing) as Hlen.
  set (sorted := js_sort byTimestamp passing) in *.
  split; [|split].
  - apply Forall_fmap, Forall_forall. intros m Hm. exists m. split; [|done].
    apply (js_sort_elem_of byTimestamp). fold sorted.
    apply elem_of_take in Hm as (i & Hi & _). by eapply list_elem_of_lookup_2.
  - apply Forall_forall. intros m Hm.
    apply (js_sort_elem_of byTimestamp) in Hm. fold sorted in Hm.
    rewrite <- (take_drop 10 sorted) in Hm, Hsorted.
    apply elem_of_app in Hm as [Hm|Hm].
    + left. by apply list_elem_of_fmap_2.
    + right. split.
      * rewrite length_fmap, length_take.
        destruct (drop 10 sorted) eqn:Hd; [by apply elem_of_nil in Hm|].
        assert (length (drop 10 sorted) = S (length l)) as Hl by by rewrite Hd.
        rewrite length_drop in Hl. lia.
      * apply Forall_forall. intros a Ha.
        apply list_elem_of_fmap in Ha as (m' & -> & Hm'). simpl.
        by eapply (StronglySorted_app_1_elem_of _ _ _ _ _ Hsorted).
  - rewrite length_fmap, length_take. lia.
Qed.

(** ** Question detection *)

Lemma lower_ascii_idem c : lower_ascii (lower_ascii c) = lower_ascii c.
Proof. destruct c as [[] [] [] [] [] [] [] []]; vm_compute; reflexivity. Qed.

Lemma lower_ascii_question_mark c : lower_ascii c = "?"%char <-> c = "?"%char.
Proof. destruct c as [[] [] [] [] [] [] [] []]; vm_compute; split; congruence. Qed.

Lemma toLowerCase_idem s : toLowerCase (toLowerCase s) = toLowerCase s.
Proof. induction s as [|c s IH]; simpl; [done|]. by rewrite lower_ascii_idem, IH. Qed.

Lemma toLowerCase_length s : String.length (toLowerCase s) = String.length s.
Proof. induction s as [|c s IH]; simpl; [done|]. by rewrite IH. Qed.

Lemma prefix_empty s : String.prefix "" s = true.
Proof. by destruct s. Qed.

Lemma includes_question_mark s : includes (toLowerCase s) "?" = includes s "?".
Proof.
  induction s as [|c s IH]; [done|].
  cbn [toLowerCase includes String.prefix]. rewrite IH, !prefix_empty.
  destruct (ascii_dec "?" (lower_ascii c)) as [E|E], (ascii_dec "?" c) as [E'|E'];
    try done.
  - exfalso. apply E'. symmetry. by apply lower_ascii_question_mark.
  - exfalso. apply E. symmetry. by apply lower_ascii_question_mark.
Qed.

Lemma prefix_refl s : String.prefix s s = true.
Proof. induction s as [|c s IH]; simpl; [done|]. by destruct (ascii_dec c c). Qed.

Lemma includes_refl s : includes s s = true.
Proof. destruct s; simpl; [done|]. destruct (ascii_dec a a); [|done]. by rewrite prefix_refl. Qed.

(** X6.  On a message of ASCII characters, [detectQuestions] does not
    depend on the case of the letters. *)
Theorem detectQuestions_ignores_case message :
  allChars is_ascii_char message = true ->
  detectQuestions (toLowerCase message) = detectQuestions message.
Proof.
  intros _. unfold detectQuestions.
  by rewrite toLowerCase_length, includes_question_mark, toLowerCase_idem.
Qed.

Lemma detectQuestions_ignores_case_witness :
  detectQuestions (toLowerCase "  HOW do I join") = detectQuestions "  HOW do I join".
Proof. apply (detectQuestions_ignores_case "  HOW do I join"). reflexivity. Defined.

(** ** One question of the host *)

Lemma rankQuestionAnswerers_length hostQuestions messages :
  (length (rankQuestionAnswerers hostQuestions messages)
   <= length (allAnswers hostQuestions))%nat.
Proof.
  rewrite <- (length_fmap qa_author), rankQuestionAnswerers_authors.
  rewrite <- (length_fmap ans_author (allAnswers hostQuestions)).
  apply submseteq_length, NoDup_submseteq.
  - by destruct (collectStats_statsInv hostQuestions messages).
  - intros k. apply collectStats_keys.
Qed.

Lemma rankQuestionAnswerers_total hostQuestions messages :
  sum_list (questionsAnswered <$> rankQuestionAnswerers hostQuestions messages) =
  length (allAnswers hostQuestions).
Proof.
  destruct (collectStats_statsDetail hostQuestions messages) as (_ & _ & Hsum).
  rewrite <- Hsum. unfold rankQuestionAnswerers.
  rewrite js_sort_perm, <- list_fmap_compose.
  f_equal. apply list_fmap_ext. by intros _ [k st] _.
Qed.

(** X7.  The question returned by [findAnswersToSpecificQuestion] is by
    the host and its text contains the text asked for, letter case aside;
    [answerCount] is the number of its answers, at most 10, and
    [wasAnswered] tells whether there is one; cutting the ranking to 10
    entries removes nobody, and the [questionsAnswered] of the top
    answerers add up to [answerCount]; the question is a message of the
    input, or no message matches and the result is the empty question
    dated now. *)
Theorem findAnswersToSpecificQuestion_result questionText messages hostName
    timeWindowSeconds now :
  let r := findAnswersToSpecificQuestion questionText messages hostName
             timeWindowSeconds now in
  let q := sq_question r in
  hq_author q = hostName /\
  includes (toLowerCase (hq_question q)) (toLowerCase questionText) = true /\
  sq_answerCount r = length (answers q) /\
  (sq_answerCount r <= 10)%nat /\
  (wasAnswered q = true <-> (1 <= sq_answerCount r)%nat) /\
  sq_topAnswerers r = rankQuestionAnswerers [q] messages /\
  sum_list (questionsAnswered <$> sq_topAnswerers r) = sq_answerCount r /\
  (hq_messageId q ∈ msg_id <$> messages \/
   Forall (fun m => matchesQuestion questionText hostName m = false) messages /\
   q = mkHostQuestion "" hostName questionText now [] false).
Proof.
  cbv zeta. unfold findAnswersToSpecificQuestion.
  destruct (List.find _ messages) as [questionMsg|] eqn:Hfind.
  - apply find_some in Hfind as [Hin Hmatch]. apply list_elem_of_In in Hin.
    unfold matchesQuestion in Hmatch. apply andb_true_iff in Hmatch as [Hhost Hincl].
    apply bool_decide_eq_true in Hhost.
    set (q0 := mkHostQuestion _ _ _ _ [] false).
    destruct (findAnswers_wellformed q0 messages hostName timeWindowSeconds)
      as (_ & _ & Hlen).
    set (found := findAnswers q0 messages hostName timeWindowSeconds) in *.
    set (q := mkHostQuestion _ _ _ _ found _).
    assert (Hall : allAnswers [q] = found) by apply app_nil_r.
    assert (Hcut : slice 0 10 (rankQuestionAnswerers [q] messages) =
                   rankQuestionAnswerers [q] messages).
    { unfold slice. rewrite drop_0. apply take_ge.
      pose proof (rankQuestionAnswerers_length [q] messages) as Hle.
      rewrite Hall in Hle. lia. }
    cbn [sq_question sq_answerCount sq_topAnswerers]. rewrite Hcut.
    split; [done|]. split; [done|]. split; [done|]. split; [done|].
    split; [apply Nat.ltb_lt|]. split; [done|].
    split; [by rewrite rankQuestionAnswerers_total, Hall|].
    left. by apply (list_elem_of_fmap_2 msg_id).
  - cbn [sq_question sq_answerCount sq_topAnswerers hq_author hq_question answers
         wasAnswered hq_messageId].
    split; [done|]. split; [apply includes_refl|]. split; [done|].
    split; [lia|]. split; [split; [done|lia]|]. split; [done|]. split; [done|].
    right. split; [|done]. apply Forall_forall. intros m Hm.
    apply list_elem_of_In in Hm. by apply (find_none _ _ Hfind).
Qed.

(** ** Mean response time of the analysis *)

Lemma Math_round_mono (x y : Q) : (x <= y)%Q -> Math_round x <= Math_round y.
Proof. intros H. apply Qfloor_resp_le. lra. Qed.

Lemma Q_of_nat_S n : (Q_of_nat (S n) == Q_of_nat n + 1)%Q.
Proof. unfold Q_of_nat. rewrite Nat2Z.inj_succ, <- Z.add_1_r, inject_Z_plus. reflexivity. Qed.

Lemma foldl_Qplus_bounds (w s : Q) l :
  Forall (fun x => 0 <= x <= w)%Q l ->
  (s <= foldl Qplus s l <= s + Q_of_nat (length l) * w)%Q.
Proof.
  intros Hl. revert s. induction Hl as [|x l [Hx0 Hxw] _ IH]; intros s.
  - cbn [foldl length]. change (Q_of_nat 0) with 0%Q. lra.
  - cbn [foldl length]. specialize (IH (s + x)%Q). rewrite Q_of_nat_S. lra.
Qed.

Lemma mean_bounds (w : Q) l :
  (0 < length l)%nat ->
  Forall (fun x => 0 <= x <= w)%Q l ->
  (0 <= foldl Qplus 0 l / Q_of_nat (length l) <= w)%Q.
Proof.
  intros Hn Hl. pose proof (foldl_Qplus_bounds w 0 l Hl) as [Hlo Hhi].
  assert (Hpos : (0 < Q_of_nat (length l))%Q).
  { unfold Q_of_nat. change 0%Q with (inject_Z 0). rewrite <- Zlt_Qlt. lia. }
  split.
  - apply Qle_shift_div_l; [done|]. lra.
  - apply Qle_shift_div_r; [done|]. lra.
Qed.

Lemma foldl_concat {A B} (f : A -> B -> A) (ls : list (list B)) a :
  foldl (fun acc l => foldl f acc l) a ls = foldl f a (concat ls).
Proof.
  revert a. induction ls as [|l ls IH]; intros a; simpl; [done|].
  by rewrite foldl_app, IH.
Qed.

Lemma foldl_total_count (l : list Answer) total count :
  foldl (fun '(total, count) answer =>
           ((total + responseTimeSeconds answer)%Q, S count)) (total, count) l =
  (foldl Qplus total (responseTimeSeconds <$> l), (count + length l)%nat).
Proof.
  revert total count. induction l as [|a l IH]; intros total count; simpl.
  - by rewrite Nat.add_0_r.
  - rewrite IH. f_equal. lia.
Qed.

Lemma foldl_answers {A} (f : A -> Answer -> A) hostQuestions a :
  foldl (fun acc question => foldl f acc (answers question)) a hostQuestions =
  foldl f a (allAnswers hostQuestions).
Proof.
  unfold allAnswers. revert a.
  induction hostQuestions as [|q qs IH]; intros a; csimpl; [done|].
  by rewrite foldl_app, IH.
Qed.

Lemma calculateAverageResponseTime_mean hostQuestions :
  calculateAverageResponseTime hostQuestions =
  if (0 <? length (allAnswers hostQuestions))%nat
  then Math_round
         (foldl Qplus 0%Q (responseTimeSeconds <$> allAnswers hostQuestions)
          / Q_of_nat (length (allAnswers hostQuestions)))
  else 0.
Proof.
  unfold calculateAverageResponseTime.
  destruct hostQuestions as [|q qs]; [done|].
  change (length (q :: qs) =? 0)%nat with false. cbv iota.
  by rewrite foldl_answers, foldl_total_count.
Qed.

Lemma calculateAverageResponseTime_range (w : Q) hostQuestions :
  (0 <= w)%Q ->
  Forall (fun a => 0 <= responseTimeSeconds a <= w)%Q (allAnswers hostQuestions) ->
  0 <= calculateAverageResponseTime hostQuestions <= Math_round w.
Proof.
  intros Hw Hall. rewrite calculateAverageResponseTime_mean.
  destruct (Nat.ltb_spec 0 (length (allAnswers hostQuestions))) as [Hn|Hn].
  - rewrite <- (length_fmap responseTimeSeconds) in *.
    destruct (mean_bounds w (responseTimeSeconds <$> allAnswers hostQuestions))
      as [Hlo Hhi]; [done|by apply Forall_fmap|].
    split; [by apply Math_round_nonneg|by apply Math_round_mono].
  - split; [done|by apply Math_round_nonneg].
Qed.

Lemma extractHostQuestions_answers_ok messages hostName w :
  Forall (fun q => hq_author q = hostName /\
                   Forall (answerOk q w) (answers q) /\
                   (wasAnswered q = true <-> (1 <= length (answers q))%nat))
    (extractHostQuestions messages hostName w).
Proof.
  unfold extractHostQuestions.
  rewrite (foldl_push_filter (fun m => detectQuestions (msg_message m)) _ _ []).
  rewrite app_nil_l. apply Forall_fmap, Forall_forall. intros m Hm.
  apply list_elem_of_filter in Hm as [_ Hm]. apply list_elem_of_filter in Hm as [Hm _].
  split; [done|]. simpl. split; [|apply Nat.ltb_lt].
  by destruct (findAnswers_wellformed
    (mkHostQuestion (msg_id m) (msg_author m) (msg_message m) (msg_timestamp m) [] false)
    messages hostName w) as [Hok _].
Qed.

Lemma allAnswers_Forall (P : Answer -> Prop) hostQuestions :
  Forall P (allAnswers hostQuestions) <->
  Forall (fun q => Forall P (answers q)) hostQuestions.
Proof.
  unfold allAnswers. induction hostQuestions as [|q qs IH]; csimpl.
  - split; constructor.
  - rewrite Forall_app, Forall_cons, IH. done.
Qed.

Lemma hostNameOf_nonempty messages hostIdentifier :
  hostNameOf messages hostIdentifier ≠ "".
Proof.
  unfold hostNameOf. destruct (identifyHost messages hostIdentifier) as [h|]; simpl.
  - destruct (bool_decide_reflect (h = "")); simpl; done.
  - done.
Qed.

Lemma rankQuestionAnswerers_nil hostQuestions messages :
  rankQuestionAnswerers hostQuestions messages = [] <-> allAnswers hostQuestions = [].
Proof.
  split; intros H.
  - destruct (allAnswers hostQuestions) as [|a l] eqn:E; [done|]. exfalso.
    assert (Hin : ans_author a ∈ ans_author <$> allAnswers hostQuestions).
    { rewrite E. csimpl. apply elem_of_cons. by left. }
    apply (collectStats_keys hostQuestions messages) in Hin.
    rewrite <- rankQuestionAnswerers_authors, H in Hin. by apply elem_of_nil in Hin.
  - pose proof (rankQuestionAnswerers_length hostQuestions messages) as Hle.
    rewrite H in Hle. apply nil_length_inv. simpl in Hle. lia.
Qed.

Lemma answered_none hostQuestions :
  Forall (fun q => wasAnswered q = true <-> (1 <= length (answers q))%nat) hostQuestions ->
  length (filter (fun q => wasAnswered q = true) hostQuestions) = 0%nat <->
  allAnswers hostQuestions = [].
Proof.
  unfold allAnswers. induction 1 as [|q qs Hq _ IH].
  - done.
  - rewrite filter_cons. csimpl. destruct (decide (wasAnswered q = true)) as [E|E].
    + apply Hq in E. split; [done|]. intros Happ.
      apply app_eq_nil in Happ as [Hnil _]. rewrite Hnil in E. simpl in E. lia.
    + rewrite IH. assert (answers q = []) as ->; [|done].
      destruct (answers q); [done|]. exfalso. apply E, Hq. simpl. lia.
Qed.

(** ** Statistics of the answerers of the host's questions *)

Lemma Math_round_near (x : Q) :
  (inject_Z (Math_round x) - 1 < x < inject_Z (Math_round x) + 1)%Q.
Proof.
  unfold Math_round.
  pose proof (Qfloor_le (x + (1 # 2))) as Hlo.
  pose proof (Qlt_floor (x + (1 # 2))) as Hhi.
  rewrite inject_Z_plus in Hhi. change (inject_Z 1) with 1%Q in Hhi. lra.
Qed.

Lemma foldl_Qplus_pos (s : Q) l :
  Forall (fun x => 0 < x)%Q l -> l ≠ [] -> (s < foldl Qplus s l)%Q.
Proof.
  intros Hl. revert s. induction Hl as [|x l Hx Hl IH]; intros s Hne; [done|].
  cbn [foldl]. destruct l as [|y l]; [simpl; lra|].
  specialize (IH (s + x)%Q). assert (s + x < foldl Qplus (s + x) (y :: l))%Q by by apply IH.
  lra.
Qed.

(** X2.  For the questions that [extractHostQuestions] finds with the
    window of 120 seconds, every answerer returned by
    [rankQuestionAnswerers] has as [questionsAnswered] the number of that
    author's answers, an [averageResponseTime] above 0 and at most 120,
    and a [helpfulnessScore] less than 1 away from the weighted sum of the
    three terms: the share of the author's messages that are answers,
    capped at 100, for 40%; 100 less 10 per minute of mean response time,
    not below 0, for 40%; the answers per question, for 20%. *)
Theorem rankQuestionAnswerers_statistics messages hostName :
  let hostQuestions := extractHostQuestions messages hostName defaultWindow in
  Forall (fun qa =>
            let mine := filter (fun a => ans_author a = qa_author qa)
                               (concat (answers <$> hostQuestions)) in
            let mean := (foldl Qplus 0 (responseTimeSeconds <$> mine)
                         / Q_of_nat (length mine))%Q in
            let weighted :=
              (Qmin 100 (Q_of_nat (length mine)
                         / Q_of_nat (Nat.max 1 (authorCount (qa_author qa) messages))
                         * 100) * (4 # 10)
               + Qmax 0 (100 - mean / 60 * 10) * (4 # 10)
               + Q_of_nat (length mine) / Q_of_nat (length hostQuestions) * 100
                 * (2 # 10))%Q in
            questionsAnswered qa = length mine /\
            (1 <= length mine)%nat /\
            (0 < averageResponseTime qa <= 120)%Q /\
            (inject_Z (helpfulnessScore qa) - 1 < weighted
             < inject_Z (helpfulnessScore qa) + 1)%Q)
         (rankQuestionAnswerers
            (extractHostQuestions messages hostName defaultWindow) messages).
Proof.
  cbv zeta. set (hostQuestions := extractHostQuestions messages hostName defaultWindow).
  pose proof (answerer_exact hostQuestions messages) as Hexact.
  assert (Hans : Forall (fun a => 0 < responseTimeSeconds a
                                  /\ responseTimeSeconds a <= 120)%Q
                        (allAnswers hostQuestions)).
  { apply allAnswers_Forall.
    eapply Forall_impl;
      [exact (extractHostQuestions_answers_ok messages hostName defaultWindow)|].
    intros q (_ & Hok & _). eapply Forall_impl; [exact Hok|].
    by intros a (Hpos & Hle & _). }
  apply Forall_forall. intros qa Hqa.
  apply (proj1 (Forall_forall _ _) Hexact) in Hqa as Hfields.
  assert (Hone : (1 <= answersBy (qa_author qa) (allAnswers hostQuestions))%nat).
  { apply answersBy_pos. apply (proj1 (collectStats_keys _ messages _)).
    rewrite <- rankQuestionAnswerers_authors. apply list_elem_of_fmap. eauto. }
  cbv zeta in Hfields. destruct Hfields as (Hcount & Havg & Hscore).
  unfold answersBy, allAnswers in Hans, Hone. set (mine := filter _ (concat _)) in *.
  assert (Hmine : Forall (fun a => 0 < responseTimeSeconds a
                                   /\ responseTimeSeconds a <= 120)%Q mine).
  { apply Forall_forall. intros a Ha. apply list_elem_of_filter in Ha as [_ Ha].
    by apply (proj1 (Forall_forall _ _) Hans). }
  assert (Hlen : (1 <= length mine)%nat) by lia.
  split; [done|]. split; [done|]. split.
  - rewrite Havg. rewrite <- (length_fmap responseTimeSeconds).
    assert (Hpos : (0 < Q_of_nat (length (responseTimeSeconds <$> mine)))%Q).
    { unfold Q_of_nat. change 0%Q with (inject_Z 0). rewrite <- Zlt_Qlt.
      rewrite length_fmap. lia. }
    split.
    + apply Qlt_shift_div_l; [done|]. rewrite Qmult_0_l.
      apply foldl_Qplus_pos.
      * apply Forall_fmap. eapply Forall_impl; [exact Hmine|]. by intros a [? _].
      * destruct mine; [simpl in Hlen; lia|done].
    + apply mean_bounds; [rewrite length_fmap; lia|].
      apply Forall_fmap. eapply Forall_impl; [exact Hmine|].
      intros a [? ?]. simpl. split; [lra|done].
  - rewrite Hscore, Havg. apply Math_round_near.
Qed.

(** ** The assembled analysis *)

(** X8.  In the result of [analyzeEngagement], whatever the input:
    [totalQuestions] is the number of host questions and
    [answeredQuestions] is at most that; every host question is by
    [hostName], which is never the empty string; nobody among the question
    answerers is the host, and there are no answerers exactly when no
    question was answered; [averageResponseTime] lies between 0 and 120;
    at most 5 top topics are named. *)
Theorem analyzeEngagement_summary messages hostIdentifier useAI :
  let r := analyzeEngagement messages hostIdentifier useAI in
  ea_totalQuestions r = length (ea_hostQuestions r) /\
  (ea_answeredQuestions r <= ea_totalQuestions r)%nat /\
  ea_hostName r ≠ "" /\
  Forall (fun q => hq_author q = ea_hostName r) (ea_hostQuestions r) /\
  Forall (fun qa => qa_author qa ≠ ea_hostName r) (ea_questionAnswerers r) /\
  (ea_questionAnswerers r = [] <-> ea_answeredQuestions r = 0%nat) /\
  0 <= ea_averageResponseTime r <= 120 /\
  (length (ea_topTopics r) <= 5)%nat.
Proof.
  cbv zeta. unfold analyzeEngagement.
  destruct (length messages =? 0)%nat.
  { simpl. repeat split; try done; try lia; constructor. }
  set (hostName := hostNameOf messages hostIdentifier).
  set (flagged := flagHostMessages messages hostName).
  pose proof (extractHostQuestions_answers_ok flagged hostName defaultWindow) as Hqs.
  set (hostQuestions := extractHostQuestions flagged hostName defaultWindow) in *.
  unfold assembleAnalysis.
  cbn [ea_totalQuestions ea_hostQuestions ea_answeredQuestions ea_hostName
       ea_questionAnswerers ea_averageResponseTime ea_topTopics].
  assert (Hans : Forall (fun a => ans_author a ≠ hostName /\
                                  (0 <= responseTimeSeconds a <= 120)%Q)
                         (allAnswers hostQuestions)).
  { apply allAnswers_Forall. eapply Forall_impl; [exact Hqs|].
    intros q (Hauthor & Hok & _). eapply Forall_impl; [exact Hok|].
    intros a (Hpos & Hle & Hne). rewrite Hauthor in Hne.
    split; [done|]. split; [lra|exact Hle]. }
  split; [done|]. split; [apply length_filter|].
  split; [apply hostNameOf_nonempty|].
  split; [eapply Forall_impl; [exact Hqs|]; by intros q [? _]|].
  split; [|split; [|split]].
  - apply Forall_forall. intros qa Hqa.
    assert (Hin : qa_author qa ∈ ans_author <$> allAnswers hostQuestions).
    { apply (collectStats_keys hostQuestions flagged).
      rewrite <- rankQuestionAnswerers_authors. by apply list_elem_of_fmap_2. }
    apply list_elem_of_fmap in Hin as (a & -> & Ha).
    by apply (proj1 (Forall_forall _ _) Hans a Ha).
  - rewrite rankQuestionAnswerers_nil. symmetry. apply answered_none.
    eapply Forall_impl; [exact Hqs|]. by intros q (_ & _ & ?).
  - change 120 with (Math_round 120).
    apply calculateAverageResponseTime_range; [done|].
    eapply Forall_impl; [exact Hans|]. by intros a [_ ?].
  - rewrite length_fmap. unfold slice. rewrite length_take. lia.
Qed.

(** ** Where the host comes from *)

Lemma authorCount_elem_of a messages :
  (0 < authorCount a messages)%nat -> a ∈ msg_author <$> messages.
Proof.
  unfold authorCount. intros Hpos.
  destruct (filter (fun m => msg_author m = a) messages) as [|m l] eqn:E;
    [simpl in Hpos; lia|].
  assert (Hm : m ∈ filter (fun m => msg_author m = a) messages).
  { rewrite E. apply elem_of_cons. by left. }
  apply list_elem_of_filter in Hm as [<- Hm]. by apply list_elem_of_fmap_2.
Qed.

Lemma mostActive_max authorCounts :
  Forall (fun e => (e.2 <= (mostActive authorCounts).2)%nat) authorCounts.
Proof.
  unfold mostActive.
  destruct (mostActive_from ("", 0%nat) authorCounts) as [[-> H]|(m1 & m2 & Hm & _ & H1 & H2)].
  - exact H.
  - rewrite Hm at 1. apply Forall_app. split.
    + eapply Forall_impl; [exact H1|]. intros e. simpl. lia.
    + constructor; [done|exact H2].
Qed.

(** X9.  A host returned by [identifyHost] is the manual name or the author
    of an input message.  When no host is returned, no manual name was
    given, no message has the owner badge, and no author has more than 5%
    of the messages. *)
Theorem identifyHost_result messages manualHostName :
  match identifyHost messages manualHostName with
  | Some h => manualHostName = Some h \/ h ∈ msg_author <$> messages
  | None =>
      truthy manualHostName = false /\
      Forall (fun m => hasBadge "owner" m = false /\
                       (20 * authorCount (msg_author m) messages
                        <= length messages)%nat) messages
  end.
Proof.
  unfold identifyHost. destruct (truthy manualHostName) eqn:Hmanual.
  { destruct manualHostName; [by left|done]. }
  destruct (List.find (hasBadge "owner") messages) as [m|] eqn:Howner.
  { apply find_some in Howner as [Hin _]. apply list_elem_of_In in Hin.
    right. by apply list_elem_of_fmap_2. }
  destruct (List.find (isActiveModerator messages) messages) as [m|] eqn:Hmod.
  { apply find_some in Hmod as [Hin _]. apply list_elem_of_In in Hin.
    right. by apply list_elem_of_fmap_2. }
  pose proof (mostActive_max (countAuthors messages)) as Hmax.
  pose proof (mostActive_from ("", 0%nat) (countAuthors messages)) as Hfrom.
  fold (mostActive (countAuthors messages)) in Hfrom. cbv zeta in Hfrom.
  assert (Hnone : Forall (fun m => hasBadge "owner" m = false) messages).
  { apply Forall_forall. intros m Hm. apply list_elem_of_In in Hm.
    by apply (find_none _ _ Howner). }
  destruct (length (countAuthors messages) =? 0)%nat eqn:Hempty.
  { split; [done|]. apply Forall_forall. intros m Hm. exfalso.
    apply countAuthors_author in Hm. apply Nat.eqb_eq, nil_length_inv in Hempty.
    rewrite Hempty in Hm. by apply elem_of_nil in Hm. }
  destruct (mostActive (countAuthors messages)) as [topAuthor maxCount].
  destruct (Qgt_bool _ _) eqn:Hshare.
  - apply Q_of_nat_gt_5pct in Hshare. right.
    destruct Hfrom as [[Hacc _]|(m1 & m2 & Hm & _)].
    + injection Hacc as _ ->. lia.
    + assert (Hin : (topAuthor, maxCount) ∈ countAuthors messages).
      { rewrite Hm. apply elem_of_app. right. apply elem_of_cons. by left. }
      apply countAuthors_entry in Hin as [-> Hpos]. by apply authorCount_elem_of.
  - split; [done|]. apply Forall_forall. intros m Hm.
    split; [by apply (proj1 (Forall_forall _ _) Hnone)|].
    apply countAuthors_author in Hm.
    apply (proj1 (Forall_forall _ _) Hmax) in Hm. simpl in Hm.
    destruct (decide (length messages < 20 * maxCount)%nat) as [Hlt|Hge]; [|lia].
    apply Q_of_nat_gt_5pct in Hlt. congruence.
Qed.

(** ** Duration of the stream *)

Lemma Math_min_le xs x : x ∈ xs -> Math_min xs <= x.
Proof.
  unfold Math_min. generalize (default 0 (head xs)). intros d.
  induction xs as [|y ys IH]; [by intros ?%elem_of_nil|].
  intros [->|Hx]%elem_of_cons; simpl; [lia|]. specialize (IH Hx). lia.
Qed.

Lemma Math_max_ge xs x : x ∈ xs -> x <= Math_max xs.
Proof.
  unfold Math_max. generalize (default 0 (head xs)). intros d.
  induction xs as [|y ys IH]; [by intros ?%elem_of_nil|].
  intros [->|Hx]%elem_of_cons; simpl; [lia|]. specialize (IH Hx). lia.
Qed.

Lemma foldr_min_elem_of d xs : d ∈ xs -> foldr Z.min d xs ∈ xs.
Proof.
  intros Hd. assert (H : foldr Z.min d xs = d \/ foldr Z.min d xs ∈ xs).
  { clear Hd. induction xs as [|y ys IH]; simpl; [by left|].
    destruct (Z.min_spec y (foldr Z.min d ys)) as [[_ ->]|[_ ->]].
    - right. apply elem_of_cons. by left.
    - destruct IH as [IH|IH]; [by left|]. right. apply elem_of_cons. by right. }
  destruct H as [->|H]; done.
Qed.

Lemma foldr_max_elem_of d xs : d ∈ xs -> foldr Z.max d xs ∈ xs.
Proof.
  intros Hd. assert (H : foldr Z.max d xs = d \/ foldr Z.max d xs ∈ xs).
  { clear Hd. induction xs as [|y ys IH]; simpl; [by left|].
    destruct (Z.max_spec y (foldr Z.max d ys)) as [[_ ->]|[_ ->]].
    - destruct IH as [IH|IH]; [by left|]. right. apply elem_of_cons. by right.
    - right. apply elem_of_cons. by left. }
  destruct H as [->|H]; done.
Qed.

Lemma Math_min_elem_of x xs : Math_min (x :: xs) ∈ x :: xs.
Proof. apply foldr_min_elem_of. simpl. apply elem_of_cons. by left. Qed.

Lemma Math_max_elem_of x xs : Math_max (x :: xs) ∈ x :: xs.
Proof. apply foldr_max_elem_of. simpl. apply elem_of_cons. by left. Qed.

Lemma Qdiv_minutes_le (a b : Z) :
  a <= b -> (inject_Z a / inject_Z (1000 * 60) <= inject_Z b / inject_Z (1000 * 60))%Q.
Proof.
  intros Hab. unfold Qdiv. apply Qmult_le_compat_r; [by rewrite <- Zle_Qle|].
  vm_compute. discriminate.
Qed.

(** The value computed when the spread calls return. *)
Lemma streamDuration_value_span messages :
  let minutes a b :=
    (inject_Z (msg_timestamp b - msg_timestamp a) / inject_Z (1000 * 60))%Q in
  (0 <= calculateStreamDuration messages)%Q /\
  Forall (fun a => Forall (fun b => (minutes a b <= calculateStreamDuration messages)%Q)
                     messages) messages /\
  ((length messages < 2)%nat /\ calculateStreamDuration messages = 0%Q \/
   exists a b, a ∈ messages /\ b ∈ messages /\
               calculateStreamDuration messages = minutes a b).
Proof.
  cbv zeta. unfold calculateStreamDuration.
  destruct (Nat.ltb_spec (length messages) 2) as [Hshort|Hlong].
  - split; [done|]. split; [|by left].
    destruct messages as [|a [|b l]]; [constructor| |simpl in Hshort; lia].
    repeat constructor. rewrite Z.sub_diag. vm_compute. discriminate.
  - cbv zeta.
    assert (Hbound : forall a b, a ∈ messages -> b ∈ messages ->
              msg_timestamp b - msg_timestamp a
              <= Math_max (msg_timestamp <$> messages)
                 - Math_min (msg_timestamp <$> messages)).
    { intros a b Ha Hb.
      pose proof (Math_min_le (msg_timestamp <$> messages) (msg_timestamp a)
                    (list_elem_of_fmap_2 _ _ _ Ha)).
      pose proof (Math_max_ge (msg_timestamp <$> messages) (msg_timestamp b)
                    (list_elem_of_fmap_2 _ _ _ Hb)). lia. }
    destruct messages as [|m l]; [simpl in Hlong; lia|].
    split; [|split].
    + apply Qle_trans with (inject_Z 0 / inject_Z (1000 * 60))%Q;
        [vm_compute; discriminate|].
      apply Qdiv_minutes_le.
      pose proof (Hbound m m). rewrite Z.sub_diag in *.
      apply H; apply elem_of_cons; by left.
    + apply Forall_forall. intros a Ha. apply Forall_forall. intros b Hb.
      apply Qdiv_minutes_le. by apply Hbound.
    + right.
      pose proof (Math_min_elem_of (msg_timestamp m) (msg_timestamp <$> l)) as Hmin.
      pose proof (Math_max_elem_of (msg_timestamp m) (msg_timestamp <$> l)) as Hmax.
      change (msg_timestamp m :: (msg_timestamp <$> l))
        with (msg_timestamp <$> m :: l) in Hmin, Hmax.
      apply list_elem_of_fmap in Hmin as (a & Ha & Hain).
      apply list_elem_of_fmap in Hmax as (b & Hb & Hbin).
      exists a, b. split; [done|]. split; [done|]. by rewrite <- Ha, <- Hb.
Qed.

Lemma calculateStreamDuration_returned argLimit messages :
  Throwing.calculateStreamDuration argLimit messages =
  if ((length messages <? 2) || (length messages <=? argLimit))%nat
  then Some (calculateStreamDuration messages) else None.
Proof.
  unfold Throwing.calculateStreamDuration, calculateStreamDuration, Throwing.spread.
  destruct (length messages <? 2)%nat; [done|]. cbv zeta. rewrite length_fmap.
  by destruct (length messages <=? argLimit)%nat.
Qed.

(** X10.  [calculateStreamDuration] throws only on two messages or more,
    when they are more than the arguments a call accepts.  When it
    returns, the duration is never negative; it is at least the distance
    in minutes between any two messages; it is 0 for fewer than two
    messages and otherwise the distance between two of the messages. *)
Theorem calculateStreamDuration_span argLimit messages :
  let minutes a b :=
    (inject_Z (msg_timestamp b - msg_timestamp a) / inject_Z (1000 * 60))%Q in
  match Throwing.calculateStreamDuration argLimit messages with
  | Some duration =>
      ((length messages < 2)%nat \/ (length messages <= argLimit)%nat) /\
      (0 <= duration)%Q /\
      Forall (fun a => Forall (fun b => (minutes a b <= duration)%Q) messages)
             messages /\
      ((length messages < 2)%nat /\ duration = 0%Q \/
       exists a b, a ∈ messages /\ b ∈ messages /\ duration = minutes a b)
  | None => (2 <= length messages)%nat /\ (argLimit < length messages)%nat
  end.
Proof.
  cbv zeta. rewrite calculateStreamDuration_returned.
  destruct (Nat.ltb_spec (length messages) 2),
           (Nat.leb_spec (length messages) argLimit); simpl;
    try (split; [lia|apply streamDuration_value_span]). lia.
Qed.

(** ** Active community members *)

Lemma map_set_fresh {V} k (v : V) m : k ∉ m.*1 -> map_set k v m = m ++ [(k, v)].
Proof.
  induction m as [|[k' v'] m IH]; csimpl; [done|].
  intros Hk. apply not_elem_of_cons in Hk as [Hne Hk].
  rewrite decide_False by done. by rewrite IH.
Qed.

Lemma foldl_map_set_entries {V W} (F : string * W -> V) entries acc :
  NoDup (acc.*1 ++ entries.*1) ->
  foldl (fun members entry => map_set entry.1 (F entry) members) acc entries =
  acc ++ ((fun e => (e.1, F e)) <$> entries).
Proof.
  revert acc. induction entries as [|e entries IH]; intros acc Hnd; csimpl.
  - by rewrite app_nil_r.
  - assert (Hfresh : e.1 ∉ acc.*1).
    { apply NoDup_app in Hnd as (_ & Hdisj & _). intros Hin.
      apply (Hdisj _ Hin). apply elem_of_cons. by left. }
    rewrite map_set_fresh by done. rewrite IH.
    + by rewrite <- app_assoc.
    + rewrite fmap_app. csimpl. by rewrite <- app_assoc.
Qed.

Lemma identifyActiveCommunityMembers_eq messages threads questionAnswerers :
  identifyActiveCommunityMembers messages threads questionAnswerers =
  take 20 (js_sort byEngagementDesc
             (memberOf messages threads questionAnswerers
                (calculateStreamDuration messages) <$> countAuthors messages)).
Proof.
  unfold identifyActiveCommunityMembers, slice. cbv zeta.
  rewrite Nat.sub_0_r, drop_0.
  rewrite (foldl_map_set_entries
             (memberOf messages threads questionAnswerers
                (calculateStreamDuration messages))).
  - rewrite app_nil_l, <- list_fmap_compose. done.
  - by destruct (countAuthors_inv messages) as [Hnd _].
Qed.

Lemma memberOf_author messages threads questionAnswerers duration entry :
  cm_author (memberOf messages threads questionAnswerers duration entry) = entry.1.
Proof. by destruct entry. Qed.

Lemma countAuthors_keys messages a :
  a ∈ (countAuthors messages).*1 <-> a ∈ msg_author <$> messages.
Proof.
  split; intros Hin.
  - apply list_elem_of_fmap in Hin as ([k c] & -> & Hin).
    apply countAuthors_entry in Hin as [-> Hpos]. by apply authorCount_elem_of.
  - apply list_elem_of_fmap in Hin as (m & -> & Hm).
    apply countAuthors_author in Hm.
    by apply (list_elem_of_fmap_2 fst) in Hm.
Qed.

Lemma members_lookup messages threads questionAnswerers m :
  m ∈ identifyActiveCommunityMembers messages threads questionAnswerers ->
  exists c, (cm_author m, c) ∈ countAuthors messages /\
            m = memberOf messages threads questionAnswerers
                  (calculateStreamDuration messages) (cm_author m, c).
Proof.
  rewrite identifyActiveCommunityMembers_eq. intros Hm.
  apply elem_of_take in Hm as (i & Hi & _). apply list_elem_of_lookup_2 in Hi.
  apply js_sort_elem_of in Hi. apply list_elem_of_fmap in Hi as ([a c] & -> & Hin).
  exists c. by rewrite memberOf_author.
Qed.

(** The members computed when the stream duration is. *)
Lemma members_value messages threads questionAnswerers :
  let members := identifyActiveCommunityMembers messages threads questionAnswerers in
  NoDup (cm_author <$> members) /\
  Forall (fun m =>
            cm_author m ∈ msg_author <$> messages /\
            totalMessages (metrics m) = authorCount (cm_author m) messages /\
            (1 <= totalMessages (metrics m))%nat /\
            conversationCount (metrics m) =
              length (filter (fun t => cm_author m ∈ participants t) threads) /\
            engagementScore m =
              calculateEngagementScore (cm_author m) messages threads
                (met_questionsAnswered (metrics m))
                (calculateStreamDuration messages)) members /\
  length members = Nat.min 20 (length (remove_dups (msg_author <$> messages))).
Proof.
  cbv zeta. destruct (countAuthors_inv messages) as [Hnd _]. split; [|split].
  - rewrite identifyActiveCommunityMembers_eq.
    eapply sublist_NoDup; [|apply fmap_sublist, sublist_take].
    rewrite js_sort_perm, <- list_fmap_compose.
    erewrite list_fmap_ext; [exact Hnd|]. intros _ e _. apply memberOf_author.
  - apply Forall_forall. intros m Hm.
    apply members_lookup in Hm as (c & Hin & Hm).
    pose proof (countAuthors_entry _ _ _ Hin) as [Hc Hpos].
    split; [apply countAuthors_keys; by apply (list_elem_of_fmap_2 fst) in Hin|].
    rewrite Hm. simpl. rewrite <- Hc. repeat split; try done; lia.
  - rewrite identifyActiveCommunityMembers_eq.
    rewrite length_take, js_sort_length, length_fmap.
    rewrite <- (length_fmap fst (countAuthors messages)).
    f_equal. apply Permutation_length, NoDup_Permutation;
      [done|apply NoDup_remove_dups|].
    intros a. rewrite elem_of_remove_dups. apply countAuthors_keys.
Qed.

Lemma identifyActiveCommunityMembers_returned argLimit messages threads
    questionAnswerers :
  Throwing.identifyActiveCommunityMembers argLimit messages threads questionAnswerers =
  if ((length messages <? 2) || (length messages <=? argLimit))%nat
  then Some (identifyActiveCommunityMembers messages threads questionAnswerers)
  else None.
Proof.
  unfold Throwing.identifyActiveCommunityMembers.
  rewrite calculateStreamDuration_returned.
  by destruct ((length messages <? 2) || (length messages <=? argLimit))%nat.
Qed.

(** X11.  [identifyActiveCommunityMembers] throws only where
    [calculateStreamDuration] does.  When it returns, there is at most one
    member per author: the authors of the members are distinct authors of
    input messages; a member's [totalMessages] is the number of input
    messages by that author, its [conversationCount] the number of threads
    that list the author as participant, and its [engagementScore] the
    value of [calculateEngagementScore] for the author; the number of
    members is the number of distinct authors, capped at 20. *)
Theorem identifyActiveCommunityMembers_members argLimit messages threads
    questionAnswerers :
  match Throwing.identifyActiveCommunityMembers argLimit messages threads
          questionAnswerers with
  | Some members =>
      exists streamDurationMinutes,
        Throwing.calculateStreamDuration argLimit messages
          = Some streamDurationMinutes /\
        NoDup (cm_author <$> members) /\
        Forall (fun m =>
                  cm_author m ∈ msg_author <$> messages /\
                  totalMessages (metrics m) = authorCount (cm_author m) messages /\
                  (1 <= totalMessages (metrics m))%nat /\
                  conversationCount (metrics m) =
                    length (filter (fun t => cm_author m ∈ participants t) threads) /\
                  engagementScore m =
                    calculateEngagementScore (cm_author m) messages threads
                      (met_questionsAnswered (metrics m)) streamDurationMinutes)
               members /\
        length members = Nat.min 20 (length (remove_dups (msg_author <$> messages)))
  | None => Throwing.calculateStreamDuration argLimit messages = None
  end.
Proof.
  rewrite identifyActiveCommunityMembers_returned, calculateStreamDuration_returned.
  destruct ((length messages <? 2) || (length messages <=? argLimit))%nat; [|done].
  exists (calculateStreamDuration messages). split; [done|].
  apply members_value.
Qed.

(** ** Answers counted for the community members *)

Lemma buildAnswerersMap_snoc l qa :
  buildAnswerersMap (l ++ [qa]) =
  <[qa_author qa := Q_of_nat (questionsAnswered qa)]> (buildAnswerersMap l).
Proof. unfold buildAnswerersMap. by rewrite foldl_app. Qed.

Lemma buildAnswerersMap_lookup l :
  NoDup (qa_author <$> l) ->
  Forall (fun qa => buildAnswerersMap l !! qa_author qa =
                    Some (Q_of_nat (questionsAnswered qa))) l /\
  (forall a, a ∉ qa_author <$> l -> buildAnswerersMap l !! a = None).
Proof.
  induction l as [|qa l IH] using rev_ind; intros Hnd.
  - split; [constructor|]. intros a _. apply lookup_empty.
  - rewrite fmap_app in Hnd. apply NoDup_app in Hnd as (Hnd & Hdisj & _).
    destruct (IH Hnd) as [IH1 IH2]. rewrite buildAnswerersMap_snoc. split.
    + apply Forall_app. split.
      * apply Forall_forall. intros qa' Hqa'.
        rewrite lookup_insert_ne.
        { by apply (proj1 (Forall_forall _ _) IH1). }
        intros Heq. apply (Hdisj (qa_author qa')).
        { by apply list_elem_of_fmap_2. }
        csimpl. apply elem_of_cons. left. congruence.
      * constructor; [|constructor]. apply lookup_insert_eq.
    + intros a Ha. rewrite fmap_app in Ha. apply not_elem_of_app in Ha as [Ha1 Ha2].
      rewrite lookup_insert_ne; [by apply IH2|].
      intros Heq. apply Ha2. csimpl. apply elem_of_cons. left. congruence.
Qed.

Lemma js_or_zero_count (n : nat) : js_or_zero (Some (Q_of_nat n)) = Q_of_nat n.
Proof.
  unfold js_or_zero. destruct (Qeq_bool (Q_of_nat n) 0) eqn:E; [|done].
  apply Qeq_bool_eq in E. unfold Q_of_nat, Qeq, inject_Z in E. cbn [Qnum Qden] in E.
  by replace n with 0%nat by lia.
Qed.

(** X12.  In the result of [analyzeEngagement], the [questionsAnswered]
    metric of every active community member is the number of answers to
    host questions written by that member. *)
Theorem analyzeEngagement_member_answers messages hostIdentifier useAI :
  let r := analyzeEngagement messages hostIdentifier useAI in
  Forall (fun m =>
            met_questionsAnswered (metrics m) =
            Q_of_nat (length (filter (fun a => ans_author a = cm_author m)
                                (concat (answers <$> ea_hostQuestions r)))))
    (ea_activeCommunityMembers r).
Proof.
  cbv zeta. unfold analyzeEngagement.
  destruct (length messages =? 0)%nat; [constructor|].
  set (hostName := hostNameOf messages hostIdentifier).
  set (flagged := flagHostMessages messages hostName).
  set (hostQuestions := extractHostQuestions flagged hostName defaultWindow).
  unfold assembleAnalysis. cbn [ea_activeCommunityMembers ea_hostQuestions].
  set (ranked := rankQuestionAnswerers hostQuestions flagged).
  assert (Hnd : NoDup (qa_author <$> ranked)).
  { unfold ranked. rewrite rankQuestionAnswerers_authors.
    by destruct (collectStats_statsInv hostQuestions flagged). }
  destruct (buildAnswerersMap_lookup ranked Hnd) as [Hsome Hnone].
  apply Forall_forall. intros m Hm.
  apply members_lookup in Hm as (c & _ & ->). simpl.
  change (concat (answers <$> hostQuestions)) with (allAnswers hostQuestions).
  fold (answersBy (cm_author m) (allAnswers hostQuestions)).
  destruct (decide (cm_author m ∈ qa_author <$> ranked)) as [Hin|Hout].
  - apply list_elem_of_fmap in Hin as (qa & Hauthor & Hqa).
    pose proof (proj1 (Forall_forall _ _) Hsome qa Hqa) as Hlook.
    pose proof (proj1 (Forall_forall _ _)
                  (questionsAnswered_counts_answers hostQuestions flagged) qa Hqa)
      as Hcount.
    rewrite Hauthor, Hlook, js_or_zero_count. by rewrite Hcount.
  - rewrite (Hnone _ Hout). simpl.
    assert (answersBy (cm_author m) (allAnswers hostQuestions) = 0%nat) as ->; [|done].
    destruct (collectStats_statsInv hostQuestions flagged) as [_ Hstats].
    specialize (Hstats (cm_author m)).
    destruct (map_get _ _) eqn:E; [|done]. exfalso. apply Hout.
    unfold ranked. rewrite rankQuestionAnswerers_authors.
    apply map_get_elem_of in E. by apply (list_elem_of_fmap_2 fst) in E.
Qed.

(** ** Keywords *)

Lemma foldl_cond_filter {A S} (p : A -> bool) (f : S -> A -> S) l s :
  foldl (fun s x => if p x then f s x else s) s l =
  foldl f s (filter (fun x => p x = true) l).
Proof.
  revert s. induction l as [|x l IH]; intros s; simpl; [done|].
  rewrite filter_cons. destruct (p x) eqn:E.
  - rewrite decide_True by done. simpl. apply IH.
  - rewrite decide_False by done. apply IH.
Qed.

Lemma bigrams_Forall (P : string -> Prop) words :
  Forall P words -> Forall (fun p => P p.1 /\ P p.2) (bigrams words).
Proof.
  induction 1 as [|a l Ha Hl IH]; [constructor|].
  destruct l as [|b l]; [constructor|].
  change (bigrams (a :: b :: l)) with ((a, b) :: bigrams (b :: l)).
  constructor; [|exact IH]. split; [done|]. by inversion Hl.
Qed.

Lemma trigrams_Forall (P : string -> Prop) words :
  Forall P words -> Forall (fun p => P p.1.1 /\ P p.1.2 /\ P p.2) (trigrams words).
Proof.
  induction 1 as [|a l Ha Hl IH]; [constructor|].
  destruct l as [|b [|c l]]; [constructor|constructor|].
  change (trigrams (a :: b :: c :: l)) with ((a, b, c) :: trigrams (b :: c :: l)).
  constructor; [|exact IH]. inversion Hl as [|? ? Hb Hl']. inversion Hl'. done.
Qed.

Lemma wordsOf_not_stopwords message :
  Forall (fun word => isStopword word = false) (wordsOf message).
Proof.
  unfold wordsOf. apply Forall_forall. intros word Hw.
  by apply list_elem_of_filter in Hw as [Hw _].
Qed.

Lemma countKeywords_phrases keywordMap m :
  countKeywords keywordMap m =
  foldl (fun km k => bump k km) keywordMap (phrases (wordsOf (msg_message m))).
Proof.
  unfold countKeywords, phrases. cbv zeta.
  pose proof (wordsOf_not_stopwords (msg_message m)) as Hwords.
  set (words := wordsOf (msg_message m)) in *.
  rewrite !foldl_app, !foldl_fmap.
  rewrite (foldl_cond_filter (fun word => (2 <? String.length word)%nat)
             (fun km k => bump k km)).
  assert (Huni : filter (fun word => (2 <? String.length word)%nat = true) words =
                 filter (fun word => (2 < String.length word)%nat) words).
  { apply list_filter_iff. intros word. apply Nat.ltb_lt. }
  rewrite Huni. set (km1 := foldl _ keywordMap (filter _ words)).
  assert (Hbi : forall km,
            foldl (fun km '(a, b) =>
                     if negb (isStopword a) && negb (isStopword b)
                     then bump (a +:+ " " +:+ b) km else km) km (bigrams words) =
            foldl (fun km p => bump (let '(a, b) := p in a +:+ " " +:+ b) km)
                  km (bigrams words)).
  { pose proof (bigrams_Forall _ _ Hwords) as Hb.
    induction Hb as [|[a b] l [Ha Hb'] _ IH]; intros km; [done|].
    simpl in Ha, Hb'. cbn [foldl]. rewrite Ha, Hb'. simpl. apply IH. }
  assert (Htri : forall km,
            foldl (fun km '(a, b, c) =>
                     if negb (isStopword a) && negb (isStopword b)
                        && negb (isStopword c)
                     then bump (a +:+ " " +:+ b +:+ " " +:+ c) km else km)
                  km (trigrams words) =
            foldl (fun km p =>
                     bump (let '(a, b, c) := p in a +:+ " " +:+ b +:+ " " +:+ c) km)
                  km (trigrams words)).
  { pose proof (trigrams_Forall _ _ Hwords) as Ht.
    induction Ht as [|[[a b] c] l (Ha & Hb' & Hc) _ IH]; intros km; [done|].
    simpl in Ha, Hb', Hc. cbn [foldl]. rewrite Ha, Hb', Hc. simpl. apply IH. }
  by rewrite Hbi, Htri.
Qed.

Lemma occurrences_snoc k ks x :
  occurrences k (ks ++ [x]) =
  (occurrences k ks + if decide (x = k) then 1 else 0)%nat.
Proof.
  unfold occurrences. rewrite filter_app, length_app, filter_cons, filter_nil.
  by destruct (decide (x = k)).
Qed.

(** What the keyword map holds once the phrases [seen] are counted. *)
Lemma bump_counts ks :
  let km := foldl (fun km k => bump k km) [] ks in
  NoDup km.*1 /\
  forall k, match map_get k km with
            | Some c => c = occurrences k ks /\ (0 < c)%nat
            | None => occurrences k ks = 0%nat
            end.
Proof.
  cbv zeta. induction ks as [|x ks IH] using rev_ind.
  - split; [constructor|]. done.
  - rewrite foldl_app. cbn [foldl]. destruct IH as [Hnd Hcount].
    set (km := foldl _ [] ks) in *. unfold bump.
    split; [by apply map_set_NoDup|].
    intros k. rewrite occurrences_snoc. destruct (decide (x = k)) as [<-|Hne].
    + rewrite map_get_set_eq. specialize (Hcount x).
      destruct (map_get x _) as [c|]; simpl; lia.
    + rewrite map_get_set_ne by done. specialize (Hcount k).
      destruct (map_get k _) as [c|]; lia.
Qed.

Lemma extractKeywords_map messages :
  foldl countKeywords [] messages =
  foldl (fun km k => bump k km) [] (allPhrases messages).
Proof.
  unfold allPhrases. generalize (@nil (string * nat)).
  induction messages as [|m l IH]; intros km; csimpl; [done|].
  by rewrite foldl_app, IH, countKeywords_phrases.
Qed.

Lemma ceil_hundredth (n f : nat) :
  (Z.to_nat (Qceiling (Q_of_nat n / 100)) <= f)%nat -> (n <= 100 * f)%nat.
Proof.
  unfold Q_of_nat, Qceiling. cbn.
  assert (H := Z.div_mod (- (Z.of_nat n * 1)) 100).
  assert (H' := Z.mod_pos_bound (- (Z.of_nat n * 1)) 100).
  change (Z.pos (1 * 100)) with 100. lia.
Qed.

Lemma byKeywordFrequencyDesc_sorted l :
  StronglySorted (fun a b => (frequency b <= frequency a)%nat)
    (js_sort byKeywordFrequencyDesc l).
Proof.
  eapply StronglySorted_weaken; [|apply js_sort_sorted].
  - unfold byKeywordFrequencyDesc. intros a b. simpl. lia.
  - unfold byKeywordFrequencyDesc. intros a b. lia.
  - unfold byKeywordFrequencyDesc. intros a b c. lia.
Qed.

(** X13.  [extractKeywords] returns at most 50 keywords, all different, in
    order of non-increasing frequency.  The frequency of a keyword is the
    number of times it occurs among the phrases of the messages (words of
    three characters or more, pairs and triples of consecutive words, stop
    words left out); it is at least 2 and at least one hundredth of the
    number of messages. *)
Theorem extractKeywords_keywords messages :
  let keywords := extractKeywords messages in
  (length keywords <= 50)%nat /\
  NoDup (keyword <$> keywords) /\
  StronglySorted (fun a b => (frequency b <= frequency a)%nat) keywords /\
  Forall (fun k =>
            frequency k = occurrences (keyword k) (allPhrases messages) /\
            (2 <= frequency k)%nat /\
            (length messages <= 100 * frequency k)%nat) keywords.
Proof.
  cbv zeta. unfold extractKeywords, slice. cbv zeta.
  rewrite Nat.sub_0_r, drop_0, extractKeywords_map.
  destruct (bump_counts (allPhrases messages)) as [Hnd Hcount]. cbv zeta in Hnd, Hcount.
  set (km := foldl _ [] (allPhrases messages)) in *.
  set (minFrequency := Nat.max 2 _).
  split; [rewrite length_take; lia|]. split; [|split].
  - eapply sublist_NoDup; [|apply fmap_sublist, sublist_take].
    rewrite js_sort_perm, <- list_fmap_compose.
    eapply sublist_NoDup; [exact Hnd|].
    apply (fmap_sublist fst), sublist_filter.
  - apply StronglySorted_take, byKeywordFrequencyDesc_sorted.
  - apply Forall_take, js_sort_Forall, Forall_fmap, Forall_forall.
    intros [k c] Hin. apply list_elem_of_filter in Hin as [Hmin Hin]. simpl in *.
    apply (elem_of_map_get _ _ _ Hnd) in Hin. specialize (Hcount k).
    rewrite Hin in Hcount. destruct Hcount as [Hc _].
    split; [done|]. unfold minFrequency in Hmin.
    split; [lia|]. apply ceil_hundredth. lia.
Qed.

(** ** Topic clusters *)

Lemma slice_0 {A} n (l : list A) : slice 0 n l = take n l.
Proof. unfold slice. by rewrite Nat.sub_0_r, drop_0. Qed.

Lemma set_add_NoDup x s : NoDup s -> NoDup (set_add x s).
Proof.
  intros Hnd. unfold set_add. destruct (bool_decide_reflect (x ∈ s)); [done|].
  apply NoDup_app. split; [done|]. split; [|apply NoDup_singleton].
  by intros y Hy ->%list_elem_of_singleton.
Qed.

Lemma elem_of_set_add y x s : y ∈ set_add x s <-> y = x \/ y ∈ s.
Proof.
  unfold set_add. destruct (bool_decide_reflect (x ∈ s)).
  - split; [tauto|]. by intros [->|?].
  - rewrite elem_of_app, list_elem_of_singleton. tauto.
Qed.

Lemma set_add_all (l acc : list string) :
  NoDup acc ->
  let s := foldl (fun s a => set_add a s) acc l in
  NoDup s /\ forall x, x ∈ s <-> x ∈ acc \/ x ∈ l.
Proof.
  cbv zeta. revert acc. induction l as [|a l IH]; intros acc Hnd; simpl.
  - split; [done|]. intros x. rewrite elem_of_nil. tauto.
  - destruct (IH (set_add a acc) (set_add_NoDup _ _ Hnd)) as [Hs Hx].
    split; [done|]. intros x. rewrite Hx, elem_of_set_add, elem_of_cons. tauto.
Qed.

Lemma byClusterSizeDesc_sorted l :
  StronglySorted (fun a b => (tc_messageCount b <= tc_messageCount a)%nat)
    (js_sort byClusterSizeDesc l).
Proof.
  eapply StronglySorted_weaken; [|apply js_sort_sorted].
  - unfold byClusterSizeDesc. intros a b. simpl. lia.
  - unfold byClusterSizeDesc. intros a b. lia.
  - unfold byClusterSizeDesc. intros a b c. lia.
Qed.

(** X14.  [clusterByTopic] returns at most 15 clusters in order of
    non-increasing message count.  The topic of a cluster is one of the
    first 15 keywords and its only keyword; its message count is the number
    of messages that contain the topic, letter case aside, and is at least
    2; its top contributors are at most 5 different authors of such
    messages; its time range starts no later than it ends and holds the
    timestamps of all such messages. *)
Theorem clusterByTopic_clusters messages keywords :
  let related c :=
    filter (fun m => includes (toLowerCase (msg_message m)) (toLowerCase (topic c)))
           messages in
  let clusters := clusterByTopic messages keywords in
  (length clusters <= 15)%nat /\
  StronglySorted (fun a b => (tc_messageCount b <= tc_messageCount a)%nat) clusters /\
  Forall (fun c =>
            topic c ∈ keyword <$> take 15 keywords /\
            tc_keywords c = [topic c] /\
            tc_messageCount c = length (related c) /\
            (2 <= tc_messageCount c)%nat /\
            (length (topContributors c) <= 5)%nat /\
            NoDup (topContributors c) /\
            topContributors c ⊆ msg_author <$> related c /\
            (timeRange c).1 <= (timeRange c).2 /\
            Forall (fun m => (timeRange c).1 <= msg_timestamp m <= (timeRange c).2)
                   (related c)) clusters.
Proof.
  cbv zeta. unfold clusterByTopic. cbv zeta. rewrite slice_0.
  rewrite (foldl_push_filter
             (fun kw => (2 <=? length (filter (fun m => includes (toLowerCase (msg_message m))
                                                          (toLowerCase kw)) messages))%nat)
             _ _ []).
  rewrite app_nil_l. split; [|split].
  - rewrite js_sort_length, length_fmap.
    etrans; [apply length_filter|]. rewrite length_fmap, length_take. lia.
  - apply byClusterSizeDesc_sorted.
  - apply js_sort_Forall, Forall_fmap, Forall_forall. intros kw Hkw.
    apply list_elem_of_filter in Hkw as [Hsize Hkw]. apply Nat.leb_le in Hsize.
    cbn [compose topic tc_keywords tc_messageCount topContributors timeRange fst snd].
    set (related := filter _ messages) in *.
    destruct (set_add_all (msg_author <$> related) [] (NoDup_nil_2)) as [Hnd Hel].
    cbv zeta in Hnd, Hel. set (contributors := foldl _ [] _) in *.
    split; [done|]. split; [done|]. split; [done|]. split; [done|].
    rewrite slice_0.
    split; [rewrite length_take; lia|].
    split; [eapply sublist_NoDup; [exact Hnd|apply sublist_take]|].
    split.
    { intros a Ha. apply elem_of_take in Ha as (i & Hi & _).
      apply list_elem_of_lookup_2 in Hi. apply Hel in Hi as [Hi|Hi]; [|done].
      by apply elem_of_nil in Hi. }
    destruct related as [|m0 rest] eqn:Hrel; [simpl in Hsize; lia|].
    assert (Hall : forall m, m ∈ m0 :: rest ->
              Math_min (msg_timestamp <$> m0 :: rest) <= msg_timestamp m
              <= Math_max (msg_timestamp <$> m0 :: rest)).
    { intros m Hm. split.
      - by apply Math_min_le, list_elem_of_fmap_2.
      - by apply Math_max_ge, list_elem_of_fmap_2. }
    split.
    + specialize (Hall m0). etrans; apply Hall; apply elem_of_cons; by left.
    + apply Forall_forall. exact Hall.
Qed.

(** ** Threads and their seeds *)

Lemma seedStep_threadsInv sortedMessages w i st :
  (i < length sortedMessages)%nat ->
  loopInv sortedMessages i st ->
  threadsInv sortedMessages w st ->
  threadsInv sortedMessages w (seedStep sortedMessages w st i).
Proof.
  intros Hi (F & Hbound & Hfill & _) (Hseeds & Hcounter & Hids).
  destruct (decide (i ∈ processedIndices st)) as [Hin|Hout].
  { unfold seedStep. by rewrite bool_decide_eq_true_2 by done. }
  assert (HF : (F <= i)%nat).
  { destruct (decide (F <= i)%nat); [done|]. exfalso. apply Hout, Hfill. lia. }
  destruct (lookup_lt_is_Some_2 _ _ Hi) as [startMsg Hstart].
  rewrite (seedStep_unprocessed _ _ _ _ startMsg); [|done|done|].
  2: { intros p Hp. apply Hbound in Hp. lia. }
  cbv zeta. set (G := groupOf sortedMessages w i startMsg).
  destruct (3 <=? length (startMsg :: G))%nat eqn:Hsize; [|done].
  apply Nat.leb_le in Hsize. unfold threadsInv. cbn [threads threadCounter].
  split; [|split].
  - apply Forall_app. split; [done|]. constructor; [|constructor].
    exists i, startMsg. split; [done|]. cbv zeta. fold G. done.
  - rewrite length_app. simpl. lia.
  - rewrite fmap_app, Hids, length_app, Nat.add_1_r, seq_S, fmap_app.
    simpl. by rewrite Hcounter.
Qed.

Lemma loopAt_threadsInv messages w i :
  (i <= length messages)%nat ->
  threadsInv (sortedMessagesOf messages) w (loopAt messages w i).
Proof.
  induction i as [|i IH]; intros Hi.
  - unfold loopAt. simpl. split; [constructor|]. done.
  - rewrite loopAt_S. apply seedStep_threadsInv.
    + rewrite sortedMessagesOf_length. lia.
    + apply loopAt_inv. lia.
    + apply IH. lia.
Qed.

Lemma takeWhile_Forall {A} (p : A -> bool) l :
  Forall (fun x => p x = true) (takeWhile p l).
Proof.
  induction l as [|x l IH]; simpl; [constructor|].
  destruct (p x) eqn:E; by constructor.
Qed.

Lemma StronglySorted_drop {A} (R : relation A) n l :
  StronglySorted R l -> StronglySorted R (drop n l).
Proof.
  intros H. rewrite <- (take_drop n l) in H. by apply StronglySorted_app_1_r in H.
Qed.

Lemma group_as_slice sortedMessages w i startMsg :
  sortedMessages !! i = Some startMsg ->
  let G := groupOf sortedMessages w i startMsg in
  startMsg :: G = take (S (length G)) (drop i sortedMessages) /\
  (length G <= 19)%nat.
Proof.
  intros Hstart. cbv zeta. unfold groupOf.
  set (next := take 19 (drop (S i) sortedMessages)).
  pose proof (takeWhile_length_le (inWindow w startMsg) next) as Hle.
  assert (Hnext : (length next <= 19)%nat) by (unfold next; rewrite length_take; lia).
  split; [|lia].
  rewrite (drop_S _ _ _ Hstart). cbn [take]. f_equal.
  rewrite takeWhile_prefix at 1. unfold next at 2. rewrite take_take.
  f_equal. lia.
Qed.

(** X15.  The threads returned by [detectThreads] are named thread-0,
    thread-1, ... in order.  Each of them is made of 3 to 20 input
    messages in chronological order: [messages] holds their ids in that
    order and [messageCount] their number, [participants] holds their
    authors, each once, [startTime] and [endTime] are the timestamps of the
    first and of the last of them, and every one of them is within the time
    window of the first. *)
Theorem detectThreads_threads messages timeWindowSeconds :
  let found := detectThreads messages timeWindowSeconds in
  threadId <$> found = (fun k => "thread-" +:+ pretty k) <$> seq 0 (length found) /\
  Forall (fun t =>
            exists members : list ChatMessage,
              members ⊆+ messages /\
              StronglySorted (fun a b => msg_timestamp a <= msg_timestamp b) members /\
              (3 <= length members <= 20)%nat /\
              messageCount t = length members /\
              thread_messages t = msg_id <$> members /\
              NoDup (participants t) /\
              (forall a, a ∈ participants t <-> a ∈ msg_author <$> members) /\
              head (msg_timestamp <$> members) = Some (startTime t) /\
              last (msg_timestamp <$> members) = Some (endTime t) /\
              startTime t <= endTime t /\
              Forall (fun m => ((msg_timestamp m - startTime t) # 1000
                                <= timeWindowSeconds)%Q) members) found.
Proof.
  cbv zeta. unfold detectThreads.
  destruct (length messages <? 3)%nat; [split; [done|constructor]|].
  destruct (loopAt_threadsInv messages timeWindowSeconds
              (length (sortedMessagesOf messages)))
    as (Hseeds & _ & Hids).
  { by rewrite sortedMessagesOf_length. }
  split; [exact Hids|].
  eapply Forall_impl; [exact Hseeds|]. clear Hseeds Hids.
  intros t (i & startMsg & Hstart & Hsize & Hpart & Hcount & Hfirst & Hlast & Hmsgs).
  cbv zeta in *.
  pose proof (sortedMessagesOf_sorted messages) as Hsorted.
  pose proof (sortedMessagesOf_perm messages) as Hperm.
  set (sortedMessages := sortedMessagesOf messages) in *.
  destruct (group_as_slice _ timeWindowSeconds _ _ Hstart) as [Hslice Hlen].
  cbv zeta in Hslice, Hlen.
  set (G := groupOf sortedMessages timeWindowSeconds i startMsg) in *.
  assert (HsortedG : StronglySorted
            (fun a b => msg_timestamp (msg a) <= msg_timestamp (msg b)) (startMsg :: G)).
  { rewrite Hslice. by apply StronglySorted_take, StronglySorted_drop. }
  assert (Hafter : Forall (fun m => msg_timestamp (msg startMsg) <= msg_timestamp (msg m)) G).
  { by apply StronglySorted_cons in HsortedG as [? _]. }
  assert (Hwin : Forall (fun m => ((msg_timestamp (msg m) - msg_timestamp (msg startMsg))
                                   # 1000 <= timeWindowSeconds)%Q) G).
  { eapply Forall_impl; [apply takeWhile_Forall|].
    intros m Hm. by apply Qle_bool_iff in Hm. }
  assert (Hstart0 : startTime t = msg_timestamp (msg startMsg)) by exact Hfirst.
  destruct (last (startMsg :: G)) as [lastMsg|] eqn:Hl;
    [|by rewrite last_cons in Hl; destruct (last G)].
  assert (Hend : endTime t = msg_timestamp (msg lastMsg)) by exact Hlast.
  assert (HlastIn : lastMsg ∈ startMsg :: G) by by apply last_Some_elem_of.
  exists (msg <$> startMsg :: G).
  split.
  { rewrite <- Hperm. apply fmap_submseteq, sublist_submseteq.
    rewrite Hslice. etrans; [apply sublist_take|apply sublist_drop]. }
  split.
  { apply (StronglySorted_fmap _
             (fun a b => msg_timestamp (msg a) <= msg_timestamp (msg b)));
      [|exact HsortedG]. by intros a b Hab. }
  rewrite length_fmap. split; [simpl in *; lia|]. split; [done|].
  split; [by rewrite Hmsgs, <- list_fmap_compose|].
  assert (Hfold : participants t =
            foldl (fun s a => set_add a s) [msg_author (msg startMsg)]
                  ((fun m => msg_author (msg m)) <$> G)).
  { by rewrite Hpart, foldl_fmap. }
  destruct (set_add_all ((fun m => msg_author (msg m)) <$> G)
              [msg_author (msg startMsg)] (NoDup_singleton _)) as [Hnd Hel].
  cbv zeta in Hnd, Hel. rewrite <- Hfold in Hnd, Hel.
  split; [done|]. split.
  { intros a. rewrite Hel, <- list_fmap_compose. csimpl.
    by rewrite list_elem_of_singleton, elem_of_cons. }
  split; [by rewrite Hstart0|].
  split; [by rewrite <- !list_fmap_compose, fmap_last, Hl, Hend|].
  assert (Hle : msg_timestamp (msg startMsg) <= msg_timestamp (msg lastMsg)).
  { apply elem_of_cons in HlastIn as [->|Hin]; [done|].
    by apply (proj1 (Forall_forall _ _) Hafter). }
  split; [lia|].
  apply Forall_fmap. rewrite Hstart0. constructor; [|exact Hwin].
  destruct G as [|g G']; [simpl in Hsize; lia|].
  apply Forall_cons in Hwin as [Hg _]. apply Forall_cons in Hafter as [Hg' _].
  eapply Qle_trans; [|exact Hg]. unfold Qle. simpl. lia.
Qed.

(** ** The host flag is not read

    The analyses read the id, author, text, timestamp, image and badges of
    a message.  A map over the messages that keeps these six fields, as
    [flagHostMessages] is, does not change what they return. *)

Lemma filter_fmap_comm {A} (P : A -> Prop) `{!forall x, Decision (P x)} (g : A -> A)
    (l : list A) :
  (forall x, P (g x) <-> P x) -> filter P (g <$> l) = g <$> filter P l.
Proof.
  intros HP. induction l as [|x l IH]; [done|].
  rewrite fmap_cons, !filter_cons, IH.
  destruct (decide (P (g x))) as [H1|H1], (decide (P x)) as [H2|H2]; try done.
  - exfalso. apply H2. by apply (proj1 (HP x)).
  - exfalso. apply H1. by apply (proj2 (HP x)).
Qed.

Lemma sort_insert_fmap {A} (cmp : A -> A -> Z) (g : A -> A) x (l : list A) :
  (forall a b, cmp (g a) (g b) = cmp a b) ->
  sort_insert cmp (g x) (g <$> l) = g <$> sort_insert cmp x l.
Proof.
  intros H. induction l as [|y l IH]; csimpl; [done|].
  rewrite H. destruct (cmp x y <=? 0); csimpl; [done|]. by rewrite IH.
Qed.

Lemma js_sort_fmap {A} (cmp : A -> A -> Z) (g : A -> A) (l : list A) :
  (forall a b, cmp (g a) (g b) = cmp a b) ->
  js_sort cmp (g <$> l) = g <$> js_sort cmp l.
Proof.
  intros H. induction l as [|x l IH]; [done|].
  change (js_sort cmp (g <$> x :: l)) with (sort_insert cmp (g x) (js_sort cmp (g <$> l))).
  rewrite IH. by apply sort_insert_fmap.
Qed.

Lemma foldl_ext_eq {A S} (f f' : S -> A -> S) l s :
  (forall s x, f s x = f' s x) -> foldl f s l = foldl f' s l.
Proof.
  intros H. revert s. induction l as [|x l IH]; intros s; simpl; [done|].
  by rewrite H, IH.
Qed.

Lemma find_fmap {A} (p p' : A -> bool) (g : A -> A) (l : list A) :
  (forall x, p (g x) = p' x) -> List.find p (g <$> l) = g <$> List.find p' l.
Proof.
  intros H. induction l as [|x l IH]; csimpl; [done|].
  rewrite H. by destruct (p' x).
Qed.

Section FieldPreserving.
Context (g : ChatMessage -> ChatMessage).
Hypothesis g_id : forall m, msg_id (g m) = msg_id m.
Hypothesis g_author : forall m, msg_author (g m) = msg_author m.
Hypothesis g_message : forall m, msg_message (g m) = msg_message m.
Hypothesis g_timestamp : forall m, msg_timestamp (g m) = msg_timestamp m.
Hypothesis g_profileImageUrl : forall m, msg_profileImageUrl (g m) = msg_profileImageUrl m.
Hypothesis g_badges : forall m, msg_badges (g m) = msg_badges m.

Lemma byTimestamp_fields (l : list ChatMessage) :
  js_sort byTimestamp (g <$> l) = g <$> js_sort byTimestamp l.
Proof. apply js_sort_fmap. intros a b. unfold byTimestamp. by rewrite !g_timestamp. Qed.

Lemma byAuthor_fields a (l : list ChatMessage) :
  filter (fun m => msg_author m = a) (g <$> l) = g <$> filter (fun m => msg_author m = a) l.
Proof. apply filter_fmap_comm. intros m. by rewrite g_author. Qed.

Lemma containing_fields kw (l : list ChatMessage) :
  filter (fun m => includes (toLowerCase (msg_message m)) (toLowerCase kw)) (g <$> l) =
  g <$> filter (fun m => includes (toLowerCase (msg_message m)) (toLowerCase kw)) l.
Proof. apply filter_fmap_comm. intros m. by rewrite g_message. Qed.

Lemma authors_fields (l : list ChatMessage) : msg_author <$> (g <$> l) = msg_author <$> l.
Proof. rewrite <- list_fmap_compose. apply list_fmap_ext. intros _ m _. apply g_author. Qed.

Lemma timestamps_fields (l : list ChatMessage) : msg_timestamp <$> (g <$> l) = msg_timestamp <$> l.
Proof. rewrite <- list_fmap_compose. apply list_fmap_ext. intros _ m _. apply g_timestamp. Qed.

Lemma findAnswers_fields question messages hostName w :
  findAnswers question (g <$> messages) hostName w =
  findAnswers question messages hostName w.
Proof.
  unfold findAnswers. cbv zeta.
  rewrite (filter_fmap_comm _ g).
  2: { intros m. unfold isCandidate. by rewrite g_timestamp, g_author. }
  rewrite byTimestamp_fields. unfold slice.
  rewrite <- fmap_drop, <- fmap_take, <- list_fmap_compose.
  apply list_fmap_ext. intros _ m _. unfold toAnswer. simpl.
  by rewrite g_id, g_author, g_message, g_timestamp.
Qed.

Lemma extractHostQuestions_fields messages hostName w :
  extractHostQuestions (g <$> messages) hostName w =
  extractHostQuestions messages hostName w.
Proof.
  unfold extractHostQuestions.
  rewrite !(foldl_push_filter (fun m => detectQuestions (msg_message m)) _ _ []).
  rewrite !app_nil_l, byAuthor_fields.
  rewrite (filter_fmap_comm _ g) by (intros m; by rewrite g_message).
  rewrite <- list_fmap_compose. apply list_fmap_ext. intros _ m _. simpl.
  by rewrite g_id, g_author, g_message, g_timestamp, findAnswers_fields.
Qed.

Lemma authorCount_fields a messages :
  authorCount a (g <$> messages) = authorCount a messages.
Proof. unfold authorCount. by rewrite byAuthor_fields, length_fmap. Qed.

Lemma collectAnswer_fields messages m a :
  collectAnswer (g <$> messages) m a = collectAnswer messages m a.
Proof. unfold collectAnswer. cbv zeta. by rewrite byAuthor_fields, length_fmap. Qed.

Lemma buildProfileImageMap_fields messages :
  buildProfileImageMap (g <$> messages) = buildProfileImageMap messages.
Proof.
  unfold buildProfileImageMap. rewrite foldl_fmap. apply foldl_ext_eq.
  intros s m. by rewrite g_author, g_profileImageUrl.
Qed.

Lemma rankQuestionAnswerers_fields hostQuestions messages :
  rankQuestionAnswerers hostQuestions (g <$> messages) =
  rankQuestionAnswerers hostQuestions messages.
Proof.
  unfold rankQuestionAnswerers. cbv zeta. rewrite buildProfileImageMap_fields.
  do 2 f_equal. unfold collectStats. apply foldl_ext_eq. intros s q.
  apply foldl_ext_eq. intros s' a. apply collectAnswer_fields.
Qed.

Lemma extractKeywords_fields messages :
  extractKeywords (g <$> messages) = extractKeywords messages.
Proof.
  unfold extractKeywords. cbv zeta. rewrite length_fmap, foldl_fmap.
  rewrite (foldl_ext_eq _ countKeywords); [done|].
  intros s m. unfold countKeywords. by rewrite g_message.
Qed.

Lemma countInPeriod_fields kw period :
  countInPeriod kw (g <$> period) = countInPeriod kw period.
Proof. unfold countInPeriod. by rewrite containing_fields, length_fmap. Qed.

Lemma clusterByTopic_fields messages keywords :
  clusterByTopic (g <$> messages) keywords = clusterByTopic messages keywords.
Proof.
  unfold clusterByTopic. cbv zeta. f_equal. apply foldl_ext_eq. intros clusters kw.
  by rewrite containing_fields, length_fmap, authors_fields, timestamps_fields.
Qed.

Lemma calculateKeywordTrends_fields messages keywords :
  calculateKeywordTrends (g <$> messages) keywords =
  calculateKeywordTrends messages keywords.
Proof.
  unfold calculateKeywordTrends. rewrite length_fmap.
  destruct (length messages <? 2)%nat; [done|]. cbv zeta.
  rewrite byTimestamp_fields. unfold trendsOfSorted. cbv zeta. rewrite length_fmap.
  f_equal. apply list_fmap_ext. intros _ k _. unfold slice, slice_from.
  by rewrite <- !fmap_drop, <- !fmap_take, !countInPeriod_fields.
Qed.

Lemma countAuthors_fields messages :
  countAuthors (g <$> messages) = countAuthors messages.
Proof.
  unfold countAuthors. rewrite foldl_fmap. apply foldl_ext_eq.
  intros s m. by rewrite g_author.
Qed.

Lemma identifyHost_fields messages manualHostName :
  identifyHost (g <$> messages) manualHostName = identifyHost messages manualHostName.
Proof.
  unfold identifyHost. destruct (truthy manualHostName); [done|].
  rewrite (find_fmap _ (hasBadge "owner")).
  2: { intros m. unfold hasBadge. by rewrite g_badges. }
  destruct (List.find (hasBadge "owner") messages) as [m|]; simpl;
    [by rewrite g_author|].
  rewrite (find_fmap _ (isActiveModerator messages)).
  2: { intros m. unfold isActiveModerator, hasBadge.
       by rewrite g_badges, g_author, authorCount_fields, length_fmap. }
  destruct (List.find (isActiveModerator messages) messages) as [m|]; simpl;
    [by rewrite g_author|].
  by rewrite countAuthors_fields, length_fmap.
Qed.

Lemma sortedMessagesOf_fields messages :
  sortedMessagesOf (g <$> messages) = onIndexed g <$> sortedMessagesOf messages.
Proof.
  unfold sortedMessagesOf. rewrite imap_fmap.
  rewrite <- (js_sort_fmap byIndexedTimestamp (onIndexed g)).
  - f_equal. by rewrite fmap_imap.
  - intros a b. unfold byIndexedTimestamp, onIndexed. simpl. by rewrite !g_timestamp.
Qed.

Lemma timeDiffOf_fields a b :
  timeDiffOf (onIndexed g a) (onIndexed g b) = timeDiffOf a b.
Proof. unfold timeDiffOf, onIndexed. simpl. by rewrite !g_timestamp. Qed.

Lemma lookAhead_fields sortedMessages w startMsg js st :
  lookAhead (onIndexed g <$> sortedMessages) w (onIndexed g startMsg) js (onScan g st) =
  onScan g (lookAhead sortedMessages w startMsg js st).
Proof.
  revert st. induction js as [|j js IH]; intros st; [done|].
  cbn [lookAhead]. change (scan_processed (onScan g st)) with (scan_processed st).
  destruct (bool_decide (j ∈ scan_processed st)); [apply IH|].
  rewrite list_lookup_fmap. destruct (sortedMessages !! j) as [currentMsg|]; [|done].
  cbn [fmap option_fmap option_map]. rewrite timeDiffOf_fields.
  destruct (Qgt_bool _ _); [done|]. destruct (Qle_bool _ _); [|apply IH].
  rewrite <- IH. f_equal. unfold onScan, onIndexed. simpl.
  by rewrite fmap_app, g_author.
Qed.

Lemma indexOf_fields sortedMessages tm :
  indexOf (onIndexed g <$> sortedMessages) (onIndexed g tm) = indexOf sortedMessages tm.
Proof.
  unfold indexOf. rewrite list_find_fmap. unfold compose, onIndexed. simpl.
  by destruct (list_find _ sortedMessages) as [[]|].
Qed.

Lemma head_fmap {A B} (f : A -> B) (l : list A) : head (f <$> l) = f <$> head l.
Proof. by destruct l. Qed.

Lemma timestampOf_fields o startMsg :
  timestampOf (onIndexed g <$> o) (onIndexed g startMsg) = timestampOf o startMsg.
Proof. unfold timestampOf. destruct o; simpl; apply g_timestamp. Qed.

Lemma seedStep_fields sortedMessages w st i :
  seedStep (onIndexed g <$> sortedMessages) w st i = seedStep sortedMessages w st i.
Proof.
  unfold seedStep. destruct (bool_decide (i ∈ processedIndices st)); [done|].
  rewrite list_lookup_fmap, length_fmap.
  destruct (sortedMessages !! i) as [startMsg|]; [|done].
  cbn [fmap option_fmap option_map]. cbv zeta.
  set (js := lookRange i (length sortedMessages)).
  assert (Hscan :
    lookAhead (onIndexed g <$> sortedMessages) w (onIndexed g startMsg) js
      (mkScan [onIndexed g startMsg] [msg_author (msg (onIndexed g startMsg))]
              (processedIndices st)) =
    onScan g (lookAhead sortedMessages w startMsg js
                (mkScan [startMsg] [msg_author (msg startMsg)] (processedIndices st)))).
  { rewrite <- lookAhead_fields. unfold onScan, onIndexed. simpl. by rewrite g_author. }
  rewrite Hscan. set (scan := lookAhead sortedMessages w startMsg js _).
  unfold onScan. cbn [threadMessages scan_participants scan_processed].
  rewrite length_fmap. destruct (3 <=? length (threadMessages scan))%nat; [|done].
  rewrite head_fmap, fmap_last, !timestampOf_fields, <- list_fmap_compose.
  rewrite foldl_fmap.
  rewrite (foldl_ext_eq _ (markProcessed sortedMessages)).
  2: { intros s tm. unfold markProcessed. by rewrite indexOf_fields. }
  do 4 f_equal. apply list_fmap_ext. intros _ tm _. apply g_id.
Qed.

Lemma detectThreads_fields messages w :
  detectThreads (g <$> messages) w = detectThreads messages w.
Proof.
  unfold detectThreads. rewrite length_fmap.
  destruct (length messages <? 3)%nat; [done|].
  unfold loopAt. cbv zeta. rewrite !sortedMessagesOf_fields, length_fmap. f_equal.
  apply foldl_ext_eq. intros st i. apply seedStep_fields.
Qed.

Lemma calculateStreamDuration_fields messages :
  calculateStreamDuration (g <$> messages) = calculateStreamDuration messages.
Proof. unfold calculateStreamDuration. by rewrite length_fmap, timestamps_fields. Qed.

Lemma gapLoop_fields (l : list ChatMessage) acc : gapLoop (g <$> l) acc = gapLoop l acc.
Proof.
  revert acc. induction l as [|prev l IH]; intros acc; [done|].
  destruct l as [|cur l]; [done|].
  change (gapLoop (g <$> prev :: cur :: l) acc) with
    (gapLoop (g <$> cur :: l)
       (let timeDiff := (msg_timestamp (g cur) - msg_timestamp (g prev)) # 1000 in
        if Qle_bool timeDiff 300 then ((acc.1 + timeDiff)%Q, S acc.2) else acc)).
  rewrite IH, !g_timestamp. done.
Qed.

Lemma avgGapOf_fields (l : list ChatMessage) : avgGapOf (g <$> l) = avgGapOf l.
Proof. unfold avgGapOf. by rewrite length_fmap, gapLoop_fields. Qed.

Lemma calculateEngagementScore_fields author messages threads answered duration :
  calculateEngagementScore author (g <$> messages) threads answered duration =
  calculateEngagementScore author messages threads answered duration.
Proof.
  unfold calculateEngagementScore. cbv zeta.
  by rewrite byAuthor_fields, length_fmap, avgGapOf_fields.
Qed.

Lemma collectBadges_fields messages :
  collectBadges (g <$> messages) = collectBadges messages.
Proof.
  unfold collectBadges. rewrite foldl_fmap. apply foldl_ext_eq.
  intros s m. by rewrite g_badges, g_author.
Qed.

Lemma memberOf_fields messages threads questionAnswerers duration entry :
  memberOf (g <$> messages) threads questionAnswerers duration entry =
  memberOf messages threads questionAnswerers duration entry.
Proof.
  unfold memberOf. destruct entry as [author total]. cbv zeta.
  by rewrite byAuthor_fields, avgGapOf_fields, calculateEngagementScore_fields,
    buildProfileImageMap_fields, collectBadges_fields.
Qed.

Lemma identifyActiveCommunityMembers_fields messages threads questionAnswerers :
  identifyActiveCommunityMembers (g <$> messages) threads questionAnswerers =
  identifyActiveCommunityMembers messages threads questionAnswerers.
Proof.
  unfold identifyActiveCommunityMembers. cbv zeta.
  rewrite calculateStreamDuration_fields, countAuthors_fields. do 3 f_equal.
  apply foldl_ext_eq. intros s entry. by rewrite memberOf_fields.
Qed.
End FieldPreserving.

(** X16.  The [isHost] flag that [flagHostMessages] sets is read by none of
    the analyses: on the flagged messages each of them returns what it
    returns on the messages themselves. *)
Theorem flagHostMessages_not_read messages hostName :
  let flagged := flagHostMessages messages hostName in
  (forall host w,
     extractHostQuestions flagged host w = extractHostQuestions messages host w) /\
  (forall hostQuestions,
     rankQuestionAnswerers hostQuestions flagged =
     rankQuestionAnswerers hostQuestions messages) /\
  extractKeywords flagged = extractKeywords messages /\
  (forall keywords,
     clusterByTopic flagged keywords = clusterByTopic messages keywords) /\
  (forall keywords,
     calculateKeywordTrends flagged keywords = calculateKeywordTrends messages keywords) /\
  (forall w, detectThreads flagged w = detectThreads messages w) /\
  (forall threads questionAnswerers,
     identifyActiveCommunityMembers flagged threads questionAnswerers =
     identifyActiveCommunityMembers messages threads questionAnswerers) /\
  (forall manualHostName,
     identifyHost flagged manualHostName = identifyHost messages manualHostName).
Proof.
  cbv zeta. unfold flagHostMessages. repeat split; intros.
  - by apply extractHostQuestions_fields.
  - by apply rankQuestionAnswerers_fields.
  - by apply extractKeywords_fields.
  - by apply clusterByTopic_fields.
  - by apply calculateKeywordTrends_fields.
  - by apply detectThreads_fields.
  - by apply identifyActiveCommunityMembers_fields.
  - by apply identifyHost_fields.
Qed.

(** ** Gaps between the messages of an author *)

Lemma StronglySorted_filter {A} (R : relation A) (P : A -> Prop)
    `{!forall x, Decision (P x)} (l : list A) :
  StronglySorted R l -> StronglySorted R (filter P l).
Proof.
  induction 1 as [|x l Hl IH Hx]; [constructor|].
  rewrite filter_cons. destruct (decide (P x)); [|done].
  constructor; [done|]. apply Forall_forall. intros y Hy.
  apply list_elem_of_filter in Hy as [_ Hy]. by apply (proj1 (Forall_forall _ _) Hx).
Qed.

Lemma gapLoop_upper (l : list ChatMessage) acc :
  (acc.1 <= 300 * Q_of_nat acc.2)%Q ->
  ((gapLoop l acc).1 <= 300 * Q_of_nat (gapLoop l acc).2)%Q.
Proof.
  revert acc. induction l as [|prev l IH]; intros acc Hacc; [done|].
  destruct l as [|cur l]; [done|].
  change (gapLoop (prev :: cur :: l) acc) with
    (gapLoop (cur :: l)
       (let timeDiff := (msg_timestamp cur - msg_timestamp prev) # 1000 in
        if Qle_bool timeDiff 300 then ((acc.1 + timeDiff)%Q, S acc.2) else acc)).
  apply IH. cbv zeta. destruct (Qle_bool _ 300) eqn:E; [|done].
  apply Qle_bool_iff in E. cbn [fst snd]. rewrite Q_of_nat_S. lra.
Qed.

Lemma gapLoop_lower (l : list ChatMessage) acc :
  StronglySorted (fun a b => msg_timestamp a <= msg_timestamp b) l ->
  (0 <= acc.1)%Q -> (0 <= (gapLoop l acc).1)%Q.
Proof.
  intros Hl. revert acc. induction Hl as [|prev l Hl IH Hprev]; intros acc Hacc; [done|].
  destruct l as [|cur l]; [done|].
  change (gapLoop (prev :: cur :: l) acc) with
    (gapLoop (cur :: l)
       (let timeDiff := (msg_timestamp cur - msg_timestamp prev) # 1000 in
        if Qle_bool timeDiff 300 then ((acc.1 + timeDiff)%Q, S acc.2) else acc)).
  apply IH. cbv zeta. destruct (Qle_bool _ 300); [|done]. cbn [fst].
  apply Forall_cons in Hprev as [Hle _].
  assert (0 <= (msg_timestamp cur - msg_timestamp prev) # 1000)%Q;
    [unfold Qle; simpl; lia|lra].
Qed.

Lemma avgGapOf_upper (l : list ChatMessage) : (avgGapOf l <= 300)%Q.
Proof.
  unfold avgGapOf. destruct (1 <? length l)%nat; [|done].
  pose proof (gapLoop_upper l (0%Q, 0%nat)) as Hup.
  destruct (gapLoop l (0%Q, 0%nat)) as [totalGap gapCount]. cbn [fst snd] in Hup.
  destruct (Nat.ltb_spec 0 gapCount) as [Hpos|]; [|done].
  apply Qle_shift_div_r.
  - unfold Q_of_nat. change 0%Q with (inject_Z 0). rewrite <- Zlt_Qlt. lia.
  - apply Hup. change (Q_of_nat 0) with 0%Q. lra.
Qed.

Lemma avgGapOf_lower (l : list ChatMessage) :
  StronglySorted (fun a b => msg_timestamp a <= msg_timestamp b) l ->
  (0 <= avgGapOf l)%Q.
Proof.
  intros Hl. unfold avgGapOf. destruct (1 <? length l)%nat; [|done].
  pose proof (gapLoop_lower l (0%Q, 0%nat) Hl) as Hlow.
  destruct (gapLoop l (0%Q, 0%nat)) as [totalGap gapCount]. cbn [fst] in Hlow.
  destruct (0 <? gapCount)%nat; [|done].
  apply Qdiv_nonneg; [by apply Hlow|apply Q_of_nat_nonneg].
Qed.

(** X17.  When the input messages are in chronological order, the
    [avgResponseTime] metric of every active community member lies between
    0 and 300 seconds. *)
Theorem identifyActiveCommunityMembers_response_time messages threads
    questionAnswerers :
  StronglySorted (fun a b => msg_timestamp a <= msg_timestamp b) messages ->
  Forall (fun m => (0 <= avgResponseTime (metrics m) <= 300)%Q)
    (identifyActiveCommunityMembers messages threads questionAnswerers).
Proof.
  intros Hsorted. apply Forall_forall. intros m Hm.
  apply members_lookup in Hm as (c & _ & ->). simpl. split.
  - by apply avgGapOf_lower, StronglySorted_filter.
  - apply avgGapOf_upper.
Qed.

Lemma identifyActiveCommunityMembers_response_time_witness :
  Forall (fun m => (0 <= avgResponseTime (metrics m) <= 300)%Q)
    (identifyActiveCommunityMembers twoBursts
       (detectThreads twoBursts defaultWindow) ∅).
Proof.
  apply (identifyActiveCommunityMembers_response_time twoBursts).
  unfold twoBursts.
  repeat (apply SSorted_cons;
          [|repeat (apply Forall_cons; split; [simpl; lia|]); apply Forall_nil_2]).
  apply SSorted_nil.
Defined.

(** ** Frequencies of the keyword trends *)

Lemma countInPeriod_app kw (a b : list ChatMessage) :
  countInPeriod kw (a ++ b) = (countInPeriod kw a + countInPeriod kw b)%nat.
Proof. unfold countInPeriod. by rewrite filter_app, length_app. Qed.

Lemma countInPeriod_sorted kw messages :
  countInPeriod kw (js_sort byTimestamp messages) = countInPeriod kw messages.
Proof. unfold countInPeriod. by rewrite js_sort_perm. Qed.

Lemma periods_cover {A} (t : nat) (l : list A) :
  slice 0 t l ++ slice t (t * 2) l ++ slice_from (t * 2) l = l.
Proof.
  unfold slice, slice_from. rewrite Nat.sub_0_r, drop_0.
  replace (t * 2 - t)%nat with t by lia. replace (t * 2)%nat with (t + t)%nat by lia.
  rewrite <- drop_drop. by rewrite !take_drop.
Qed.

(** X18.  The frequency that [calculateKeywordTrends] reports for a keyword
    is the number of input messages whose text contains it, letter case
    aside.  With fewer than two messages there is no trend; with two or
    more there is one trend for each of the first 20 keywords. *)
Theorem calculateKeywordTrends_totals messages keywords :
  let trends := calculateKeywordTrends messages keywords in
  Forall (fun kt =>
            kt_frequency kt =
            length (filter (fun m => includes (toLowerCase (msg_message m))
                                       (toLowerCase (kt_keyword kt))) messages))
         trends /\
  ((length messages < 2)%nat /\ trends = [] \/
   (2 <= length messages)%nat /\
   kt_keyword <$> trends ≡ₚ keyword <$> take 20 keywords).
Proof.
  cbv zeta. unfold calculateKeywordTrends.
  destruct (Nat.ltb_spec (length messages) 2) as [Hshort|Hlong].
  { split; [constructor|]. by left. }
  cbv zeta. unfold trendsOfSorted. cbv zeta. rewrite slice_0.
  set (sorted := js_sort byTimestamp messages).
  set (thirdSize := ceilThird (length sorted)). split.
  - apply js_sort_Forall, Forall_fmap, Forall_forall. intros k _. simpl.
    trans (countInPeriod (keyword k) messages); [|done].
    rewrite <- (countInPeriod_sorted _ messages). fold sorted.
    rewrite <- (periods_cover thirdSize sorted) at 4.
    rewrite !countInPeriod_app, slice_0. lia.
  - right. split; [done|]. rewrite js_sort_perm, <- list_fmap_compose. done.
Qed.

(** ** Answered questions and the engagement score *)

Lemma Qmin_mono_r (x y y' : Q) : (y <= y')%Q -> (Qmin x y <= Qmin x y')%Q.
Proof.
  intros Hy. unfold Qmin.
  destruct (Qle_bool x y) eqn:E, (Qle_bool x y') eqn:E'; try lra.
  - apply Qle_bool_iff in E.
    assert (~ (x <= y')%Q) by (rewrite <- Qle_bool_iff; congruence). lra.
  - assert (~ (x <= y)%Q) by (rewrite <- Qle_bool_iff; congruence). lra.
Qed.

(** X19.  Other things equal, [calculateEngagementScore] does not decrease
    when the number of answered questions grows. *)
Theorem calculateEngagementScore_answered_mono author messages threads
    (answeredQuestions answeredQuestions' : Q) streamDurationMinutes :
  (answeredQuestions <= answeredQuestions')%Q ->
  calculateEngagementScore author messages threads answeredQuestions
    streamDurationMinutes
  <= calculateEngagementScore author messages threads answeredQuestions'
       streamDurationMinutes.
Proof.
  intros Hle. unfold calculateEngagementScore. cbv zeta.
  destruct (length _ =? 0)%nat; [done|].
  apply Math_round_mono, Qmin_mono_r.
  set (frequencyScore := Qmin 100 (_ / 10 * 100)).
  set (speedScore := Qmax 0 _). set (conversationScore := Qmin 100 (_ / 5 * 100)).
  assert (Hanswering :
    ((if Qgt_bool answeredQuestions 0 then Qmin 100 (answeredQuestions * 10) else 0)
     <= (if Qgt_bool answeredQuestions' 0 then Qmin 100 (answeredQuestions' * 10) else 0))%Q).
  { destruct (Qgt_bool answeredQuestions 0) eqn:E, (Qgt_bool answeredQuestions' 0) eqn:E'.
    - apply Qmin_mono_r. lra.
    - apply Qgt_bool_iff in E.
      assert (~ (0 < answeredQuestions')%Q) by (rewrite <- Qgt_bool_iff; congruence). lra.
    - apply Qgt_bool_iff in E'. apply Qmin_nonneg; lra.
    - lra. }
  lra.
Qed.

Lemma calculateEngagementScore_answered_mono_witness :
  calculateEngagementScore "Carl" scenarioE [] 1 5
  <= calculateEngagementScore "Carl" scenarioE [] 3 5.
Proof.
  apply (calculateEngagementScore_answered_mono "Carl" scenarioE [] 1 3 5).
  vm_compute. discriminate.
Defined.

(** ** Words of a message *)

Lemma allChars_app p a b : allChars p (a +:+ b) = allChars p a && allChars p b.
Proof. induction a as [|c a IH]; simpl; [done|]. by rewrite IH, andb_assoc. Qed.

Lemma allChars_toLowerCase s :
  allChars (fun c => bool_decide (lower_ascii c = c)) (toLowerCase s) = true.
Proof.
  induction s as [|c s IH]; simpl; [done|].
  by rewrite IH, bool_decide_eq_true_2 by apply lower_ascii_idem.
Qed.

Lemma allChars_stripPunctuation s :
  allChars (fun c => bool_decide (lower_ascii c = c)) s = true ->
  allChars (fun c => (is_word_char c || is_space c) && bool_decide (lower_ascii c = c))
           (stripPunctuation s) = true.
Proof.
  induction s as [|c s IH]; simpl; [done|].
  intros [Hc Hs]%andb_true_iff.
  destruct (is_word_char c || is_space c) eqn:E; simpl; [|by apply IH].
  by rewrite E, Hc, IH.
Qed.

Lemma splitWords_words s cur :
  allChars (fun c => (is_word_char c || is_space c) && bool_decide (lower_ascii c = c))
           s = true ->
  allChars is_keyword_char cur = true ->
  Forall (fun word => word ≠ "" /\ allChars is_keyword_char word = true)
         (splitWords s cur).
Proof.
  revert cur. induction s as [|c s IH]; intros cur Hs Hcur; simpl.
  - destruct (bool_decide_reflect (cur = "")); [constructor|]. by repeat constructor.
  - simpl in Hs. apply andb_true_iff in Hs as [Hc Hs].
    apply andb_true_iff in Hc as [Hkind Hlower].
    destruct (is_space c) eqn:Hspace.
    + destruct (bool_decide_reflect (cur = "")); [by apply IH|].
      constructor; [done|by apply IH].
    + apply IH; [done|]. rewrite allChars_app, Hcur. simpl.
      unfold is_keyword_char. rewrite Hspace, Hlower.
      rewrite orb_false_r in Hkind. by rewrite Hkind.
Qed.

(** X20.  Every word that [extractKeywords] counts for a message of ASCII
    characters is non-empty, is not a stop word, and is made of digits,
    underscores and lower-case letters only. *)
Theorem wordsOf_words message :
  allChars is_ascii_char message = true ->
  Forall (fun word => word ≠ "" /\ isStopword word = false /\
                      allChars is_keyword_char word = true)
         (wordsOf message).
Proof.
  intros _. unfold wordsOf. apply Forall_forall. intros word Hword.
  apply list_elem_of_filter in Hword as [Hstop Hword].
  pose proof (splitWords_words (stripPunctuation (toLowerCase message)) ""
                (allChars_stripPunctuation _ (allChars_toLowerCase message)) eq_refl)
    as Hall.
  apply (proj1 (Forall_forall _ _) Hall) in Hword as [Hne Hchars]. done.
Qed.

Lemma wordsOf_words_witness :
  Forall (fun word => word ≠ "" /\ isStopword word = false /\
                      allChars is_keyword_char word = true)
         (wordsOf "Great  stream, the BEST_1!").
Proof. apply (wordsOf_words "Great  stream, the BEST_1!"). reflexivity. Defined.
